(** * Arc-length queries over splines: a shallow embedding of
    [spline_library/arclength.h] and the properties of its three entry
    points [solveLength], [partition] and [partitionN].

    The header is a set of C++ templates over a floating type
    [floating_t], a vector type (the [InterpolationType]) and a spline
    class.  The embedding keeps that shape: the arithmetic, the vector
    operations, the root finder of Boost and the spline are interfaces,
    and the algorithms are written once against them.  Three kinds of
    results follow:
    - structural ones (what is called, how often, in which order) hold
      for every instance of the interfaces, hence also for IEEE
      arithmetic;
    - metric ones (arc lengths add up, boundaries increase) are proved
      for the exact instance of the arithmetic over [Q], under the
      contract of the spline and of the root finder, up to the
      tolerance of the latter;
    - runs in IEEE double precision, on the instance built on the
      primitive binary64 numbers, show where rounding makes the code
      leave what the exact instance guarantees.

    Indices and sizes ([size_t]) are natural numbers: every index the
    code forms is at most a vector length or [segmentCount + 1], far
    from the 64-bit wrap-around. *)

From Stdlib Require Import ZArith QArith Qround Qabs Lia Lqa Bool Sorted PrimFloat.
From stdpp Require Import base list.

(** ** The template parameters *)

(** [floating_t]: the operations the header uses on it. *)
Class Floating (T : Type) : Type := {
  fzero : T;                       (* the literal 0 *)
  fone : T;                        (* the literal 1, floating_t(1) *)
  fadd : T -> T -> T;
  fsub : T -> T -> T;
  fmul : T -> T -> T;
  fdiv : T -> T -> T;
  flt : T -> T -> bool;            (* operator< *)
  of_size_t : nat -> T;            (* the conversion in totalArcLength / n *)
  to_size_t : T -> nat;            (* size_t(x): truncation toward zero *)
  digits : Z                       (* std::numeric_limits<floating_t>::digits *)
}.

Declare Scope fl_scope.
Delimit Scope fl_scope with fl.
Infix "+" := fadd : fl_scope.
Infix "-" := fsub : fl_scope.
Infix "*" := fmul : fl_scope.
Infix "/" := fdiv : fl_scope.
Infix "<?" := flt : fl_scope.

(** The vector type behind [InterpolationType]: magnitude, division by a
    scalar and dot product are all the header needs. *)
Class Interpolation (V T : Type) : Type := {
  vlength : V -> T;                (* v.length() *)
  vdiv : V -> T -> V;              (* v /= s *)
  dotProduct : V -> V -> T         (* InterpolationType::dotProduct *)
}.

(** The value of [spline.getCurvature(t)]. *)
Record InterpolatedTC (V : Type) : Type := {
  tangent : V;
  curvature : V
}.
Arguments tangent {V} _.
Arguments curvature {V} _.

(** The spline, through the six queries of the header. *)
Record Spline (V T : Type) : Type := {
  segmentCount : nat;
  segmentT : nat -> T;
  segmentForT : T -> nat;
  segmentArcLength : nat -> T -> T -> T;
  getCurvature : T -> InterpolatedTC V;
  getMaxT : T
}.
Arguments segmentCount {V T} _.
Arguments segmentT {V T} _ _.
Arguments segmentForT {V T} _ _.
Arguments segmentArcLength {V T} _ _ _ _.
Arguments getCurvature {V T} _ _.
Arguments getMaxT {V T} _.

(** [boost::math::tools::halley_iterate(f, guess, min, max, digits)]: the
    objective returns the value and its first two derivatives.  Boost is
    not part of the repository, so the root finder is an interface too. *)
Class RootFinder (T : Type) : Type :=
  halley_iterate : (T -> T * T * T) -> T -> T -> T -> Z -> T.

(** ** Calls, faults and the monad that records them *)

(** What the engine asks of its collaborators.  The evaluations the root
    finder makes of its objective are inside [halley_iterate] and are not
    events of the engine. *)
Inductive event (T : Type) : Type :=
| EvSegmentArcLength (i : nat) (a b : T)
| EvSolveSegment (i : nat) (desiredLength maxLength aPercent : T).
Arguments EvSegmentArcLength {T} _ _ _.
Arguments EvSolveSegment {T} _ _ _ _.

(** How a run ends: with a value, with a read outside a [std::vector]
    (undefined behaviour in C++), or with the budget of a [while] loop
    used up.  The budgets the entry points give are [segmentCount] and
    the length of the table of segment lengths; [engine_scans_bounded]
    shows that they are never used up. *)
Inductive outcome (A : Type) : Type :=
| Done (a : A)
| OutOfRange
| OutOfFuel.
Arguments Done {A} _.
Arguments OutOfRange {A}.
Arguments OutOfFuel {A}.

Definition M (T A : Type) : Type := (list (event T) * outcome A)%type.

Definition trace {T A} (m : M T A) : list (event T) := fst m.
Definition value {T A} (m : M T A) : outcome A := snd m.

Definition ret {T A} (a : A) : M T A := ([], Done a).

Definition bind {T A B} (m : M T A) (k : A -> M T B) : M T B :=
  match snd m with
  | Done a => (fst m ++ fst (k a), snd (k a))
  | OutOfRange => (fst m, OutOfRange)
  | OutOfFuel => (fst m, OutOfFuel)
  end.

Definition tell {T} (e : event T) : M T unit := ([e], Done tt).

Definition lift {T A} (o : outcome A) : M T A := ([], o).

Declare Scope engine_scope.
Delimit Scope engine_scope with engine.
Notation "'let*' p ':=' m 'in' k" := (bind m (fun p => k))
  (at level 10, p pattern, m at level 100, k at level 200) : engine_scope.

(** [v[i]] on a [std::vector]: outside the vector the behaviour is
    undefined, which the model reports as [OutOfRange]. *)
Definition read {A} (v : list A) (i : nat) : outcome A :=
  match v !! i with
  | Some x => Done x
  | None => OutOfRange
  end.

(** A counted loop [for (i = lo; i < lo + n; i++)] over a state. *)
Fixpoint for_loop {T S} (n : nat) (i : nat) (body : nat -> S -> M T S) (s : S)
  : M T S :=
  match n with
  | O => ret s
  | Datatypes.S n' => bind (body i s) (fun s' => for_loop n' (Datatypes.S i) body s')
  end.

(** ** namespace __ArcLengthSolvePrivate *)
Module ArcLengthSolvePrivate.
Section Solver.
Context {V T : Type} `{Floating T} `{Interpolation V T} `{RootFinder T}.
Local Open Scope fl_scope.

(** The lambda [solveFunction] of [solveSegment]. *)
Definition solveFunction (spline : Spline V T) (segmentIndex : nat)
    (desiredLength aPercent bBegin bEnd : T) (bPercent : T) : T * T * T :=
  let value := segmentArcLength spline segmentIndex aPercent bPercent - desiredLength in
  let b := bBegin + bPercent * (bEnd - bBegin) in
  let interpolationResult := getCurvature spline b in
  let tangentLength := vlength (tangent interpolationResult) in
  let unitTangent := vdiv (tangent interpolationResult) tangentLength in
  let secondDerivative := dotProduct unitTangent (curvature interpolationResult) in
  (value, tangentLength, secondDerivative).

(** solve the arc length for a single spline segment *)
Definition solveSegment (spline : Spline V T) (segmentIndex : nat)
    (desiredLength maxLength aPercent : T) : T :=
  let desiredPercent := desiredLength / maxLength in
  let bGuess := aPercent + desiredPercent * (fone - aPercent) in
  let bBegin := segmentT spline segmentIndex in
  let bEnd := segmentT spline (segmentIndex + 1) in
  halley_iterate
    (solveFunction spline segmentIndex desiredLength aPercent bBegin bEnd)
    bGuess aPercent fone (Z.quot digits 2).
End Solver.
End ArcLengthSolvePrivate.

(** ** namespace ArcLength *)
Module ArcLength.
Section Engine.
Context {V T : Type} `{Floating T} `{Interpolation V T} `{RootFinder T}.
Local Open Scope fl_scope.
Local Open Scope engine_scope.

(** The two calls the engine makes, recorded. *)
Definition callSegmentArcLength (spline : Spline V T) (i : nat) (a b : T) : M T T :=
  let* _ := tell (EvSegmentArcLength i a b) in
  ret (segmentArcLength spline i a b).

Definition callSolveSegment (spline : Spline V T) (segmentIndex : nat)
    (desiredLength maxLength aPercent : T) : M T T :=
  let* _ := tell (EvSolveSegment segmentIndex desiredLength maxLength aPercent) in
  ret (ArcLengthSolvePrivate.solveSegment spline segmentIndex desiredLength maxLength aPercent).

(** The [while(++bIndex < spline.segmentCount())] loop of [solveLength];
    each unfolding is one evaluation of the loop condition.  It returns
    [bIndex], [bLength] and [desiredLength] at the exit. *)
Fixpoint scanSegments (fuel : nat) (spline : Spline V T) (bIndex : nat)
    (bLength desiredLength : T) : M T (nat * T * T) :=
  let bIndex := Datatypes.S bIndex in
  if (bIndex <? segmentCount spline)%nat then
    match fuel with
    | O => lift OutOfFuel
    | Datatypes.S fuel' =>
        let* bLength := callSegmentArcLength spline bIndex fzero fone in
        if bLength <? desiredLength
        then scanSegments fuel' spline bIndex bLength (desiredLength - bLength)
        else ret (bIndex, bLength, desiredLength)
    end
  else ret (bIndex, bLength, desiredLength).

(** compute b such that arcLength(a,b) == desiredLength *)
Definition solveLength (spline : Spline V T) (a desiredLength : T) : M T T :=
  let aIndex := segmentForT spline a in
  let bIndex := aIndex in
  let aBegin := segmentT spline aIndex in
  let aEnd := segmentT spline (aIndex + 1) in
  let aPercent := (a - aBegin) / (aEnd - aBegin) in
  let* aLength := callSegmentArcLength spline aIndex aPercent fone in
  let bLength := aLength in
  let* (aPercent, bIndex, bLength, desiredLength) :=
    (if aLength <? desiredLength
     then
       let* (bIndex, bLength, desiredLength) :=
         scanSegments (segmentCount spline) spline bIndex bLength (desiredLength - aLength) in
       ret (fzero, bIndex, bLength, desiredLength)
     else ret (aPercent, bIndex, bLength, desiredLength)) in
  if (bIndex =? segmentCount spline)%nat
  then ret (getMaxT spline)
  else
    let* bPercent := callSolveSegment spline bIndex desiredLength bLength aPercent in
    let bBegin := segmentT spline bIndex in
    let bEnd := segmentT spline (bIndex + 1) in
    ret (bBegin + bPercent * (bEnd - bBegin)).

(** The body of the first loop of [partition] and of [partitionN]. *)
Definition measureSegment (spline : Spline V T) (i : nat) (st : T * list T)
  : M T (T * list T) :=
  let '(totalArcLength, segmentLengths) := st in
  let* segmentLength := callSegmentArcLength spline i fzero fone in
  ret (totalArcLength + segmentLength, <[i := segmentLength]> segmentLengths).

(** The first loop of [partition] and of [partitionN], the same text in
    both: total arc length and arc length for each segment. *)
Definition measureSegments (spline : Spline V T) : M T (T * list T) :=
  let segmentLengths := replicate (segmentCount spline) fzero in
  let totalArcLength := fzero in
  for_loop (segmentCount spline) 0 (measureSegment spline)
    (totalArcLength, segmentLengths).

(** The [while(segmentRemainder < desiredLength)] loop of both
    partitions; [segmentLengths[++bIndex]] is a read of the table. *)
Fixpoint scanTable (fuel : nat) (segmentLengths : list T) (bIndex : nat)
    (segmentRemainder desiredLength : T) : outcome (nat * T * T) :=
  if segmentRemainder <? desiredLength then
    let desiredLength := desiredLength - segmentRemainder in
    let bIndex := Datatypes.S bIndex in
    match read segmentLengths bIndex with
    | Done segmentRemainder =>
        match fuel with
        | O => OutOfFuel
        | Datatypes.S fuel' =>
            scanTable fuel' segmentLengths bIndex segmentRemainder desiredLength
        end
    | OutOfRange => OutOfRange
    | OutOfFuel => OutOfFuel
    end
  else Done (bIndex, segmentRemainder, desiredLength).

(** The inter-piece state of both partitions. *)
Record cursor : Type := {
  segmentRemainder : T;
  previousPercent : T;
  aIndex : nat
}.

(** The body of the piece loop, the same text in both partitions: it
    fills [pieces[i]] and sets up the next iteration. *)
Definition solvePiece (spline : Spline V T) (segmentLengths : list T)
    (lengthPerPiece : T) (i : nat) (st : list T * cursor) : M T (list T * cursor) :=
  let '(pieces, c) := st in
  let bIndex := aIndex c in
  let desiredLength := lengthPerPiece in
  let* (bIndex, segmentRemainder, desiredLength) :=
    lift (scanTable (length segmentLengths) segmentLengths bIndex
            (segmentRemainder c) desiredLength) in
  let aPercent := if (aIndex c =? bIndex)%nat then previousPercent c else fzero in
  let* bPercent := callSolveSegment spline bIndex desiredLength segmentRemainder aPercent in
  let bBegin := segmentT spline bIndex in
  let bEnd := segmentT spline (bIndex + 1) in
  ret (<[i := bBegin + bPercent * (bEnd - bBegin)]> pieces,
       {| segmentRemainder := segmentRemainder - desiredLength;
          previousPercent := bPercent;
          aIndex := bIndex |}).

(** subdivide the spline into pieces such that the arc length of each
    pieces is equal to desiredLength *)
Definition partition (spline : Spline V T) (lengthPerPiece : T) : M T (list T) :=
  let* (totalArcLength, segmentLengths) := measureSegments spline in
  let pieces := replicate (to_size_t (totalArcLength / lengthPerPiece) + 1) fzero in
  let* segmentRemainder := lift (read segmentLengths 0) in
  let* (pieces, _) :=
    for_loop (length pieces - 1) 1 (solvePiece spline segmentLengths lengthPerPiece)
      (pieces, {| segmentRemainder := segmentRemainder;
                  previousPercent := fzero;
                  aIndex := 0 |}) in
  ret pieces.

(** subdivide the spline into N pieces such that each piece has the
    same arc length *)
Definition partitionN (spline : Spline V T) (n : nat) : M T (list T) :=
  let* (totalArcLength, segmentLengths) := measureSegments spline in
  let lengthPerPiece := totalArcLength / of_size_t n in
  let pieces := replicate (n + 1) fzero in
  let pieces := <[0 := fzero]> pieces in
  let pieces := <[n := getMaxT spline]> pieces in
  let* segmentRemainder := lift (read segmentLengths 0) in
  let* (pieces, _) :=
    for_loop (n - 1) 1 (solvePiece spline segmentLengths lengthPerPiece)
      (pieces, {| segmentRemainder := segmentRemainder;
                  previousPercent := fzero;
                  aIndex := 0 |}) in
  ret pieces.

End Engine.
End ArcLength.

(** ** What the first loop of the partitions computes *)

Section Table.
Context {V T : Type} `{Floating T}.
Local Open Scope fl_scope.

(** The table [segmentLengths] once the first loop is over. *)
Definition lengthTable (spline : Spline V T) : list T :=
  map (fun j => segmentArcLength spline j fzero fone) (seq 0 (segmentCount spline)).

(** [totalArcLength] once the first loop is over: the lengths added up
    from the left, starting at 0. *)
Definition lengthTotal (spline : Spline V T) : T :=
  fold_left (fun acc j => acc + segmentArcLength spline j fzero fone)
    (seq 0 (segmentCount spline)) fzero.

(** The inter-piece state before the first piece, with the length of
    segment 0 as remainder. *)
Definition cursor0 (r : T) : ArcLength.cursor :=
  {| ArcLength.segmentRemainder := r;
     ArcLength.previousPercent := fzero;
     ArcLength.aIndex := 0 |}.

End Table.

(** ** The exact instance: arithmetic over [Q] *)

Definition Qlt_bool (x y : Q) : bool := negb (Qle_bool y x).

(** Truncation toward zero, as the conversion [size_t(x)] does for the
    values it is defined on. *)
Definition Qtrunc_nat (x : Q) : nat := Z.to_nat (Z.quot (Qnum x) (Zpos (Qden x))).

#[export] Instance Q_floating : Floating Q := {|
  fzero := 0%Q;
  fone := 1%Q;
  fadd := Qplus;
  fsub := Qminus;
  fmul := Qmult;
  fdiv := Qdiv;
  flt := Qlt_bool;
  of_size_t := fun n => inject_Z (Z.of_nat n);
  to_size_t := Qtrunc_nat;
  digits := 53%Z
|}.

(** One-dimensional vectors. *)
#[export] Instance Q_interpolation : Interpolation Q Q := {|
  vlength := Qabs;
  vdiv := Qdiv;
  dotProduct := Qmult
|}.

(** A bracketed Newton iteration, a stand-in for the root finder of
    Boost when the engine is run on concrete curves: it stops at a root
    and never leaves [[lo, hi]].  It is written against the interface of
    [floating_t], whose only test is [operator<]. *)
Section Newton.
Context {T : Type} `{Floating T}.
Local Open Scope fl_scope.

Definition is_zero (x : T) : bool := negb (x <? fzero) && negb (fzero <? x).

Fixpoint newton_steps (n : nat) (f : T -> T * T * T) (x lo hi : T) : T :=
  match n with
  | O => x
  | S n' =>
      let '(f0, f1, _) := f x in
      if is_zero f0 then x
      else
        let x' := x - f0 / f1 in
        let x' := if x' <? lo then lo else if hi <? x' then hi else x' in
        newton_steps n' f x' lo hi
  end.

Definition newton_finder : RootFinder T :=
  fun f guess lo hi digits => newton_steps (Z.to_nat digits) f guess lo hi.

End Newton.

(** A polyline with knots at 0, 1, 2, ...: segment [i] is a straight
    stretch of length [nth i lengths], traversed at constant speed. *)
Definition polyline (lengths : list Q) : Spline Q Q := {|
  segmentCount := length lengths;
  segmentT := fun i => inject_Z (Z.of_nat i);
  segmentForT := fun t => Nat.min (Z.to_nat (Qfloor t)) (length lengths - 1);
  segmentArcLength := fun i a b => (nth i lengths 0 * (b - a))%Q;
  getCurvature := fun t =>
    {| tangent := nth (Nat.min (Z.to_nat (Qfloor t)) (length lengths - 1)) lengths 0%Q;
       curvature := 0%Q |};
  getMaxT := inject_Z (Z.of_nat (length lengths))
|}.

Definition run_solveLength (s : Spline Q Q) (a d : Q) :=
  @ArcLength.solveLength Q Q Q_floating Q_interpolation newton_finder s a d.
Definition run_partition (s : Spline Q Q) (l : Q) :=
  @ArcLength.partition Q Q Q_floating Q_interpolation newton_finder s l.
Definition run_partitionN (s : Spline Q Q) (n : nat) :=
  @ArcLength.partitionN Q Q Q_floating Q_interpolation newton_finder s n.

(** A bisection on the sign of the objective, a second stand-in for the
    root finder of Boost: it ignores the guess and the derivatives,
    halves the bracket once per requested digit and answers its lower
    end.  The midpoints are kept in lowest terms. *)
Fixpoint bisect_steps (n : nat) (f : Q -> Q * Q * Q) (lo hi : Q) : Q :=
  match n with
  | O => lo
  | S n' =>
      let mid := Qred ((lo + hi) / 2) in
      if Qlt_bool 0 (fst (fst (f mid)))
      then bisect_steps n' f lo mid
      else bisect_steps n' f mid hi
  end.

Definition bisect_finder : RootFinder Q :=
  fun f guess lo hi digits => bisect_steps (Z.to_nat digits) f lo hi.

(** [w] halved [n] times. *)
Fixpoint halved (n : nat) (w : Q) : Q :=
  match n with
  | O => w
  | S n' => halved n' (w / 2)
  end.

(** A curve of bent segments with knots at 0, 1, 2, ...: segment [i] has
    arc length [nth i lengths] and is traversed at a speed that grows
    linearly, from half its mean at fraction 0 to three halves of it at
    fraction 1, so that the arc length up to fraction [p] is
    [(p * p + p) / 2] of the segment's. *)
Definition arcs (lengths : list Q) : Spline Q Q := {|
  segmentCount := length lengths;
  segmentT := fun i => inject_Z (Z.of_nat i);
  segmentForT := fun t => Nat.min (Z.to_nat (Qfloor t)) (length lengths - 1);
  segmentArcLength := fun i a b =>
    (nth i lengths 0 * (((b * b + b) - (a * a + a)) / 2))%Q;
  getCurvature := fun t =>
    let i := Nat.min (Z.to_nat (Qfloor t)) (length lengths - 1) in
    let p := (t - inject_Z (Z.of_nat i))%Q in
    {| tangent := (nth i lengths 0 * ((2 * p + 1) / 2))%Q;
       curvature := nth i lengths 0%Q |};
  getMaxT := inject_Z (Z.of_nat (length lengths))
|}.

Definition bisect_solveLength (s : Spline Q Q) (a d : Q) :=
  @ArcLength.solveLength Q Q Q_floating Q_interpolation bisect_finder s a d.
Definition bisect_partition (s : Spline Q Q) (l : Q) :=
  @ArcLength.partition Q Q Q_floating Q_interpolation bisect_finder s l.
Definition bisect_partitionN (s : Spline Q Q) (n : nat) :=
  @ArcLength.partitionN Q Q Q_floating Q_interpolation bisect_finder s n.


(** ** The binary64 instance: IEEE double precision *)

Fixpoint pow2 (k : nat) : float :=
  match k with
  | O => 1%float
  | S j => (2 * pow2 j)%float
  end.

(** The integer part of [0 <= x < 2^64], bit by bit from the top; the
    subtractions are exact.  Outside that range the conversion
    [size_t(x)] is undefined in C++. *)
Fixpoint float_trunc (k : nat) (x : float) : N :=
  match k with
  | O => 0%N
  | S j =>
      if (pow2 j <=? x)%float
      then (2 ^ N.of_nat j + float_trunc j (x - pow2 j)%float)%N
      else float_trunc j x
  end.

(** The conversion of an integer to binary64, exact below [2^53]. *)
Fixpoint float_of_pos (p : positive) : float :=
  match p with
  | xH => 1%float
  | xO q => (2 * float_of_pos q)%float
  | xI q => (2 * float_of_pos q + 1)%float
  end.

#[export] Instance binary64 : Floating float := {|
  fzero := 0%float;
  fone := 1%float;
  fadd := PrimFloat.add;
  fsub := PrimFloat.sub;
  fmul := PrimFloat.mul;
  fdiv := PrimFloat.div;
  flt := PrimFloat.ltb;
  of_size_t := fun n => match N.of_nat n with
                        | N0 => 0%float
                        | Npos p => float_of_pos p
                        end;
  to_size_t := fun x => N.to_nat (float_trunc 64 x);
  digits := 53%Z
|}.

#[export] Instance binary64_interpolation : Interpolation float float := {|
  vlength := PrimFloat.abs;
  vdiv := PrimFloat.div;
  dotProduct := PrimFloat.mul
|}.

(** One straight segment of length [len] over [[0, 1]], in binary64. *)
Definition straight64 (len : float) : Spline float float := {|
  segmentCount := 1;
  segmentT := fun i => of_size_t i;
  segmentForT := fun _ => 0%nat;
  segmentArcLength := fun _ a b => (len * (b - a))%float;
  getCurvature := fun _ => {| tangent := len; curvature := 0%float |};
  getMaxT := 1%float
|}.

(** The doubles nearest to 0.1 and to 0.02. *)
Definition tenth : float := 0x1.999999999999ap-4%float.
Definition fiftieth : float := 0x1.47ae147ae147bp-6%float.

Definition run_partition64 (s : Spline float float) (l : float) :=
  @ArcLength.partition float float binary64 binary64_interpolation newton_finder s l.
Definition run_solveLength64 (s : Spline float float) (a d : float) :=
  @ArcLength.solveLength float float binary64 binary64_interpolation newton_finder s a d.

(** A polyline in binary64, with knots at 0, 1, 2, ... *)
Definition polyline64 (lengths : list float) : Spline float float := {|
  segmentCount := length lengths;
  segmentT := fun i => of_size_t i;
  segmentForT := fun t => Nat.min (to_size_t t) (length lengths - 1);
  segmentArcLength := fun i a b => (nth i lengths 0 * (b - a))%float;
  getCurvature := fun t =>
    {| tangent := nth (Nat.min (to_size_t t) (length lengths - 1)) lengths 0%float;
       curvature := 0%float |};
  getMaxT := of_size_t (length lengths)
|}.

(** Segments of lengths 0.8, 2.0 and 0.3, as the nearest doubles, and the
    double nearest to 3.1. *)
Definition three_segments64 : Spline float float :=
  polyline64 [0x1.999999999999ap-1%float; 0x1p+1%float; 0x1.3333333333333p-2%float].
Definition above_three_segments : float := 0x1.8cccccccccccdp+1%float.


(** ** Reading a trace *)

(** The segments the solver was called on, in call order. *)
Definition solveIndices {T} (tr : list (event T)) : list nat :=
  omap (fun e => match e with
                 | EvSolveSegment i _ _ _ => Some i
                 | EvSegmentArcLength _ _ _ => None
                 end) tr.

(** How often the solver was called. *)
Definition solveCalls {T} (tr : list (event T)) : nat := length (solveIndices tr).

(** The segments whose arc length the engine asked for, in call order. *)
Definition measuredIndices {T} (tr : list (event T)) : list nat :=
  omap (fun e => match e with
                 | EvSegmentArcLength i _ _ => Some i
                 | EvSolveSegment _ _ _ _ => None
                 end) tr.

(** How often the engine asked for an arc length on segment [i]. *)
Definition measureCalls {T} (i : nat) (tr : list (event T)) : nat :=
  length (filter (fun j => j = i) (measuredIndices tr)).

(** The engine asks for whole segments only. *)
Definition fullRange `{Floating T} (e : event T) : Prop :=
  match e with
  | EvSegmentArcLength _ a b => a = fzero /\ b = fone
  | EvSolveSegment _ _ _ _ => True
  end.

(** A solver call on a segment of the curve, with a desired length that
    is not above the length it is told the segment has left. *)
Definition solveWithin `{Floating T} (count : nat) (e : event T) : Prop :=
  match e with
  | EvSegmentArcLength _ _ _ => True
  | EvSolveSegment i desiredLength maxLength _ =>
      (i < count)%nat /\ flt maxLength desiredLength = false
  end.

(** What the scans ask of the solver, in call order: the segment, the
    desired length and the maximal length, without the fraction the
    search starts from, which is the only argument that comes from
    earlier answers of the solver. *)
Definition solveRequests {T} (tr : list (event T)) : list (nat * T * T) :=
  omap (fun e => match e with
                 | EvSolveSegment i desiredLength maxLength _ =>
                     Some (i, desiredLength, maxLength)
                 | EvSegmentArcLength _ _ _ => None
                 end) tr.

(** ** The scan of the point query as a function *)

Section Target.
Context {V T : Type} `{Floating T}.

(** Modelled from the spec: section 4.2, "repeatedly subtract each
    subsequent whole-segment length until the remaining desiredLength
    fits within a segment's full length (or the curve's segments are
    exhausted)".  From segment [bIndex] on, over [n] segments: the
    first segment whose length is not below the distance still wanted,
    with that distance; nothing when there is none. *)
Fixpoint scanStop (spline : Spline V T) (bIndex n : nat) (desiredLength : T)
  : option (nat * T) :=
  match n with
  | O => None
  | S n' =>
      let bLength := segmentArcLength spline bIndex fzero fone in
      if flt bLength desiredLength
      then scanStop spline (S bIndex) n' (fsub desiredLength bLength)
      else Some (bIndex, desiredLength)
  end.

(** Modelled from the spec: section 4.2, where the point query searches.
    If the distance is not above the length from [a] to the end of its
    segment, in that segment from the local fraction of [a]; otherwise,
    with that length subtracted, in the segment the scan stops at, from
    fraction 0.  The result is the segment, the distance still wanted
    there, the length the segment has from the starting fraction, and
    the starting fraction; nothing when the scan exhausts the
    segments. *)
Definition solveTarget (spline : Spline V T) (a desiredLength : T)
  : option (nat * T * T * T) :=
  let aIndex := segmentForT spline a in
  let aPercent := fdiv (fsub a (segmentT spline aIndex))
                    (fsub (segmentT spline (aIndex + 1)) (segmentT spline aIndex)) in
  let aLength := segmentArcLength spline aIndex aPercent fone in
  if flt aLength desiredLength then
    match scanStop spline (S aIndex) (segmentCount spline - S aIndex)
            (fsub desiredLength aLength) with
    | Some (bIndex, desiredLength) =>
        Some (bIndex, desiredLength, segmentArcLength spline bIndex fzero fone, fzero)
    | None => None
    end
  else Some (aIndex, desiredLength, aLength, aPercent).

End Target.

(** ** Measuring a curve in exact arithmetic *)

Section Measure.
Context {V : Type}.
Local Open Scope Q_scope.

(** Arc length of the segments before segment [i]. *)
Fixpoint lengthBefore (s : Spline V Q) (i : nat) : Q :=
  match i with
  | O => 0
  | S j => lengthBefore s j + segmentArcLength s j 0 1
  end.

Definition totalArcLength (s : Spline V Q) : Q := lengthBefore s (segmentCount s).

(** Arc length from the start of the curve to fraction [p] of segment [i]. *)
Definition lengthAt (s : Spline V Q) (i : nat) (p : Q) : Q :=
  lengthBefore s i + segmentArcLength s i 0 p.

(** The local fraction of the global parameter [t] in segment [i], as
    [solveLength] computes [aPercent]. *)
Definition localPercent (s : Spline V Q) (i : nat) (t : Q) : Q :=
  (t - segmentT s i) / (segmentT s (i + 1) - segmentT s i).

(** The global parameter of fraction [p] of segment [i], as the engine
    computes its results. *)
Definition globalT (s : Spline V Q) (i : nat) (p : Q) : Q :=
  segmentT s i + p * (segmentT s (i + 1) - segmentT s i).

(** Modelled from the spec: the arc length the curve has between two
    parameters (section 8) is not computed in [arclength.h]; it is taken
    here from the segment lengths of section 6, which add up.  Arc length
    from the start of the curve to the global parameter [t]: *)
Definition arcLengthTo (s : Spline V Q) (t : Q) : Q :=
  let i := segmentForT s t in
  lengthAt s i (localPercent s i t).

(** Arc length of the curve between the global parameters [a] and [b]. *)
Definition arcLength (s : Spline V Q) (a b : Q) : Q :=
  arcLengthTo s b - arcLengthTo s a.

(** Arc length remaining from [a] to the end of the curve. *)
Definition remainingLength (s : Spline V Q) (a : Q) : Q :=
  totalArcLength s - arcLengthTo s a.


(** The global parameter [t] is a point of the curve, at arc length [l]
    from its start. *)
Definition located (s : Spline V Q) (t l : Q) : Prop :=
  exists i p, (i < segmentCount s)%nat /\ 0 <= p /\ p <= 1 /\
    t == globalT s i p /\ l == lengthAt s i p.

(** [k] times a length, with [k] converted as in [totalArcLength / n]. *)
Definition times (k : nat) (l : Q) : Q := inject_Z (Z.of_nat k) * l.

(** Modelled from the spec: the spline classes are not in
    [arclength.h]; sections 3, 6 and 7 state what the engine assumes of
    them.  A well-formed curve has at least one segment, knots that
    partition [[0, maxT]] contiguously and increasingly, [segmentForT]
    the index of the half-open knot interval (the last one closed), and
    arc lengths that are non-negative and additive. *)
Record WellFormed (s : Spline V Q) : Prop := {
  wf_segments : (0 < segmentCount s)%nat;
  wf_first : segmentT s 0 == 0;
  wf_last : getMaxT s == segmentT s (segmentCount s);
  wf_knots : forall i, (i < segmentCount s)%nat -> segmentT s i < segmentT s (i + 1);
  wf_segmentForT : forall t i, (i < segmentCount s)%nat ->
    segmentT s i <= t -> t < segmentT s (i + 1) -> segmentForT s t = i;
  wf_segmentForT_end : forall t,
    segmentT s (segmentCount s) <= t -> segmentForT s t = (segmentCount s - 1)%nat;
  wf_proper : forall i p p' q q',
    p == p' -> q == q' -> segmentArcLength s i p q == segmentArcLength s i p' q';
  wf_additive : forall i p q r, (i < segmentCount s)%nat ->
    0 <= p -> p <= q -> q <= r -> r <= 1 ->
    segmentArcLength s i p r == segmentArcLength s i p q + segmentArcLength s i q r;
  wf_nonneg : forall i p q, (i < segmentCount s)%nat ->
    0 <= p -> p <= q -> q <= 1 -> 0 <= segmentArcLength s i p q
}.

(** Modelled from the spec: the non-degenerate tangents of section 4.1.
    No stretch of the curve has length zero. *)
Definition NonDegenerate (s : Spline V Q) : Prop :=
  forall i p q, (i < segmentCount s)%nat ->
    0 <= p -> p < q -> q <= 1 -> 0 < segmentArcLength s i p q.

(** Modelled from the spec: the iteration of section 4.1 is bracketed.
    The root finder of Boost, started inside [[min, max]], answers
    inside [[min, max]]. *)
Definition BracketedFinder `{RootFinder Q} : Prop :=
  forall f guess lo hi n,
    lo <= guess -> guess <= hi ->
    lo <= halley_iterate f guess lo hi n /\ halley_iterate f guess lo hi n <= hi.

(** The inter-piece state [c] stands near arc length [l]: the remainder
    of its segment is what the table of lengths leaves beyond [l], and
    the fraction [previousPercent] of segment [aIndex] is at an arc
    length within [e] of [l]. *)
Definition cursorNear (s : Spline V Q) (c : @ArcLength.cursor Q) (l e : Q) : Prop :=
  (ArcLength.aIndex c < segmentCount s)%nat /\
  0 <= ArcLength.previousPercent c /\ ArcLength.previousPercent c <= 1 /\
  0 <= ArcLength.segmentRemainder c /\
  ArcLength.segmentRemainder c == lengthBefore s (S (ArcLength.aIndex c)) - l /\
  l - e <= lengthAt s (ArcLength.aIndex c) (ArcLength.previousPercent c) /\
  lengthAt s (ArcLength.aIndex c) (ArcLength.previousPercent c) <= l + e.

(** Modelled from the spec: the curves "with continuous tangents" of
    section 4.1.  The speed along every segment, per unit of local
    fraction, is at most [K]. *)
Definition SpeedBound (s : Spline V Q) (K : Q) : Prop :=
  forall i p q, (i < segmentCount s)%nat ->
    0 <= p -> p <= q -> q <= 1 -> segmentArcLength s i p q <= K * (q - p).

(** Modelled from the spec: [boost::math::tools::halley_iterate] is not
    in the repository; section 4.1 has its iteration bracketed and
    converging "within floating-point tolerance".  The contract is on
    the root finder alone, for whatever objective it is given: asked
    for at least [digits] binary digits, started from a guess inside a
    bracket [[lo, hi]] no wider than 1, on an objective whose value is
    not positive at [lo], does not decrease over the bracket and grows
    no faster than [K], it answers a point of the bracket where the
    value is at most [tol] above zero, and at most [tol] below zero or,
    when the value is negative on the whole bracket, below the value at
    [hi].  The derivatives the objective returns are not constrained. *)
Definition ConvergentFinder `{RootFinder Q} (K tol : Q) (digits : Z) : Prop :=
  forall f guess lo hi n,
    (digits <= n)%Z ->
    lo <= guess -> guess <= hi -> hi - lo <= 1 ->
    fst (fst (f lo)) <= 0 ->
    (forall x y, lo <= x -> x <= y -> y <= hi ->
       0 <= fst (fst (f y)) - fst (fst (f x)) /\
       fst (fst (f y)) - fst (fst (f x)) <= K * (y - x)) ->
    lo <= halley_iterate f guess lo hi n /\
    halley_iterate f guess lo hi n <= hi /\
    fst (fst (f (halley_iterate f guess lo hi n))) <= tol /\
    (0 <= fst (fst (f hi)) ->
       - tol <= fst (fst (f (halley_iterate f guess lo hi n)))) /\
    (fst (fst (f hi)) <= 0 ->
       fst (fst (f hi)) - tol <= fst (fst (f (halley_iterate f guess lo hi n)))).

(** A root finder that gives back its first guess when the objective
    vanishes there.  Boost is not in the repository; this is an
    assumption on [halley_iterate], which the stand-in [newton_finder]
    meets. *)
Definition StopsAtRoot `{RootFinder Q} : Prop :=
  forall f guess lo hi n,
    fst (fst (f guess)) == 0 -> halley_iterate f guess lo hi n = guess.

End Measure.

(** ** Concrete curves *)

(** The scenarios of the specification: a straight line of length 10
    over [[0, 1]], and two segments of lengths 3 and 7 over [[0, 2]]. *)
Definition line10 : Spline Q Q := polyline [10%Q].
Definition two_segments : Spline Q Q := polyline [3%Q; 7%Q].

(** A curve of two bent segments, of arc lengths 3 and 7. *)
Definition two_arcs : Spline Q Q := arcs [3%Q; 7%Q].

(** Unfold the arithmetic of the exact instance. *)
Ltac unfloat :=
  cbn [fzero fone fadd fsub fmul fdiv flt of_size_t to_size_t digits Q_floating] in *.

(** * Properties *)

(** ** Runs: values and traces *)

Section Runs.
Context {T : Type}.

Lemma value_bind {A B} (m : M T A) (k : A -> M T B) :
  value (bind m k) =
  match value m with
  | Done a => value (k a)
  | OutOfRange => OutOfRange
  | OutOfFuel => OutOfFuel
  end.
Proof. unfold value, bind. destruct m as [t []]; reflexivity. Qed.

Lemma trace_bind {A B} (m : M T A) (k : A -> M T B) :
  trace (bind m k) =
  trace m ++ match value m with Done a => trace (k a) | _ => [] end.
Proof.
  unfold trace, value, bind.
  destruct m as [t []]; simpl; try reflexivity; symmetry; apply app_nil_r.
Qed.

Lemma bind_done {A B} (m : M T A) (k : A -> M T B) t a :
  m = (t, Done a) -> bind m k = (t ++ trace (k a), value (k a)).
Proof. intros ->. reflexivity. Qed.

Lemma bind_pair {A B} (t : list (event T)) (a : A) (k : A -> M T B) :
  bind (t, Done a) k = (t ++ fst (k a), snd (k a)).
Proof. reflexivity. Qed.

Lemma bind_ret_l {A B} (a : A) (k : A -> M T B) : bind (ret a) k = k a.
Proof. unfold bind, ret. simpl. destruct (k a); reflexivity. Qed.

Lemma run_eta {A} (m : M T A) : m = (trace m, value m).
Proof. destruct m; reflexivity. Qed.

Lemma solveIndices_app (t1 t2 : list (event T)) :
  solveIndices (t1 ++ t2) = solveIndices t1 ++ solveIndices t2.
Proof. apply omap_app. Qed.

Lemma measuredIndices_app (t1 t2 : list (event T)) :
  measuredIndices (t1 ++ t2) = measuredIndices t1 ++ measuredIndices t2.
Proof. apply omap_app. Qed.

Lemma solveCalls_app (t1 t2 : list (event T)) :
  solveCalls (t1 ++ t2) = solveCalls t1 + solveCalls t2.
Proof. unfold solveCalls. rewrite solveIndices_app. apply length_app. Qed.

Lemma measureCalls_app i (t1 t2 : list (event T)) :
  measureCalls i (t1 ++ t2) = measureCalls i t1 + measureCalls i t2.
Proof.
  unfold measureCalls. rewrite measuredIndices_app, filter_app. apply length_app.
Qed.
End Runs.

Section Table.
Context {V T : Type} `{Floating T} `{Interpolation V T} `{RootFinder T}.
Local Open Scope fl_scope.

Lemma measureSegment_run (spline : Spline V T) i total (table : list T) :
  ArcLength.measureSegment spline i (total, table) =
  ([EvSegmentArcLength i fzero fone],
   Done (total + segmentArcLength spline i fzero fone,
         <[i := segmentArcLength spline i fzero fone]> table)).
Proof. reflexivity. Qed.

Lemma measure_loop (spline : Spline V T) n : forall i total pre,
  length pre = i ->
  for_loop n i (ArcLength.measureSegment spline) (total, pre ++ replicate n fzero) =
  (map (fun j => EvSegmentArcLength j fzero fone) (seq i n),
   Done (fold_left (fun acc j => acc + segmentArcLength spline j fzero fone) (seq i n) total,
         pre ++ map (fun j => segmentArcLength spline j fzero fone) (seq i n))).
Proof.
  induction n as [|n IH]; intros i total pre Hlen.
  - reflexivity.
  - cbn [for_loop]. rewrite measureSegment_run.
    unfold bind at 1; cbn [fst snd replicate].
    rewrite insert_app_r_alt by lia. rewrite Hlen, Nat.sub_diag. cbn [insert list_insert].
    rewrite (cons_middle _ pre), app_assoc.
    rewrite (IH (S i)) by (rewrite length_app; simpl; lia).
    cbn [fst snd seq map fold_left]. rewrite <- app_assoc. reflexivity.
Qed.

(** The table of segment lengths and their total, as the first loop of
    both partitions leaves them. *)
Lemma measureSegments_run (spline : Spline V T) :
  ArcLength.measureSegments spline =
  (map (fun j => EvSegmentArcLength j fzero fone) (seq 0 (segmentCount spline)),
   Done (lengthTotal spline, lengthTable spline)).
Proof.
  unfold ArcLength.measureSegments.
  apply (measure_loop spline (segmentCount spline) 0 fzero []). reflexivity.
Qed.
End Table.

Section Pieces.
Context {V T : Type} `{Floating T} `{Interpolation V T} `{RootFinder T}.
Local Open Scope fl_scope.

Lemma scanTable_ge fuel (table : list T) : forall b r d b' r' d',
  ArcLength.scanTable fuel table b r d = Done (b', r', d') -> b <= b'.
Proof.
  induction fuel as [|fuel IH]; intros b r d b' r' d'; simpl;
    destruct (r <? d); try (intros [= <- <- <-]; lia);
    destruct (read table (S b)); try discriminate.
  intros Hs. apply IH in Hs. lia.
Qed.

Lemma scanTable_fuel fuel (table : list T) : forall b r d,
  length table <= fuel + S b ->
  ArcLength.scanTable fuel table b r d <> OutOfFuel.
Proof.
  induction fuel as [|fuel IH]; intros b r d Hf; simpl;
    destruct (r <? d); try discriminate;
    unfold read; destruct (table !! S b) as [x|] eqn:Hx; try discriminate.
  - apply lookup_lt_Some in Hx. lia.
  - apply IH. lia.
Qed.

Lemma solvePiece_run (spline : Spline V T) table lpp i pieces c :
  ArcLength.solvePiece spline table lpp i (pieces, c) =
  match ArcLength.scanTable (length table) table (ArcLength.aIndex c)
          (ArcLength.segmentRemainder c) lpp with
  | Done (b, r, d) =>
      let aP := if (ArcLength.aIndex c =? b)%nat then ArcLength.previousPercent c else fzero in
      let bP := ArcLengthSolvePrivate.solveSegment spline b d r aP in
      ([EvSolveSegment b d r aP],
       Done (<[i := segmentT spline b + bP * (segmentT spline (b + 1) - segmentT spline b)]> pieces,
             {| ArcLength.segmentRemainder := r - d;
                ArcLength.previousPercent := bP;
                ArcLength.aIndex := b |}))
  | OutOfRange => ([], OutOfRange)
  | OutOfFuel => ([], OutOfFuel)
  end.
Proof.
  unfold ArcLength.solvePiece.
  destruct (ArcLength.scanTable _ _ _ _ _) as [[[b r] d]| |]; reflexivity.
Qed.

Lemma pieces_loop_trace (spline : Spline V T) table lpp n : forall i pieces c,
  let r := for_loop n i (ArcLength.solvePiece spline table lpp) (pieces, c) in
  StronglySorted le (solveIndices (trace r)) /\
  Forall (le (ArcLength.aIndex c)) (solveIndices (trace r)) /\
  measuredIndices (trace r) = [] /\
  solveCalls (trace r) <= n /\
  (forall st, value r = Done st -> solveCalls (trace r) = n /\ length st.1 = length pieces) /\
  value r <> OutOfFuel.
Proof.
  induction n as [|n IH]; intros i pieces c r; subst r.
  - cbn. split; [constructor|]. split; [constructor|]. split; [reflexivity|].
    split; [constructor|]. split; [|discriminate].
    intros st [= <-]. split; reflexivity.
  - cbn [for_loop]. rewrite solvePiece_run.
    pose proof (scanTable_fuel (length table) table (ArcLength.aIndex c)
                  (ArcLength.segmentRemainder c) lpp ltac:(lia)) as Hfuel.
    destruct (ArcLength.scanTable _ _ _ _ _) as [[[b r] d]| |] eqn:Hs.
    + apply scanTable_ge in Hs. cbn zeta.
      rewrite !trace_bind, !value_bind. cbn [trace value fst snd].
      match goal with |- context [for_loop n (S i) _ (?p, ?c')] =>
        specialize (IH (S i) p c') end.
      cbn zeta in IH. destruct IH as (IH1 & IH2 & IH3 & IH4 & IH5 & IH6).
      cbn [trace value fst snd] in *.
      cbn [ArcLength.aIndex] in IH2.
      split; [|split; [|split; [|split; [|split]]]].
      * cbn. constructor; assumption.
      * cbn. constructor; [assumption|].
        eapply Forall_impl; [exact IH2|]. intros x Hx. exact (Nat.le_trans _ _ _ Hs Hx).
      * cbn. assumption.
      * rewrite solveCalls_app. unfold solveCalls at 1. simpl length. lia.
      * intros st Hst. destruct (IH5 _ Hst) as [Hn Hl]. split.
        -- rewrite solveCalls_app. unfold solveCalls at 1. simpl length. lia.
        -- rewrite Hl. apply length_insert.
      * assumption.
    + cbn. split; [constructor|]. split; [constructor|]. split; [reflexivity|].
      split; [unfold solveCalls; simpl; lia|]. split; discriminate.
    + congruence.
Qed.
End Pieces.

Section Partitions.
Context {V T : Type} `{Floating T} `{Interpolation V T} `{RootFinder T}.
Local Open Scope fl_scope.

Lemma partition_run (spline : Spline V T) (lpp : T) :
  ArcLength.partition spline lpp =
  let pieces := replicate (to_size_t (lengthTotal spline / lpp) + 1) fzero in
  let loop r := for_loop (length pieces - 1) 1
                  (ArcLength.solvePiece spline (lengthTable spline) lpp) (pieces, cursor0 r) in
  (map (fun j => EvSegmentArcLength j fzero fone) (seq 0 (segmentCount spline)) ++
   match read (lengthTable spline) 0 with
   | Done r => trace (loop r)
   | _ => []
   end,
   match read (lengthTable spline) 0 with
   | Done r => match value (loop r) with
               | Done st => Done st.1
               | OutOfRange => OutOfRange
               | OutOfFuel => OutOfFuel
               end
   | OutOfRange => OutOfRange
   | OutOfFuel => OutOfFuel
   end).
Proof.
  unfold ArcLength.partition. rewrite measureSegments_run.
  cbn zeta. rewrite (run_eta (bind _ _)). rewrite trace_bind, value_bind.
  cbn [trace value fst snd].
  rewrite trace_bind, value_bind. change (value (lift ?o)) with o.
  change (trace (@lift T _ ?o)) with (@nil (event T)). cbn [app].
  unfold cursor0.
  destruct (read _ 0) as [r| |]; try reflexivity.
  rewrite trace_bind, value_bind.
  destruct (value _) as [[p c]| |]; cbn; rewrite ?app_nil_r; reflexivity.
Qed.

Lemma partitionN_run (spline : Spline V T) (n : nat) :
  ArcLength.partitionN spline n =
  let lpp := lengthTotal spline / of_size_t n in
  let pieces := <[n := getMaxT spline]> (<[0 := fzero]> (replicate (n + 1) fzero)) in
  let loop r := for_loop (n - 1) 1
                  (ArcLength.solvePiece spline (lengthTable spline) lpp) (pieces, cursor0 r) in
  (map (fun j => EvSegmentArcLength j fzero fone) (seq 0 (segmentCount spline)) ++
   match read (lengthTable spline) 0 with
   | Done r => trace (loop r)
   | _ => []
   end,
   match read (lengthTable spline) 0 with
   | Done r => match value (loop r) with
               | Done st => Done st.1
               | OutOfRange => OutOfRange
               | OutOfFuel => OutOfFuel
               end
   | OutOfRange => OutOfRange
   | OutOfFuel => OutOfFuel
   end).
Proof.
  unfold ArcLength.partitionN. rewrite measureSegments_run.
  cbn zeta. rewrite (run_eta (bind _ _)). rewrite trace_bind, value_bind.
  cbn [trace value fst snd].
  rewrite trace_bind, value_bind. change (value (lift ?o)) with o.
  change (trace (@lift T _ ?o)) with (@nil (event T)). cbn [app].
  unfold cursor0.
  destruct (read _ 0) as [r| |]; try reflexivity.
  rewrite trace_bind, value_bind.
  destruct (value _) as [[p c]| |]; cbn; rewrite ?app_nil_r; reflexivity.
Qed.
End Partitions.

Section Shape.
Context {V T : Type} `{Floating T} `{Interpolation V T} `{RootFinder T}.
Local Open Scope fl_scope.

(** The piece loop writes the slots [i .. i + n - 1] and no other. *)
Lemma pieces_loop_frame (spline : Spline V T) table lpp n : forall i pieces c st,
  value (for_loop n i (ArcLength.solvePiece spline table lpp) (pieces, c)) = Done st ->
  length st.1 = length pieces /\
  forall j, (j < i \/ i + n <= j)%nat -> st.1 !! j = pieces !! j.
Proof.
  induction n as [|n IH]; intros i pieces c st.
  - cbn. intros [= <-]. split; reflexivity.
  - cbn [for_loop]. rewrite value_bind, solvePiece_run.
    destruct (ArcLength.scanTable _ _ _ _ _) as [[[b r] d]| |]; try discriminate.
    cbn zeta. cbn [value snd]. intros Hst.
    destruct (IH _ _ _ _ Hst) as [Hlen Hsame]. split.
    + rewrite Hlen. apply length_insert.
    + intros j Hj. rewrite Hsame by lia. apply list_lookup_insert_ne. lia.
Qed.

(** When [partition] returns, it returns [size_t(totalArcLength /
    lengthPerPiece) + 1] boundaries, the first as the vector was
    initialised. *)
Lemma partition_shape (spline : Spline V T) (lengthPerPiece : T) pieces :
  value (ArcLength.partition spline lengthPerPiece) = Done pieces ->
  length pieces = (to_size_t (fdiv (lengthTotal spline) lengthPerPiece) + 1)%nat /\
  pieces !! 0%nat = Some fzero.
Proof.
  rewrite partition_run. cbn zeta. cbn [value snd].
  destruct (read _ 0) as [r| |]; try discriminate.
  destruct (value _) as [st| |] eqn:Hst; try discriminate.
  intros [= <-]. apply pieces_loop_frame in Hst as [Hlen Hsame].
  rewrite length_replicate in Hlen. split; [exact Hlen|].
  rewrite Hsame by lia. apply lookup_replicate_2. lia.
Qed.

(** When [partitionN] returns for [n >= 1], it returns [n + 1]
    boundaries, the first 0 and the last [getMaxT], as written before
    the piece loop. *)
Lemma partitionN_shape (spline : Spline V T) (n : nat) pieces :
  (1 <= n)%nat ->
  value (ArcLength.partitionN spline n) = Done pieces ->
  length pieces = (n + 1)%nat /\
  pieces !! 0%nat = Some fzero /\
  pieces !! n = Some (getMaxT spline).
Proof.
  intros Hn. rewrite partitionN_run. cbn zeta. cbn [value snd].
  destruct (read _ 0) as [r| |]; try discriminate.
  destruct (value _) as [st| |] eqn:Hst; try discriminate.
  intros [= <-]. apply pieces_loop_frame in Hst as [Hlen Hsame].
  rewrite !length_insert, length_replicate in Hlen.
  split; [exact Hlen|]. split.
  - rewrite Hsame by lia. rewrite list_lookup_insert_ne by lia.
    apply list_lookup_insert_eq. rewrite length_replicate. lia.
  - rewrite Hsame by lia.
    apply list_lookup_insert_eq. rewrite length_insert, length_replicate. lia.
Qed.

End Shape.

Section ScanOrder.
Context {V T : Type} `{Floating T} `{Interpolation V T} `{RootFinder T}.
Local Open Scope fl_scope.

Lemma measured_table (n : nat) :
  measuredIndices (map (fun j => @EvSegmentArcLength T j fzero fone) (seq 0 n)) = seq 0 n /\
  solveIndices (map (fun j => @EvSegmentArcLength T j fzero fone) (seq 0 n)) = [] /\
  Forall fullRange (map (fun j => @EvSegmentArcLength T j fzero fone) (seq 0 n)).
Proof.
  generalize 0. induction n as [|n IH]; intros a; simpl.
  - repeat split; constructor.
  - destruct (IH (S a)) as (-> & -> & IHf). repeat split; try reflexivity.
    constructor; [split; reflexivity | assumption].
Qed.

Lemma count_in_seq (i n : nat) : forall a,
  length (filter (fun j => j = i) (seq a n)) =
  if decide (a <= i < a + n) then 1 else 0.
Proof.
  induction n as [|n IH]; intros a; simpl.
  - destruct (decide _); [lia | reflexivity].
  - rewrite filter_cons. destruct (decide (a = i)) as [->|Hne]; simpl; rewrite IH;
      repeat destruct (decide _); lia.
Qed.

(** The trace of a partition: the table pass, then solver calls only. *)
Lemma partition_trace_shape (tr0 tr : list (event T)) (n : nat) :
  tr0 = map (fun j => EvSegmentArcLength j fzero fone) (seq 0 n) ->
  measuredIndices tr = [] ->
  (forall i, i < n -> measureCalls i (tr0 ++ tr) = 1) /\
  solveIndices (tr0 ++ tr) = solveIndices tr.
Proof.
  intros -> Hm. destruct (measured_table n) as (Hmi & Hsi & _). split.
  - intros i Hi. unfold measureCalls. rewrite measuredIndices_app, Hmi, Hm, app_nil_r.
    rewrite count_in_seq. destruct (decide _); [reflexivity | lia].
  - rewrite solveIndices_app, Hsi. reflexivity.
Qed.

Lemma measured_nil_fullRange (tr : list (event T)) :
  measuredIndices tr = [] -> Forall fullRange tr.
Proof.
  induction tr as [|[i a b|i d m a] tr IH]; simpl; intros Hm.
  - constructor.
  - discriminate.
  - constructor; [exact I | auto].
Qed.

(** What every run of the piece loop after the table pass looks like. *)
Lemma scan_order (spline : Spline V T) (lpp : T) (n : nat) (pieces : list T) :
  let tr0 := map (fun j => @EvSegmentArcLength T j fzero fone) (seq 0 (segmentCount spline)) in
  let tr := match read (lengthTable spline) 0 with
            | Done r => trace (for_loop n 1
                         (ArcLength.solvePiece spline (lengthTable spline) lpp)
                         (pieces, cursor0 r))
            | _ => []
            end in
  StronglySorted le (solveIndices (tr0 ++ tr)) /\
  (forall i, i < segmentCount spline -> measureCalls i (tr0 ++ tr) = 1) /\
  Forall fullRange (tr0 ++ tr).
Proof.
  intros tr0 tr.
  assert (Htr : StronglySorted le (solveIndices tr) /\ measuredIndices tr = []).
  { subst tr. destruct (read _ 0) as [r| |]; try (split; [constructor | reflexivity]).
    pose proof (pieces_loop_trace spline (lengthTable spline) lpp n 1 pieces (cursor0 r))
      as (Hs & _ & Hm & _). split; assumption. }
  destruct Htr as [Hs Hm].
  destruct (partition_trace_shape tr0 tr (segmentCount spline) eq_refl Hm) as [Hc Hi].
  split; [rewrite Hi; exact Hs|]. split; [exact Hc|].
  apply Forall_app. split.
  - apply measured_table.
  - apply measured_nil_fullRange, Hm.
Qed.

End ScanOrder.

(** C9.  Across one call of [partition], and likewise of [partitionN],
    the segment index only moves forward: the segments on which the
    solver is called, in call order, form a non-decreasing sequence.  And
    the engine asks for the arc length of each segment exactly once, over
    its full range [(0, 1)], however many boundaries fall inside the
    segment.  This holds for every arithmetic, every root finder and
    every curve. *)
Theorem partition_index_monotone_lengths_once
    {V T : Type} `{Floating T} `{Interpolation V T} `{RootFinder T}
    (spline : Spline V T) (lengthPerPiece : T) (n : nat) :
  let tp := trace (ArcLength.partition spline lengthPerPiece) in
  let tn := trace (ArcLength.partitionN spline n) in
  (StronglySorted le (solveIndices tp) /\
   (forall i, i < segmentCount spline -> measureCalls i tp = 1) /\
   Forall fullRange tp) /\
  (StronglySorted le (solveIndices tn) /\
   (forall i, i < segmentCount spline -> measureCalls i tn = 1) /\
   Forall fullRange tn).
Proof.
  intros tp tn. subst tp tn. rewrite partition_run, partitionN_run.
  cbn zeta. cbn [trace fst]. split; apply scan_order.
Qed.

Section PointQuery.
Context {V T : Type} `{Floating T} `{Interpolation V T} `{RootFinder T}.
Local Open Scope fl_scope.

Lemma callSegmentArcLength_run (spline : Spline V T) i a b :
  ArcLength.callSegmentArcLength spline i a b =
  ([EvSegmentArcLength i a b], Done (segmentArcLength spline i a b)).
Proof. reflexivity. Qed.

Lemma callSolveSegment_run (spline : Spline V T) i d m a :
  ArcLength.callSolveSegment spline i d m a =
  ([EvSolveSegment i d m a], Done (ArcLengthSolvePrivate.solveSegment spline i d m a)).
Proof. reflexivity. Qed.

(** The scan of [solveLength] ends within its budget, calls no solver,
    and moves the index forward. *)
Lemma scanSegments_run (spline : Spline V T) fuel : forall b bl d,
  segmentCount spline <= fuel + S b ->
  exists tr b' bl' d',
    ArcLength.scanSegments fuel spline b bl d = (tr, Done (b', bl', d')) /\
    solveIndices tr = [] /\ b < b'.
Proof.
  induction fuel as [|fuel IH]; intros b bl d Hf; cbn [ArcLength.scanSegments];
    destruct (S b <? segmentCount spline)%nat eqn:Hc.
  - apply Nat.ltb_lt in Hc. lia.
  - exists [], (S b), bl, d. repeat split; lia.
  - rewrite callSegmentArcLength_run. unfold bind at 1. cbn [fst snd].
    destruct (_ <? _).
    + destruct (IH (S b) (segmentArcLength spline (S b) fzero fone)
                  (d - segmentArcLength spline (S b) fzero fone) ltac:(lia))
        as (tr & b' & bl' & d' & -> & Htr & Hb).
      eexists _, b', bl', d'. cbn [fst snd]. split; [reflexivity|].
      split; [cbn; exact Htr | lia].
    + eexists _, (S b), _, d. cbn. repeat split; lia.
  - exists [], (S b), bl, d. repeat split; lia.
Qed.

(** One run of [solveLength], read off its text: the first measurement,
    the scan if it is needed, then the clamp or the solver call. *)
Lemma solveLength_run (spline : Spline V T) (a d : T) :
  let aIndex := segmentForT spline a in
  let aPercent := (a - segmentT spline aIndex) /
                  (segmentT spline (aIndex + 1) - segmentT spline aIndex) in
  let aLength := segmentArcLength spline aIndex aPercent fone in
  exists tr aP b bl dl,
    (if aLength <? d
     then ArcLength.scanSegments (segmentCount spline) spline aIndex aLength (d - aLength)
          = (tr, Done (b, bl, dl)) /\ aP = fzero
     else tr = [] /\ aP = aPercent /\ b = aIndex /\ bl = aLength /\ dl = d) /\
    solveIndices tr = [] /\
    ArcLength.solveLength spline a d =
    if (b =? segmentCount spline)%nat
    then (EvSegmentArcLength aIndex aPercent fone :: tr, Done (getMaxT spline))
    else (EvSegmentArcLength aIndex aPercent fone :: tr ++ [EvSolveSegment b dl bl aP],
          Done (segmentT spline b +
                ArcLengthSolvePrivate.solveSegment spline b dl bl aP *
                (segmentT spline (b + 1) - segmentT spline b))).
Proof.
  intros aIndex aPercent aLength. unfold ArcLength.solveLength.
  fold aIndex. fold aPercent. rewrite callSegmentArcLength_run. fold aLength.
  rewrite bind_pair.
  destruct (aLength <? d).
  - destruct (scanSegments_run spline (segmentCount spline) aIndex aLength
                (d - aLength) ltac:(lia)) as (tr & b & bl & dl & Hscan & Htr & Hb).
    exists tr, fzero, b, bl, dl. split; [split; [exact Hscan | reflexivity]|].
    split; [exact Htr|]. rewrite Hscan.
    rewrite bind_pair. cbn [ret fst snd]. rewrite bind_pair.
    cbv beta iota. rewrite !app_nil_r.
    destruct (b =? segmentCount spline)%nat; [cbn; rewrite app_nil_r; reflexivity|].
    rewrite callSolveSegment_run, bind_pair. reflexivity.
  - exists [], aPercent, aIndex, aLength, d. split; [repeat split|].
    split; [reflexivity|].
    rewrite bind_ret_l. cbv beta iota.
    destruct (aIndex =? segmentCount spline)%nat; [reflexivity|].
    rewrite callSolveSegment_run, bind_pair. reflexivity.
Qed.

End PointQuery.

(** ** Where the point query searches *)

Section TargetRuns.
Context {V T : Type} `{Floating T} `{Interpolation V T} `{RootFinder T}.

(** The scan of [solveLength] stops where [scanStop] says. *)
Lemma scanSegments_scanStop (spline : Spline V T) n : forall fuel b0 bl0 d0 tr b bl dl,
  S b0 + n = segmentCount spline -> n <= fuel ->
  ArcLength.scanSegments fuel spline b0 bl0 d0 = (tr, Done (b, bl, dl)) ->
  match scanStop spline (S b0) n d0 with
  | Some (b', dl') =>
      b = b' /\ dl = dl' /\ bl = segmentArcLength spline b fzero fone /\
      b < segmentCount spline /\ flt bl dl = false
  | None => b = segmentCount spline
  end.
Proof.
  induction n as [|n IH]; intros fuel b0 bl0 d0 tr b bl dl Hn Hf.
  - destruct fuel; cbn [ArcLength.scanSegments scanStop];
      (assert ((S b0 <? segmentCount spline)%nat = false) as -> by (apply Nat.ltb_ge; lia));
      intros [= <- <- <- <-]; lia.
  - destruct fuel as [|fuel]; [lia|]. cbn [ArcLength.scanSegments scanStop].
    assert ((S b0 <? segmentCount spline)%nat = true) as -> by (apply Nat.ltb_lt; lia).
    rewrite callSegmentArcLength_run, bind_pair.
    destruct (flt (segmentArcLength spline (S b0) fzero fone) d0) eqn:Hlt.
    + destruct (ArcLength.scanSegments fuel spline (S b0) _ _)
        as [tr' [[[b' bl'] dl']| |]] eqn:Hscan; cbn [fst snd]; try discriminate.
      intros [= <- <- <- <-].
      exact (IH fuel (S b0) _ _ _ _ _ _ ltac:(lia) ltac:(lia) Hscan).
    + cbn [fst snd ret]. intros [= <- <- <- <-].
      repeat split; try lia; assumption.
Qed.

(** One run of [solveLength] against [solveTarget]: no solver call and
    [getMaxT] when there is no target, one solver call on the target
    otherwise. *)
Lemma solveLength_target (spline : Spline V T) (a d : T) :
  segmentForT spline a < segmentCount spline ->
  let r := ArcLength.solveLength spline a d in
  match solveTarget spline a d with
  | None => solveIndices (trace r) = [] /\ value r = Done (getMaxT spline)
  | Some (b, dl, bl, aP) =>
      b < segmentCount spline /\ flt bl dl = false /\
      (exists tr0, trace r = tr0 ++ [EvSolveSegment b dl bl aP] /\ solveIndices tr0 = []) /\
      value r = Done (fadd (segmentT spline b)
                        (fmul (ArcLengthSolvePrivate.solveSegment spline b dl bl aP)
                           (fsub (segmentT spline (b + 1)) (segmentT spline b))))
  end.
Proof.
  intros Ha r. subst r. unfold solveTarget.
  destruct (solveLength_run spline a d) as (tr & aP & b & bl & dl & Hscan & Htr & ->).
  set (aIndex := segmentForT spline a) in *.
  set (aPercent := fdiv _ _) in *. set (aLength := segmentArcLength _ _ _ _) in *.
  destruct (flt aLength d) eqn:Hlt.
  - destruct Hscan as [Hscan ->].
    pose proof (scanSegments_scanStop spline (segmentCount spline - S aIndex)
                  (segmentCount spline) aIndex _ _ _ _ _ _ ltac:(lia) ltac:(lia) Hscan) as Hstop.
    destruct (scanStop _ _ _ _) as [[b' dl']|].
    + destruct Hstop as (<- & <- & -> & Hb & Hfit).
      assert (Hne : (b =? segmentCount spline)%nat = false) by (apply Nat.eqb_neq; lia).
      rewrite Hne. cbn [trace value fst snd].
      split; [exact Hb|]. split; [exact Hfit|]. split; [|reflexivity].
      exists (EvSegmentArcLength aIndex aPercent fone :: tr). split; [reflexivity | exact Htr].
    + subst b. rewrite Nat.eqb_refl. cbn [trace value fst snd].
      split; [exact Htr | reflexivity].
  - destruct Hscan as (-> & -> & -> & -> & ->).
    assert (Hne : (aIndex =? segmentCount spline)%nat = false) by (apply Nat.eqb_neq; lia).
    rewrite Hne. cbn [trace value fst snd].
    split; [exact Ha|]. split; [exact Hlt|]. split; [|reflexivity].
    exists [EvSegmentArcLength aIndex aPercent fone]. split; reflexivity.
Qed.

End TargetRuns.

(** ** Exact arithmetic *)


Section Exact.
Context {V : Type} {IV : Interpolation V Q} {RF : RootFinder Q}.
Local Open Scope Q_scope.

Lemma Qlt_bool_true x y : Qlt_bool x y = true <-> x < y.
Proof.
  unfold Qlt_bool. rewrite negb_true_iff. split.
  - intros Hle. apply Qnot_le_lt. intros Hyx. apply Qle_bool_iff in Hyx. congruence.
  - intros Hlt. destruct (Qle_bool y x) eqn:E; [|reflexivity].
    apply Qle_bool_iff in E. lra.
Qed.

Lemma Qlt_bool_false x y : Qlt_bool x y = false <-> y <= x.
Proof.
  unfold Qlt_bool. rewrite negb_false_iff. apply Qle_bool_iff.
Qed.

Lemma lookup_map_seq {A} (f : nat -> A) n : forall a i,
  map f (seq a n) !! i = if (i <? n)%nat then Some (f (a + i)%nat) else None.
Proof.
  induction n as [|n IH]; intros a i; simpl.
  - reflexivity.
  - destruct i as [|i]; simpl.
    + rewrite Nat.add_0_r. reflexivity.
    + rewrite IH. replace (a + S i)%nat with (S a + i)%nat by lia.
      reflexivity.
Qed.

Lemma read_lengthTable (s : Spline V Q) i :
  read (lengthTable s) i =
  if (i <? segmentCount s)%nat then Done (segmentArcLength s i 0 1) else OutOfRange.
Proof.
  unfold read, lengthTable. rewrite lookup_map_seq.
  destruct (i <? segmentCount s)%nat; reflexivity.
Qed.

Lemma length_lengthTable (s : Spline V Q) : length (lengthTable s) = segmentCount s.
Proof. unfold lengthTable. rewrite length_map, length_seq. reflexivity. Qed.

Lemma lengthTotal_exact (s : Spline V Q) : lengthTotal s = totalArcLength s.
Proof.
  unfold lengthTotal, totalArcLength. unfloat.
  induction (segmentCount s) as [|n IH].
  - reflexivity.
  - rewrite seq_S, fold_left_app, IH. reflexivity.
Qed.

Lemma lengthBefore_S (s : Spline V Q) i :
  lengthBefore s (S i) = lengthBefore s i + segmentArcLength s i 0 1.
Proof. reflexivity. Qed.

Section Curve.
Variable s : Spline V Q.
Hypothesis wf : WellFormed s.

Local Abbreviation T := (segmentT s).
Local Abbreviation len := (segmentArcLength s).
Local Abbreviation count := (segmentCount s).

Lemma len_empty i p : (i < count)%nat -> 0 <= p -> p <= 1 -> len i p p == 0.
Proof.
  intros Hi H0 H1.
  pose proof (wf_additive s wf i p p p Hi H0 ltac:(lra) ltac:(lra) H1) as Ha.
  lra.
Qed.

Lemma len_split i p : (i < count)%nat -> 0 <= p -> p <= 1 ->
  len i 0 1 == len i 0 p + len i p 1.
Proof. intros Hi H0 H1. apply (wf_additive s wf); auto; lra. Qed.

Lemma len_mono i p q : (i < count)%nat -> 0 <= p -> p <= q -> q <= 1 ->
  len i 0 p <= len i 0 q.
Proof.
  intros Hi H0 Hpq H1.
  pose proof (wf_additive s wf i 0 p q Hi ltac:(lra) H0 Hpq H1) as Ha.
  pose proof (wf_nonneg s wf i p q Hi H0 Hpq H1) as Hn.
  lra.
Qed.

Lemma lengthBefore_mono i j : (i <= j)%nat -> (j <= count)%nat ->
  lengthBefore s i <= lengthBefore s j.
Proof.
  induction 1 as [|j Hij IH]; intros Hj.
  - lra.
  - rewrite lengthBefore_S.
    pose proof (wf_nonneg s wf j 0 1 ltac:(lia)
                  ltac:(lra) ltac:(lra) ltac:(lra)).
    specialize (IH ltac:(lia)). lra.
Qed.

Lemma lengthAt_bounds i p : (i < count)%nat -> 0 <= p -> p <= 1 ->
  lengthBefore s i <= lengthAt s i p /\ lengthAt s i p <= lengthBefore s (S i).
Proof.
  intros Hi H0 H1. unfold lengthAt. rewrite lengthBefore_S.
  pose proof (wf_nonneg s wf i 0 p Hi ltac:(lra) H0 H1).
  pose proof (len_mono i p 1 Hi H0 H1 ltac:(lra)).  lra.
Qed.

Lemma knots_mono i j : (i <= j)%nat -> (j <= count)%nat -> T i <= T j.
Proof.
  induction 1 as [|j Hij IH]; intros Hj.
  - lra.
  - pose proof (wf_knots s wf j ltac:(lia)) as Hk.
    rewrite Nat.add_1_r in Hk.  specialize (IH ltac:(lia)). lra.
Qed.

Lemma knot_search a n : (n <= count)%nat -> T 0 <= a -> a < T n ->
  exists i, (i < n)%nat /\ T i <= a /\ a < T (i + 1).
Proof.
  induction n as [|n IH]; intros Hn H0 Hlt.
  - lra.
  - destruct (Qlt_le_dec a (T n)) as [Hl|Hl].
    + destruct (IH ltac:(lia) H0 Hl) as (i & Hi & Hi1 & Hi2).
      exists i. repeat split; auto.
    + exists n. rewrite Nat.add_1_r. repeat split; auto.
Qed.

(** Where a parameter of the curve lies. *)
Lemma locate a : 0 <= a -> a <= getMaxT s ->
  let i := segmentForT s a in
  (i < count)%nat /\ T i <= a /\ a <= T (i + 1) /\
  (a < T (i + 1) \/ ((i + 1)%nat = count /\ a == T count)).
Proof.
  intros H0 Hmax. cbn zeta.
  pose proof (wf_first s wf) as Hf. pose proof (wf_last s wf) as Hl.
  pose proof (wf_segments s wf) as Hc.  
  destruct (Qlt_le_dec a (T count)) as [Hlt|Hge].
  - destruct (knot_search a count ltac:(lia) ltac:(lra) Hlt) as (i & Hi & Hi1 & Hi2).
    rewrite (wf_segmentForT s wf a i Hi Hi1 Hi2).
    repeat split; auto; try lra.
  - rewrite (wf_segmentForT_end s wf a Hge).
    replace (count - 1 + 1)%nat with count by lia.
    repeat split; try lia; try lra.
    + apply Qle_trans with (T count); [|lra].
      apply knots_mono; lia.
    + right. split; [reflexivity | lra].
Qed.

Lemma localPercent_bounds i a : T i < T (i + 1) -> T i <= a -> a <= T (i + 1) ->
  0 <= localPercent s i a /\ localPercent s i a <= 1.
Proof.
  intros Hk H0 H1. unfold localPercent.
  split.
  - apply Qle_shift_div_l; lra.
  - apply Qle_shift_div_r; lra.
Qed.

Lemma localPercent_globalT i p : T i < T (i + 1) ->
  localPercent s i (globalT s i p) == p.
Proof.
  intros Hk. unfold localPercent, globalT. field. lra.
Qed.

Lemma globalT_bounds i p : (i < count)%nat -> 0 <= p -> p <= 1 ->
  T i <= globalT s i p /\ globalT s i p <= T (i + 1).
Proof.
  intros Hi H0 H1. pose proof (wf_knots s wf i Hi) as Hk. 
  unfold globalT. split; nra.
Qed.

(** The arc length measured at a point the engine computes. *)
Lemma arcLengthTo_globalT i p : (i < count)%nat -> 0 <= p -> p <= 1 ->
  arcLengthTo s (globalT s i p) == lengthAt s i p.
Proof.
  intros Hi Hp0 Hp1.
  pose proof (wf_knots s wf i Hi) as Hk.
  pose proof (globalT_bounds i p Hi Hp0 Hp1) as [Hg0 Hg1].
  unfold arcLengthTo.
  destruct (Qlt_le_dec p 1) as [Hlt|Hge].
  - assert (Hg : globalT s i p < T (i + 1)) by (unfold globalT; nra).
    rewrite (wf_segmentForT s wf _ i Hi Hg0 Hg).
    unfold lengthAt. apply Qplus_comp; [reflexivity|].
    apply (wf_proper s wf); [reflexivity|]. apply localPercent_globalT, Hk.
  - assert (Hp : p == 1) by lra.
    assert (Hg : globalT s i p == T (i + 1)) by (unfold globalT; nra).
    destruct (decide (i + 1 < count)%nat) as [Hn|Hn].
    + pose proof (wf_knots s wf (i + 1)%nat Hn) as Hk'.
      rewrite (wf_segmentForT s wf (globalT s i p) (i + 1)%nat Hn
                 ltac:(lra) ltac:(lra)).
      assert (Hz : localPercent s (i + 1) (globalT s i p) == 0).
      { assert (Hx : globalT s i p - T (i + 1) == 0) by lra.
        unfold localPercent. rewrite Hx. unfold Qdiv. ring. }
      unfold lengthAt.
      rewrite (wf_proper s wf (i + 1) 0 0 _ 0 ltac:(reflexivity) Hz).
      rewrite (len_empty (i + 1) 0 ltac:(lia) ltac:(lra) ltac:(lra)).
      rewrite (wf_proper s wf i 0 0 p 1 ltac:(reflexivity) Hp).
      rewrite Nat.add_1_r, lengthBefore_S. lra.
    + assert (Hc : (i + 1)%nat = count) by lia.
      rewrite (wf_segmentForT_end s wf); [|rewrite <- Hc; lra].
      replace (count - 1)%nat with i by lia.
      unfold lengthAt. apply Qplus_comp; [reflexivity|].
      apply (wf_proper s wf); [reflexivity|]. apply localPercent_globalT, Hk.
Qed.

Lemma arcLengthTo_proper t t' : 0 <= t -> t <= getMaxT s -> t == t' ->
  arcLengthTo s t == arcLengthTo s t'.
Proof.
  intros Ht0 Ht1 Heq.
  destruct (locate t Ht0 Ht1) as (Hi & Hl & Hu & Hcase).
  assert (Hidx : segmentForT s t' = segmentForT s t).
  { destruct Hcase as [Hlt|[Hc Hend]].
    - apply (wf_segmentForT s wf); [exact Hi | lra | lra].
    - rewrite (wf_segmentForT_end s wf t') by lra. lia. }
  unfold arcLengthTo. rewrite Hidx. generalize (segmentForT s t). intros k.
  unfold lengthAt. apply Qplus_comp; [reflexivity|].
  apply (wf_proper s wf); [reflexivity|].
  unfold localPercent. rewrite Heq. reflexivity.
Qed.

Lemma located_arcLengthTo t l : located s t l -> arcLengthTo s t == l.
Proof.
  intros (i & p & Hi & Hp0 & Hp1 & Ht & Hl).
  pose proof (globalT_bounds i p Hi Hp0 Hp1) as [Hg0 Hg1].
  pose proof (knots_mono 0 i ltac:(lia) ltac:(lia)) as Hk0.
  pose proof (knots_mono (i + 1) count ltac:(lia) ltac:(lia)) as Hk1.
  pose proof (wf_first s wf) as Hf. pose proof (wf_last s wf) as Hla.
  rewrite <- (arcLengthTo_proper (globalT s i p) t) by lra.
  rewrite arcLengthTo_globalT by assumption. lra.
Qed.

Lemma located_start : located s 0 0.
Proof.
  pose proof (wf_first s wf) as Hf. pose proof (wf_segments s wf) as Hc.
  exists 0%nat, 0. repeat split; try lra; try lia.
  - unfold globalT. lra.
  - unfold lengthAt. simpl lengthBefore.
    rewrite (len_empty 0 0 Hc ltac:(lra) ltac:(lra)). lra.
Qed.

Lemma located_end : located s (getMaxT s) (totalArcLength s).
Proof.
  pose proof (wf_last s wf) as Hl. pose proof (wf_segments s wf) as Hc.
  exists (count - 1)%nat, 1. repeat split; try lra; try lia.
  - unfold globalT. replace (count - 1 + 1)%nat with count by lia. lra.
  - unfold lengthAt, totalArcLength.
    replace count with (S (count - 1)) at 1 by lia. rewrite lengthBefore_S. lra.
Qed.

Lemma located_bounds t l : located s t l ->
  0 <= t /\ t <= getMaxT s /\ 0 <= l /\ l <= totalArcLength s.
Proof.
  intros (i & p & Hi & Hp0 & Hp1 & Ht & Hl).
  pose proof (globalT_bounds i p Hi Hp0 Hp1) as [Hg0 Hg1].
  pose proof (knots_mono 0 i ltac:(lia) ltac:(lia)) as Hk0.
  pose proof (knots_mono (i + 1) count ltac:(lia) ltac:(lia)) as Hk1.
  pose proof (wf_first s wf) as Hf. pose proof (wf_last s wf) as Hla.
  pose proof (lengthAt_bounds i p Hi Hp0 Hp1) as [Hb0 Hb1].
  pose proof (lengthBefore_mono 0 i ltac:(lia) ltac:(lia)) as Hm0.
  pose proof (lengthBefore_mono (S i) count ltac:(lia) ltac:(lia)) as Hm1.
  simpl lengthBefore in Hm0. unfold totalArcLength.
  repeat split; lra.
Qed.

(** Points further along the curve in arc length are further along in
    the parameter. *)
Lemma located_lt t1 l1 t2 l2 :
  located s t1 l1 -> located s t2 l2 -> l1 < l2 -> t1 < t2.
Proof.
  intros (i & p & Hi & Hp0 & Hp1 & Ht1 & Hl1) (j & q & Hj & Hq0 & Hq1 & Ht2 & Hl2) Hlt.
  pose proof (globalT_bounds i p Hi Hp0 Hp1) as [Hgi0 Hgi1].
  pose proof (globalT_bounds j q Hj Hq0 Hq1) as [Hgj0 Hgj1].
  pose proof (lengthAt_bounds i p Hi Hp0 Hp1) as [Hbi0 Hbi1].
  pose proof (lengthAt_bounds j q Hj Hq0 Hq1) as [Hbj0 Hbj1].
  destruct (lt_eq_lt_dec i j) as [[Hij|Hij]|Hij].
  - (* an earlier segment *)
    pose proof (knots_mono (i + 1) j ltac:(lia) ltac:(lia)) as Hk.
    destruct (Qlt_le_dec (globalT s i p) (T (i + 1))) as [Hs|Hs]; [lra|].
    destruct (Qlt_le_dec (T j) (globalT s j q)) as [Hs'|Hs']; [lra|].
    destruct (decide (i + 1 = j)%nat) as [He|Hne].
    + (* p = 1 and q = 0 at the same knot: the arc lengths agree *)
      exfalso. subst j.
      pose proof (wf_knots s wf i Hi) as Hki.
      pose proof (wf_knots s wf (i + 1)%nat Hj) as Hkj.
      assert (Hp : p == 1) by (unfold globalT in Hs; nra).
      assert (Hq : q == 0) by (unfold globalT in Hs'; nra).
      unfold lengthAt in Hl1, Hl2.
      rewrite (wf_proper s wf i 0 0 p 1 ltac:(reflexivity) Hp) in Hl1.
      rewrite (wf_proper s wf (i + 1) 0 0 q 0 ltac:(reflexivity) Hq) in Hl2.
      rewrite (len_empty (i + 1) 0 Hj ltac:(lra) ltac:(lra)) in Hl2.
      rewrite Nat.add_1_r, lengthBefore_S in Hl2. lra.
    + pose proof (knots_mono (i + 1 + 1) j ltac:(lia) ltac:(lia)) as Hk'.
      pose proof (wf_knots s wf (i + 1)%nat ltac:(lia)) as Hkj. lra.
  - (* the same segment *)
    subst j. pose proof (wf_knots s wf i Hi) as Hki.
    destruct (Qlt_le_dec p q) as [Hpq|Hqp]; [unfold globalT in *; nra|].
    pose proof (len_mono i q p Hi Hq0 Hqp Hp1). unfold lengthAt in *. lra.
  - (* a later segment: impossible *)
    pose proof (lengthBefore_mono (S j) i ltac:(lia) ltac:(lia)). lra.
Qed.

Hypothesis nd : NonDegenerate s.

Lemma lengthBefore_strict i j : (i < j)%nat -> (j <= count)%nat ->
  lengthBefore s i < lengthBefore s j.
Proof.
  intros Hij Hj.
  pose proof (lengthBefore_mono (S i) j ltac:(lia) Hj) as Hm.
  rewrite lengthBefore_S in Hm.
  pose proof (nd i 0 1 ltac:(lia) ltac:(lra) ltac:(lra) ltac:(lra)). lra.
Qed.

Lemma same_length_same_point i p j q :
  (i <= j)%nat -> (j < count)%nat -> 0 <= p -> p <= 1 -> 0 <= q -> q <= 1 ->
  lengthAt s i p == lengthAt s j q -> globalT s i p == globalT s j q.
Proof.
  intros Hij Hj Hp0 Hp1 Hq0 Hq1 Heq.
  assert (Hi : (i < count)%nat) by lia.
  pose proof (lengthAt_bounds i p Hi Hp0 Hp1) as [Hbi0 Hbi1].
  pose proof (lengthAt_bounds j q Hj Hq0 Hq1) as [Hbj0 Hbj1].
  destruct (decide (i = j)) as [->|Hne].
  - (* the same segment: equal fractions *)
    unfold lengthAt in Heq.
    assert (Hpq : p == q).
    { destruct (Qlt_le_dec p q) as [Hlt|Hge].
      - pose proof (wf_additive s wf j 0 p q Hj ltac:(lra) Hp0 ltac:(lra) Hq1).
        pose proof (nd j p q Hj Hp0 Hlt Hq1). lra.
      - destruct (Qlt_le_dec q p) as [Hlt|Hge']; [|lra].
        pose proof (wf_additive s wf j 0 q p Hj ltac:(lra) Hq0 ltac:(lra) Hp1).
        pose proof (nd j q p Hj Hq0 Hlt Hp1). lra. }
    unfold globalT. rewrite Hpq. reflexivity.
  - (* consecutive segments, at their common knot *)
    destruct (decide (i + 1 = j)%nat) as [He|Hne'].
    + assert (Hj' : j = S i) by lia. clear He Hne Hij. subst j.
      assert (HS : lengthBefore s (S i) == lengthBefore s i + len i 0 1) by reflexivity.
      assert (Hp : p == 1).
      { destruct (Qlt_le_dec p 1) as [Hlt|Hge]; [|lra].
        pose proof (nd i p 1 Hi Hp0 Hlt ltac:(lra)).
        pose proof (len_split i p Hi Hp0 Hp1). unfold lengthAt in *. lra. }
      assert (Hq : q == 0).
      { destruct (Qlt_le_dec 0 q) as [Hlt|Hge]; [|lra].
        pose proof (nd (S i) 0 q Hj ltac:(lra) Hlt Hq1).
        unfold lengthAt in *. lra. }
      unfold globalT. rewrite Hp, Hq. rewrite (Nat.add_1_r i). ring.
    + pose proof (lengthBefore_strict (S i) j ltac:(lia) ltac:(lia)). lra.
Qed.

(** On a curve without flat stretches the converse holds as well. *)
Lemma located_le t1 l1 t2 l2 :
  located s t1 l1 -> located s t2 l2 -> l1 <= l2 -> t1 <= t2.
Proof.
  intros L1 L2 Hle.
  destruct (Qlt_le_dec l1 l2) as [Hlt|Hge].
  - pose proof (located_lt t1 l1 t2 l2 L1 L2 Hlt). lra.
  - destruct L1 as (i & p & Hi & Hp0 & Hp1 & Ht1 & Hl1).
    destruct L2 as (j & q & Hj & Hq0 & Hq1 & Ht2 & Hl2).
    destruct (le_lt_dec i j) as [Hij|Hji].
    + pose proof (same_length_same_point i p j q Hij Hj Hp0 Hp1 Hq0 Hq1 ltac:(lra)). lra.
    + pose proof (same_length_same_point j q i p ltac:(lia) Hi Hq0 Hq1 Hp0 Hp1 ltac:(lra)).
      lra.
Qed.

End Curve.
(** *** The point query *)

Section PointQueryExact.
Variable s : Spline V Q.
Local Abbreviation T := (segmentT s).
Local Abbreviation len := (segmentArcLength s).
Local Abbreviation count := (segmentCount s).

(** What the scan of [solveLength] has consumed when it stops. *)
Lemma scanSegments_exact fuel : forall b0 bl0 d0 tr b bl dl,
  (count <= fuel + S b0)%nat -> (b0 < count)%nat -> 0 < d0 ->
  ArcLength.scanSegments fuel s b0 bl0 d0 = (tr, Done (b, bl, dl)) ->
  (b0 < b)%nat /\ (b <= count)%nat /\
  dl == d0 - (lengthBefore s b - lengthBefore s (S b0)) /\
  0 < dl /\
  ((b < count)%nat -> bl = len b 0 1 /\ dl <= bl).
Proof.
  induction fuel as [|fuel IH]; intros b0 bl0 d0 tr b bl dl Hf Hb0 Hd0;
    cbn [ArcLength.scanSegments];
    destruct (S b0 <? count)%nat eqn:Hc.
  - apply Nat.ltb_lt in Hc. lia.
  - apply Nat.ltb_ge in Hc. intros [= <- <- <- <-].
    repeat split; try lia; try lra.
  - apply Nat.ltb_lt in Hc.
    rewrite callSegmentArcLength_run, bind_pair. unfloat.
    destruct (Qlt_bool (len (S b0) 0 1) d0) eqn:Hlt.
    + apply Qlt_bool_true in Hlt.
      destruct (ArcLength.scanSegments fuel s (S b0) (len (S b0) 0 1)
                  (d0 - len (S b0) 0 1)) as [tr' [[[b' bl'] dl']| |]] eqn:Hscan;
        cbn [fst snd]; try discriminate.
      intros [= <- <- <- <-].
      assert (Hd' : 0 < d0 - len (S b0) 0 1) by lra.
      destruct (IH (S b0) _ _ _ _ _ _ ltac:(lia) Hc Hd' Hscan)
        as (H1 & H2 & H3 & H4 & H5).
      assert (HS : lengthBefore s (S (S b0)) == lengthBefore s (S b0) + len (S b0) 0 1)
        by reflexivity.
      repeat split; try lia; try lra; apply H5; assumption.
    + apply Qlt_bool_false in Hlt. cbn [fst snd ret]. intros [= <- <- <- <-].
      repeat split; try lia; try lra.
  - apply Nat.ltb_ge in Hc. intros [= <- <- <- <-].
    repeat split; try lia; try lra.
Qed.

Hypothesis wf : WellFormed s.

(** One run of [solveLength] on a parameter of the curve: either the
    scan exhausts the segments, exactly when the distance exceeds what
    remains, or it stops at a segment where the solver is asked for a
    distance that fits. *)
Lemma solveLength_cases a d : 0 <= a -> a <= getMaxT s ->
  exists tr aP b bl dl,
    solveIndices tr = [] /\
    ArcLength.solveLength s a d =
    (if (b =? count)%nat
     then (tr, Done (getMaxT s))
     else (tr ++ [EvSolveSegment b dl bl aP],
           Done (globalT s b (ArcLengthSolvePrivate.solveSegment s b dl bl aP)))) /\
    (((b = count)%nat /\ remainingLength s a < d) \/
     ((b < count)%nat /\ d <= remainingLength s a /\
      0 <= aP /\ aP <= 1 /\ dl <= bl /\ bl == len b aP 1 /\
      (0 <= d -> 0 <= dl) /\
      lengthAt s b aP + dl == arcLengthTo s a + d /\
      (0 < d -> 0 < dl) /\
      a <= globalT s b aP)).
Proof.
  intros Ha0 Ha1.
  destruct (locate s wf a Ha0 Ha1) as (Hi & Hl & Hu & _).
  pose proof (wf_knots s wf _ Hi) as Hk.
  pose proof (localPercent_bounds s _ a Hk Hl Hu) as [Hp0 Hp1].
  destruct (solveLength_run s a d) as (tr & aP & b & bl & dl & Hscan & Htr & Hrun).
  unfloat.
  change ((a - T (segmentForT s a)) / (T (segmentForT s a + 1) - T (segmentForT s a)))
    with (localPercent s (segmentForT s a) a) in *.
  set (i := segmentForT s a) in *. set (pa := localPercent s i a) in *.
  pose proof (len_split s wf i pa Hi Hp0 Hp1) as Hsplit.
  pose proof (lengthBefore_mono s wf (S i) count ltac:(lia) ltac:(lia)) as Hrest.
  assert (HS : lengthBefore s (S i) == lengthBefore s i + len i 0 1) by reflexivity.
  assert (Hrem : remainingLength s a ==
                 len i pa 1 + (lengthBefore s count - lengthBefore s (S i))).
  { unfold remainingLength, totalArcLength, arcLengthTo, lengthAt. fold i. fold pa. lra. }
  exists (EvSegmentArcLength i pa 1 :: tr), aP, b, bl, dl.
  split; [exact Htr|]. split; [exact Hrun|].
  destruct (Qlt_bool (len i pa 1) d) eqn:Hlt.
  - apply Qlt_bool_true in Hlt. destruct Hscan as [Hscan ->].
    assert (Hd0 : 0 < d - len i pa 1) by lra.
    destruct (scanSegments_exact count i _ _ _ _ _ _ ltac:(lia) Hi Hd0 Hscan)
      as (Hb0 & Hb1 & Hdl & Hpos & Hstop).
    destruct (decide (b = count)) as [Hbc|Hbc].
    + left. split; [exact Hbc|]. subst b. lra.
    + right. destruct (Hstop ltac:(lia)) as [-> Hfit].
      pose proof (lengthBefore_mono s wf (S b) count ltac:(lia) ltac:(lia)) as Hrest'.
      assert (HSb : lengthBefore s (S b) == lengthBefore s b + len b 0 1) by reflexivity.
      pose proof (len_empty s wf b 0 ltac:(lia) ltac:(lra) ltac:(lra)) as He.
      pose proof (knots_mono s wf (i + 1) b ltac:(lia) ltac:(lia)) as Hkb.
      assert (Hg : globalT s b 0 == T b) by (unfold globalT; ring).
      unfold arcLengthTo, lengthAt. fold i. fold pa.
      repeat split; try lia; try lra.
  - apply Qlt_bool_false in Hlt.
    destruct Hscan as (-> & -> & -> & -> & ->).
    assert (Hg : globalT s i pa == a).
    { unfold globalT, pa, localPercent. field. lra. }
    right. unfold arcLengthTo, lengthAt. fold i. fold pa.
    repeat split; try lia; try lra.
Qed.

End PointQueryExact.
(** *** The partitions *)

Section PartitionExact.
Variable s : Spline V Q.
Hypothesis wf : WellFormed s.
Local Abbreviation T := (segmentT s).
Local Abbreviation len := (segmentArcLength s).
Local Abbreviation count := (segmentCount s).

(** The scan of a partition stops inside the table as long as the curve
    has enough length left, and has then consumed what it skipped. *)
Lemma scanTable_exact fuel : forall b0 r0 d0,
  (count <= fuel + S b0)%nat -> (b0 < count)%nat -> 0 <= r0 -> 0 <= d0 ->
  d0 <= r0 + (lengthBefore s count - lengthBefore s (S b0)) ->
  exists b r dl,
    ArcLength.scanTable fuel (lengthTable s) b0 r0 d0 = Done (b, r, dl) /\
    (b < count)%nat /\ 0 <= dl /\ dl <= r /\
    ((b = b0 /\ r = r0 /\ dl = d0) \/
     ((b0 < b)%nat /\ r = len b 0 1 /\
      dl == d0 - r0 - (lengthBefore s b - lengthBefore s (S b0)))).
Proof.
  induction fuel as [|fuel IH]; intros b0 r0 d0 Hf Hb0 Hr0 Hd0 Hroom;
    cbn [ArcLength.scanTable]; unfloat;
    destruct (Qlt_bool r0 d0) eqn:Hlt;
    try (apply Qlt_bool_false in Hlt; exists b0, r0, d0;
         split; [reflexivity|]; split; [exact Hb0|]; split; [exact Hd0|];
         split; [exact Hlt|]; left; repeat split).
  all: apply Qlt_bool_true in Hlt.
  all: assert (Hnext : (S b0 < count)%nat)
         by (destruct (decide (S b0 < count)%nat) as [|Hn]; [assumption|];
             replace count with (S b0) in Hroom by lia; lra).
  - lia.
  - rewrite read_lengthTable.
    apply Nat.ltb_lt in Hnext as Hnext'. rewrite Hnext'.
    assert (HS : lengthBefore s (S (S b0)) == lengthBefore s (S b0) + len (S b0) 0 1)
      by reflexivity.
    pose proof (wf_nonneg s wf (S b0) 0 1 Hnext ltac:(lra) ltac:(lra) ltac:(lra)) as Hn.
    assert (Hd' : 0 <= d0 - r0) by lra.
    assert (Hroom' : d0 - r0 <= len (S b0) 0 1 +
                       (lengthBefore s count - lengthBefore s (S (S b0)))) by lra.
    destruct (IH (S b0) (len (S b0) 0 1) (d0 - r0) ltac:(lia) Hnext Hn Hd' Hroom')
      as (b & r & dl & Hrun & Hb & Hdl0 & Hdl1 & Hcase).
    exists b, r, dl. split; [exact Hrun|]. split; [exact Hb|].
    split; [exact Hdl0|]. split; [exact Hdl1|]. right.
    destruct Hcase as [(-> & -> & ->)|(Hlt' & -> & Heq)].
    + split; [lia|]. split; [reflexivity|]. lra.
    + split; [lia|]. split; [reflexivity|]. lra.
Qed.

Lemma times_S k l : times (S k) l == times k l + l.
Proof.
  unfold times. rewrite Nat2Z.inj_succ. unfold Z.succ. rewrite inject_Z_plus. ring.
Qed.

Lemma times_0 l : times 0 l == 0.
Proof. unfold times. simpl. ring. Qed.

Lemma Qtrunc_nat_floor q : 0 <= q -> Qtrunc_nat q = Z.to_nat (Qfloor q).
Proof.
  intros Hq. unfold Qtrunc_nat, Qfloor. destruct q as [n d]. cbn [Qnum Qden].
  unfold Qle in Hq. simpl in Hq. rewrite Z.quot_div_nonneg by lia. reflexivity.
Qed.

Lemma floor_times q l : 0 <= q -> 0 < l ->
  times (Z.to_nat (Qfloor q)) l <= q * l /\ q * l < times (Z.to_nat (Qfloor q)) l + l.
Proof.
  intros Hq Hl. unfold times.
  assert (H0 : (0 <= Qfloor q)%Z).
  { change 0%Z with (Qfloor 0). apply Qfloor_resp_le, Hq. }
  rewrite Z2Nat.id by exact H0.
  pose proof (Qfloor_le q). pose proof (Qlt_floor q) as Hlt.
  rewrite inject_Z_plus in Hlt. change (inject_Z 1) with 1 in Hlt.
  split; nra.
Qed.

Lemma total_nonneg : 0 <= totalArcLength s.
Proof.
  pose proof (lengthBefore_mono s wf 0 count ltac:(lia) ltac:(lia)) as Hm.
  exact Hm.
Qed.

Lemma read_first : read (lengthTable s) 0 = Done (len 0 0 1).
Proof.
  rewrite read_lengthTable. pose proof (wf_segments s wf) as Hc.
  apply Nat.ltb_lt in Hc. rewrite Hc. reflexivity.
Qed.

End PartitionExact.
End Exact.

Local Open Scope Q_scope.

(** *** Where the point query searches, in exact arithmetic *)

Section TargetExact.
Context {V : Type} {IV : Interpolation V Q} {RF : RootFinder Q}.
Variable s : Spline V Q.
Hypothesis wf : WellFormed s.

(** In exact arithmetic, on a parameter of the curve: the scan is
    exhausted exactly when the distance exceeds what remains of the
    curve, and the target is otherwise the segment that holds the point
    at that distance. *)
Lemma solveTarget_exact a d : 0 <= a -> a <= getMaxT s ->
  match solveTarget s a d with
  | None => remainingLength s a < d
  | Some (b, dl, bl, aP) =>
      (b < segmentCount s)%nat /\ d <= remainingLength s a /\
      0 <= aP /\ aP <= 1 /\ dl <= bl /\ bl == segmentArcLength s b aP 1 /\
      (0 <= d -> 0 <= dl) /\
      lengthAt s b aP + dl == arcLengthTo s a + d /\
      (0 < d -> 0 < dl) /\
      a <= globalT s b aP
  end.
Proof.
  intros Ha0 Ha1.
  destruct (locate s wf a Ha0 Ha1) as (Hi & _).
  pose proof (solveLength_target s a d Hi) as Ht. cbn zeta in Ht.
  destruct (solveLength_cases s wf a d Ha0 Ha1)
    as (tr & aP' & b' & bl' & dl' & Htr & Hrun & Hcase).
  rewrite Hrun in Ht.
  destruct (solveTarget s a d) as [[[[b dl] bl] aP]|].
  - destruct Ht as (Hb & _ & (tr0 & Htrace & Htr0) & _).
    destruct Hcase as [[Hb' _]|(Hb' & Hprops)].
    + apply Nat.eqb_eq in Hb'. rewrite Hb' in Htrace. cbn [trace fst] in Htrace.
      rewrite Htrace, solveIndices_app, Htr0 in Htr. discriminate.
    + assert (Hne : (b' =? segmentCount s)%nat = false) by (apply Nat.eqb_neq; lia).
      rewrite Hne in Htrace. cbn [trace fst] in Htrace.
      apply app_inj_tail in Htrace as [_ [= -> -> -> ->]].
      split; [exact Hb|]. exact Hprops.
  - destruct Ht as [Hnone _].
    destruct Hcase as [[_ Hrem]|(Hb' & _)]; [exact Hrem|].
    assert (Hne : (b' =? segmentCount s)%nat = false) by (apply Nat.eqb_neq; lia).
    rewrite Hne in Hnone. cbn [trace fst] in Hnone.
    rewrite solveIndices_app in Hnone. apply app_eq_nil in Hnone as [_ Hnone].
    discriminate.
Qed.

End TargetExact.

(** C1, as the code has it.  [solveLength] returns [getMaxT], without a
    fault and without a call of the solver, exactly when its scan
    exhausts the segments: the distance is above the length from [a] to
    the end of its segment and, with the lengths passed subtracted one
    by one in the arithmetic of the code, above the length of every
    segment after it.  This holds for every arithmetic.  In exact
    arithmetic, on a well-formed curve, the scan is exhausted exactly
    when the distance exceeds the arc length remaining from [a] to the
    end of the curve; in particular
    [solveLength(curve, 0, totalArcLength + eps)] is [getMaxT] for every
    [eps > 0]. *)
Theorem solveLength_saturates :
  (forall (V T : Type) (H : Floating T) (IV : Interpolation V T) (RF : RootFinder T)
          (spline : Spline V T) (a d : T),
     (segmentForT spline a < segmentCount spline)%nat ->
     (solveTarget spline a d = None <->
      solveCalls (trace (ArcLength.solveLength spline a d)) = 0%nat) /\
     (solveTarget spline a d = None ->
      value (ArcLength.solveLength spline a d) = Done (getMaxT spline))) /\
  (forall (V : Type) (IV : Interpolation V Q) (RF : RootFinder Q) (s : Spline V Q),
     WellFormed s ->
     (forall a d, 0 <= a -> a <= getMaxT s ->
        (remainingLength s a < d <-> solveTarget s a d = None) /\
        (remainingLength s a < d ->
         value (ArcLength.solveLength s a d) = Done (getMaxT s) /\
         solveCalls (trace (ArcLength.solveLength s a d)) = 0%nat)) /\
     (forall eps, 0 < eps ->
        value (ArcLength.solveLength s 0 (totalArcLength s + eps)) = Done (getMaxT s))).
Proof.
  split.
  - intros V T H IV RF spline a d Ha.
    pose proof (solveLength_target spline a d Ha) as Ht. cbn zeta in Ht.
    destruct (solveTarget spline a d) as [[[[b dl] bl] aP]|].
    + destruct Ht as (_ & _ & (tr0 & Htrace & Htr0) & _).
      split; [split; [discriminate|] | discriminate].
      unfold solveCalls. rewrite Htrace, solveIndices_app, Htr0. discriminate.
    + destruct Ht as [Hnone Hval].
      split; [split; [|reflexivity] | intros _; exact Hval].
      intros _. unfold solveCalls. rewrite Hnone. reflexivity.
  - intros V IV RF s wf.
    assert (Hgen : forall a d, 0 <= a -> a <= getMaxT s ->
        (remainingLength s a < d <-> solveTarget s a d = None) /\
        (remainingLength s a < d ->
         value (ArcLength.solveLength s a d) = Done (getMaxT s) /\
         solveCalls (trace (ArcLength.solveLength s a d)) = 0%nat)).
    { intros a d Ha0 Ha1.
      destruct (locate s wf a Ha0 Ha1) as (Hi & _).
      pose proof (solveTarget_exact s wf a d Ha0 Ha1) as He.
      pose proof (solveLength_target s a d Hi) as Ht. cbn zeta in Ht.
      destruct (solveTarget s a d) as [[[[b dl] bl] aP]|].
      - destruct He as (_ & Hle & _).
        split; [split; [intros; lra | discriminate] | intros; lra].
      - destruct Ht as [Hnone Hval].
        split; [split; [reflexivity | intros _; exact He]|].
        intros _. split; [exact Hval|]. unfold solveCalls. rewrite Hnone. reflexivity. }
    split; [exact Hgen|].
    intros eps Heps.
    pose proof (located_bounds s wf _ _ (located_end s wf)) as (Hmax & _).
    pose proof (located_arcLengthTo s wf 0 0 (located_start s wf)) as H0.
    apply (Hgen 0 (totalArcLength s + eps)); [lra | lra | unfold remainingLength; lra].
Qed.

(** C1 as stated fails on the code in IEEE double precision.  On the
    curve of three straight segments of lengths 0.8, 2.0 and 0.3, whose
    lengths add up to 3.0999999999999996 in the arithmetic of the code,
    the distance 3.1 exceeds the arc length of the whole curve; but the
    scan subtracts 0.8 and 2.0 from it, is left with
    0.29999999999999982, which is not above the length 0.3 of the last
    segment, and calls the solver there: the result is below [getMaxT]. *)
Lemma solveLength_binary64_stops_short :
  flt (lengthTotal three_segments64) above_three_segments = true /\
  solveTarget three_segments64 fzero above_three_segments <> None /\
  solveCalls (trace (run_solveLength64 three_segments64 fzero above_three_segments)) = 1%nat /\
  value (run_solveLength64 three_segments64 fzero above_three_segments)
    <> Done (getMaxT three_segments64).
Proof.
  split; [vm_compute; reflexivity|]. split; [vm_compute; discriminate|].
  split; [vm_compute; reflexivity|].
  intros Hrun.
  apply (f_equal (fun o => match o with
                           | Done b => PrimFloat.ltb b (getMaxT three_segments64)
                           | _ => false
                           end)) in Hrun.
  vm_compute in Hrun. discriminate Hrun.
Defined.

(** C8, as the code has it.  The scan of a point query settles where the
    answer is searched: in the segment of [a] when the distance is not
    above what that segment has left, otherwise in the first later
    segment whose length is not below the distance still wanted.  When
    there is such a segment the solver is called exactly once, on it,
    and the result is the global parameter of the fraction it returns;
    when there is none the solver is not called and the result is
    [getMaxT].  This holds for every arithmetic.  In exact arithmetic,
    on a well-formed curve and for a distance that is not negative, the
    segment the solver is called on is the one that holds the point at
    that distance beyond [a], and there is none exactly when the
    distance exceeds what remains of the curve. *)
Theorem solveLength_solver_calls :
  (forall (V T : Type) (H : Floating T) (IV : Interpolation V T) (RF : RootFinder T)
          (spline : Spline V T) (a d : T),
     (segmentForT spline a < segmentCount spline)%nat ->
     let r := ArcLength.solveLength spline a d in
     match solveTarget spline a d with
     | None => solveCalls (trace r) = 0%nat /\ value r = Done (getMaxT spline)
     | Some (b, dl, bl, aP) =>
         (b < segmentCount spline)%nat /\ flt bl dl = false /\
         solveCalls (trace r) = 1%nat /\
         (exists tr0, trace r = tr0 ++ [EvSolveSegment b dl bl aP] /\
                      solveIndices tr0 = []) /\
         value r = Done (fadd (segmentT spline b)
                           (fmul (ArcLengthSolvePrivate.solveSegment spline b dl bl aP)
                              (fsub (segmentT spline (b + 1)) (segmentT spline b))))
     end) /\
  (forall (V : Type) (IV : Interpolation V Q) (RF : RootFinder Q) (s : Spline V Q)
          (a d : Q),
     WellFormed s -> 0 <= a -> a <= getMaxT s -> 0 <= d ->
     match solveTarget s a d with
     | None => remainingLength s a < d
     | Some (b, dl, bl, aP) =>
         d <= remainingLength s a /\
         (b < segmentCount s)%nat /\ 0 <= aP /\ aP <= 1 /\
         bl == segmentArcLength s b aP 1 /\ 0 <= dl /\ dl <= bl /\
         lengthAt s b aP + dl == arcLengthTo s a + d
     end).
Proof.
  split.
  - intros V T H IV RF spline a d Ha r. subst r.
    pose proof (solveLength_target spline a d Ha) as Ht. cbn zeta in Ht.
    destruct (solveTarget spline a d) as [[[[b dl] bl] aP]|].
    + destruct Ht as (Hb & Hfit & (tr0 & Htrace & Htr0) & Hval).
      split; [exact Hb|]. split; [exact Hfit|]. split.
      * unfold solveCalls. rewrite Htrace, solveIndices_app, Htr0. reflexivity.
      * split; [exists tr0; split; assumption | exact Hval].
    + destruct Ht as [Hnone Hval]. split; [|exact Hval].
      unfold solveCalls. rewrite Hnone. reflexivity.
  - intros V IV RF s a d wf Ha0 Ha1 Hd.
    pose proof (solveTarget_exact s wf a d Ha0 Ha1) as He.
    destruct (solveTarget s a d) as [[[[b dl] bl] aP]|]; [|exact He].
    destruct He as (Hb & Hle & HaP0 & HaP1 & Hfit & Hbl & Hdl & Hat & _).
    repeat split; auto.
Qed.

(** C5.  With a root finder that honours its brackets, for every segment
    index, every [aPercent] in [[0, 1]] and every [desiredLength] with
    [0 < desiredLength <= maxLength], [solveSegment] returns a fraction
    in [[aPercent, 1]]: it passes the brackets [aPercent] and [1], and a
    first guess that lies between them. *)
Theorem solveSegment_in_bracket
    {V : Type} {IV : Interpolation V Q} {RF : RootFinder Q}
    (s : Spline V Q) (segmentIndex : nat) (desiredLength maxLength aPercent : Q) :
  BracketedFinder ->
  0 <= aPercent -> aPercent <= 1 ->
  0 < desiredLength -> desiredLength <= maxLength ->
  aPercent <= ArcLengthSolvePrivate.solveSegment s segmentIndex desiredLength maxLength aPercent /\
  ArcLengthSolvePrivate.solveSegment s segmentIndex desiredLength maxLength aPercent <= 1.
Proof.
  intros Hbr Ha0 Ha1 Hd Hm.
  unfold ArcLengthSolvePrivate.solveSegment. unfloat.
  assert (Hq0 : 0 <= desiredLength / maxLength) by (apply Qle_shift_div_l; lra).
  assert (Hq1 : desiredLength / maxLength <= 1) by (apply Qle_shift_div_r; lra).
  apply Hbr; nra.
Qed.

(** C10.  On a well-formed curve, which has at least one segment, for
    every piece length strictly greater than the total arc length,
    [partition] returns the one-element sequence [[0]]: the vector holds
    one value-initialised slot that nothing assigns, the piece loop does
    not run, and the solver is never called. *)
Theorem partition_longer_than_curve
    {V : Type} {IV : Interpolation V Q} {RF : RootFinder Q}
    (s : Spline V Q) (lengthPerPiece : Q) :
  WellFormed s -> totalArcLength s < lengthPerPiece ->
  value (ArcLength.partition s lengthPerPiece) = Done [0] /\
  solveCalls (trace (ArcLength.partition s lengthPerPiece)) = 0%nat.
Proof.
  intros wf HL.
  pose proof (total_nonneg s wf) as Htot.
  set (q := totalArcLength s / lengthPerPiece).
  assert (Hq0 : 0 <= q) by (apply Qle_shift_div_l; lra).
  assert (Hq1 : q < 1) by (apply Qlt_shift_div_r; lra).
  assert (Hm : Qtrunc_nat q = 0%nat).
  { rewrite (Qtrunc_nat_floor q Hq0).
    assert (H0 : (0 <= Qfloor q)%Z).
    { change 0%Z with (Qfloor 0). apply Qfloor_resp_le, Hq0. }
    pose proof (Qfloor_le q) as Hle.
    assert (Hlt1 : inject_Z (Qfloor q) < inject_Z 1) by (change (inject_Z 1) with 1; lra).
    rewrite <- Zlt_Qlt in Hlt1. replace (Qfloor q) with 0%Z by lia. reflexivity. }
  rewrite partition_run. cbn zeta. cbn [value trace fst snd].
  rewrite (read_first s wf), lengthTotal_exact. unfloat. fold q. rewrite Hm.
  cbn [Nat.add replicate length Nat.sub for_loop ret trace value fst snd].
  split; [reflexivity|].
  rewrite app_nil_r. unfold solveCalls.
  pose proof (measured_table (T := Q) (segmentCount s)) as (_ & Hs & _).
  unfloat. rewrite Hs. reflexivity.
Qed.

(** ** The polylines satisfy the contracts *)

Lemma Qfloor_between (t : Q) (i : nat) :
  inject_Z (Z.of_nat i) <= t -> t < inject_Z (Z.of_nat (i + 1)) ->
  Z.to_nat (Qfloor t) = i.
Proof.
  intros Hl Hu.
  pose proof (Qfloor_le t) as Hf. pose proof (Qlt_floor t) as Hc.
  assert (H1 : inject_Z (Z.of_nat i) < inject_Z (Qfloor t + 1)) by lra.
  assert (H2 : inject_Z (Qfloor t) < inject_Z (Z.of_nat (i + 1))) by lra.
  rewrite <- Zlt_Qlt in H1, H2. lia.
Qed.

Lemma polyline_wf (lengths : list Q) :
  lengths <> [] -> Forall (fun l => 0 <= l) lengths -> WellFormed (polyline lengths).
Proof.
  intros Hne Hpos.
  assert (Hlen : (0 < length lengths)%nat) by (destruct lengths; [congruence | simpl; lia]).
  assert (Hnth : forall i, 0 <= nth i lengths 0).
  { intros i. destruct (le_lt_dec (length lengths) i) as [Hge|Hlt].
    - rewrite nth_overflow by exact Hge. lra.
    - rewrite Forall_forall in Hpos. apply Hpos. apply list_elem_of_In, nth_In, Hlt. }
  constructor; cbn [polyline segmentCount segmentT segmentForT segmentArcLength getMaxT].
  - exact Hlen.
  - reflexivity.
  - reflexivity.
  - intros i _. rewrite <- Zlt_Qlt. lia.
  - intros t i Hi Hl Hu. rewrite (Qfloor_between t i Hl Hu). lia.
  - intros t Ht.
    pose proof (Qlt_floor t) as Hc.
    assert (H1 : inject_Z (Z.of_nat (length lengths)) < inject_Z (Qfloor t + 1)) by lra.
    rewrite <- Zlt_Qlt in H1. lia.
  - intros i p p' q q' Hp Hq. rewrite Hp, Hq. reflexivity.
  - intros i p q r _ _ _ _ _. ring.
  - intros i p q _ _ Hpq _. specialize (Hnth i). nra.
Qed.

Lemma polyline_nd (lengths : list Q) :
  Forall (fun l => 0 < l) lengths -> NonDegenerate (polyline lengths).
Proof.
  intros Hpos i p q Hi _ Hpq _.
  cbn [polyline segmentCount segmentArcLength] in *.
  assert (Hnth : 0 < nth i lengths 0).
  { rewrite Forall_forall in Hpos. apply Hpos. apply list_elem_of_In, nth_In, Hi. }
  nra.
Qed.

Lemma is_zero_exact (x : Q) : is_zero x = true <-> x == 0.
Proof.
  unfold is_zero. unfloat. rewrite andb_true_iff, !negb_true_iff, !Qlt_bool_false.
  split; [intros [? ?]; lra | intros ?; split; lra].
Qed.

Lemma newton_finder_bracketed : @BracketedFinder newton_finder.
Proof.
  intros f guess lo hi n. unfold halley_iterate, newton_finder.
  generalize (Z.to_nat n) as k. intros k. revert guess.
  induction k as [|k IH]; intros x Hl Hu; cbn [newton_steps].
  - split; assumption.
  - destruct (f x) as [[f0 f1] f2].
    destruct (is_zero f0); [split; assumption|]. unfloat.
    destruct (Qlt_bool (x - f0 / f1) lo) eqn:E1; [apply IH; lra|].
    destruct (Qlt_bool hi (x - f0 / f1)) eqn:E2; [apply IH; lra|].
    apply Qlt_bool_false in E1, E2. apply IH; lra.
Qed.

Lemma newton_steps_root n (f : Q -> Q * Q * Q) x lo hi :
  fst (fst (f x)) == 0 -> newton_steps n f x lo hi = x.
Proof.
  intros Hroot. destruct n as [|n]; cbn [newton_steps]; [reflexivity|].
  destruct (f x) as [[f0 f1] f2]. cbn [fst] in Hroot.
  apply is_zero_exact in Hroot. rewrite Hroot. reflexivity.
Qed.

(** The loops of the engine end within their budgets, whatever the
    arithmetic, the root finder and the curve: a run ends with a value or
    with a read outside the table of lengths. *)
Lemma engine_scans_bounded
    {V T : Type} `{Floating T} `{Interpolation V T} `{RootFinder T}
    (spline : Spline V T) (a d lengthPerPiece : T) (n : nat) :
  value (ArcLength.solveLength spline a d) <> OutOfFuel /\
  value (ArcLength.partition spline lengthPerPiece) <> OutOfFuel /\
  value (ArcLength.partitionN spline n) <> OutOfFuel.
Proof.
  split; [|split].
  - destruct (solveLength_run spline a d) as (tr & aP & b & bl & dl & _ & _ & ->).
    destruct (b =? segmentCount spline)%nat; discriminate.
  - rewrite partition_run. cbn zeta. cbn [value snd].
    destruct (read _ 0) as [r| |] eqn:Hr; try discriminate.
    + match goal with |- context [for_loop ?k 1 ?body (?p, ?c)] =>
        pose proof (pieces_loop_trace spline (lengthTable spline) lengthPerPiece k 1 p c)
          as (_ & _ & _ & _ & _ & Hfuel) end.
      cbn zeta in Hfuel. destruct (value _); try discriminate. congruence.
    + unfold read in Hr. destruct (_ !! _); discriminate.
  - rewrite partitionN_run. cbn zeta. cbn [value snd].
    destruct (read _ 0) as [r| |] eqn:Hr; try discriminate.
    + match goal with |- context [for_loop ?k 1 ?body (?p, ?c)] =>
        pose proof (pieces_loop_trace spline (lengthTable spline)
                      (fdiv (lengthTotal spline) (of_size_t n)) k 1 p c)
          as (_ & _ & _ & _ & _ & Hfuel) end.
      cbn zeta in Hfuel. destruct (value _); try discriminate. congruence.
    + unfold read in Hr. destruct (_ !! _); discriminate.
Qed.

(** ** The scenarios of the specification *)

Lemma two_segments_wf : WellFormed two_segments.
Proof.
  apply polyline_wf; [discriminate|].
  repeat constructor; unfold Qle; simpl; lia.
Qed.

Lemma two_segments_nd : NonDegenerate two_segments.
Proof. apply polyline_nd. repeat constructor; unfold Qlt; simpl; lia. Qed.

Example line10_half :
  exists b, value (run_solveLength line10 0 5) = Done b /\ b == 1 # 2.
Proof. eexists. split; [vm_compute; reflexivity | reflexivity]. Qed.

Example line10_halves :
  exists b, value (run_partitionN line10 2) = Done [0; b; 1] /\ b == 1 # 2.
Proof. eexists. split; [vm_compute; reflexivity | reflexivity]. Qed.

Example two_segments_knot :
  exists b, value (run_solveLength two_segments 0 3) = Done b /\ b == 1.
Proof. eexists. split; [vm_compute; reflexivity | reflexivity]. Qed.

Example two_segments_end :
  exists b, value (run_solveLength two_segments 0 10) = Done b /\ b == 2.
Proof. eexists. split; [vm_compute; reflexivity | reflexivity]. Qed.

(** ** The theorems on the two-segment curve *)

Lemma solveSegment_in_bracket_witness :
  (1 # 7) <= @ArcLengthSolvePrivate.solveSegment Q Q Q_floating Q_interpolation newton_finder
               two_segments 1 4 6 (1 # 7) /\
  @ArcLengthSolvePrivate.solveSegment Q Q Q_floating Q_interpolation newton_finder
    two_segments 1 4 6 (1 # 7) <= 1.
Proof.
  apply (solveSegment_in_bracket two_segments 1 4 6 (1 # 7) newton_finder_bracketed);
    vm_compute; congruence.
Defined.

Lemma partition_longer_than_curve_witness :
  value (run_partition two_segments 11) = Done [0] /\
  solveCalls (trace (run_partition two_segments 11)) = 0%nat.
Proof.
  apply (partition_longer_than_curve two_segments 11 two_segments_wf).
  vm_compute. reflexivity.
Defined.

(** C8 as stated fails: asked for more than the curve has left, the
    point query answers without calling the solver. *)
Lemma solveLength_without_solver :
  solveCalls (trace (run_solveLength two_segments 0 11)) = 0%nat /\
  solveCalls (trace (run_solveLength two_segments 0 11)) <> 1%nat.
Proof. split; vm_compute; congruence. Defined.

(** ** The fixed-length partition in binary64 *)

(** In exact arithmetic the same call cuts its five pieces. *)
Example partition_tenth_exact :
  exists pieces,
    value (run_partition (polyline [1 # 10]) (1 # 50)) = Done pieces /\
    length pieces = 6%nat.
Proof. eexists. split; vm_compute; reflexivity. Qed.

(** C4 fails on the code in IEEE double precision.  On a curve of one
    straight segment of arc length 0.1, [partition] with pieces of 0.02
    allocates [size_t(0.1 / 0.02) + 1 = 6] boundaries, but cuts four
    pieces only: the remainder of the segment after four pieces, rounded
    at each subtraction, is below 0.02, so for the fifth piece the scan
    reads [segmentLengths[1]] past the end of the one-entry table, which
    no guard prevents.  The run does not return the six boundaries, 0.02
    apart, that the claim states. *)
Theorem partition_binary64_reads_past_table :
  (to_size_t (fdiv tenth fiftieth) + 1)%nat = 6%nat /\
  flt (fsub (fsub (fsub (fsub tenth fiftieth) fiftieth) fiftieth) fiftieth) fiftieth = true /\
  solveCalls (trace (run_partition64 (straight64 tenth) fiftieth)) = 4%nat /\
  value (run_partition64 (straight64 tenth) fiftieth) = OutOfRange.
Proof. repeat split; vm_compute; reflexivity. Qed.

(** C7 fails on the code in IEEE double precision, through the same
    unguarded read.  The scan of [solveLength] is bounded by the
    segments: asked on the one-segment curve of length 0.1 for more than
    the curve has, it stops at [segmentCount] and the call returns
    [getMaxT].  The scan of [partition] is bounded by the arithmetic
    only: for the fifth piece of 0.02 on the same curve it starts from
    the rounded remainder, leaves the one-entry table, and the call ends
    in a read out of range instead of a result. *)
Theorem partition_binary64_scan_leaves_table :
  value (run_solveLength64 (straight64 tenth) fzero (fadd tenth fiftieth)) = Done fone /\
  ArcLength.scanTable 1 [tenth] 0
    (fsub (fsub (fsub (fsub tenth fiftieth) fiftieth) fiftieth) fiftieth) fiftieth
    = OutOfRange /\
  forall pieces, value (run_partition64 (straight64 tenth) fiftieth) <> Done pieces.
Proof.
  split; [vm_compute; reflexivity|]. split; [vm_compute; reflexivity|].
  intros pieces Hrun. vm_compute in Hrun. discriminate Hrun.
Qed.

(** * Further properties of the engine *)

(** ** For every arithmetic *)

Local Close Scope Q_scope.

Section Scans.
Context {V T : Type} `{Floating T} `{Interpolation V T} `{RootFinder T}.

Lemma read_table (spline : Spline V T) i :
  read (lengthTable spline) i =
  if (i <? segmentCount spline)%nat
  then Done (segmentArcLength spline i fzero fone) else OutOfRange.
Proof.
  unfold read, lengthTable. rewrite lookup_map_seq.
  destruct (i <? segmentCount spline)%nat; reflexivity.
Qed.

Lemma length_table (spline : Spline V T) :
  length (lengthTable spline) = segmentCount spline.
Proof. unfold lengthTable. rewrite length_map, length_seq. reflexivity. Qed.

(** Where the scan of a partition stops: inside the table, at a
    remainder that is not below the length still wanted. *)
Lemma scanTable_inside fuel (table : list T) : forall b r d b' r' d',
  ArcLength.scanTable fuel table b r d = Done (b', r', d') ->
  b < length table ->
  b' < length table /\ flt r' d' = false.
Proof.
  induction fuel as [|fuel IH]; intros b r d b' r' d'; simpl;
    destruct (flt r d) eqn:Hlt; try (intros [= <- <- <-]; auto);
    unfold read; destruct (table !! S b) as [x|] eqn:Hx; try discriminate.
  intros Hs _. apply lookup_lt_Some in Hx. exact (IH _ _ _ _ _ _ Hs Hx).
Qed.

(** Every solver call of the piece loop is on a segment of the table. *)
Lemma pieces_loop_within (spline : Spline V T) table lpp n : forall i pieces c,
  ArcLength.aIndex c < length table ->
  Forall (solveWithin (length table))
    (trace (for_loop n i (ArcLength.solvePiece spline table lpp) (pieces, c))).
Proof.
  induction n as [|n IH]; intros i pieces c Hc.
  - constructor.
  - cbn [for_loop]. rewrite trace_bind, solvePiece_run.
    destruct (ArcLength.scanTable _ _ _ _ _) as [[[b r] d]| |] eqn:Hs;
      cbn zeta; cbn [trace value fst snd app]; [|constructor..].
    destruct (scanTable_inside _ _ _ _ _ _ _ _ Hs Hc) as [Hb Hfit].
    constructor; [cbn; split; assumption|]. apply IH. exact Hb.
Qed.

Lemma table_pass_within (count n : nat) : forall a,
  Forall (solveWithin count)
    (map (fun j => @EvSegmentArcLength T j fzero fone) (seq a n)).
Proof.
  induction n as [|n IH]; intros a; simpl; constructor; [exact I | apply IH].
Qed.

(** The scan of [solveLength] asks for the lengths of consecutive
    segments, and stops at a segment of the curve or at [segmentCount]. *)
Lemma scanSegments_visits (spline : Spline V T) fuel : forall b0 bl0 d0 tr b bl dl,
  segmentCount spline <= fuel + S b0 -> b0 < segmentCount spline ->
  ArcLength.scanSegments fuel spline b0 bl0 d0 = (tr, Done (b, bl, dl)) ->
  exists k,
    measuredIndices tr = seq (S b0) k /\
    ((b = segmentCount spline /\ S b0 + k = segmentCount spline) \/
     (b < segmentCount spline /\ b = b0 + k /\ 1 <= k /\ flt bl dl = false)).
Proof.
  induction fuel as [|fuel IH]; intros b0 bl0 d0 tr b bl dl Hf Hb0;
    cbn [ArcLength.scanSegments];
    destruct (S b0 <? segmentCount spline)%nat eqn:Hc.
  - apply Nat.ltb_lt in Hc. lia.
  - apply Nat.ltb_ge in Hc. intros [= <- <- <- <-].
    exists 0. split; [reflexivity|]. left. lia.
  - apply Nat.ltb_lt in Hc. rewrite callSegmentArcLength_run, bind_pair.
    destruct (flt _ _) eqn:Hlt.
    + destruct (ArcLength.scanSegments fuel spline (S b0) _ _)
        as [tr' [[[b' bl'] dl']| |]] eqn:Hscan; cbn [fst snd]; try discriminate.
      intros [= <- <- <- <-].
      destruct (IH (S b0) _ _ _ _ _ _ ltac:(lia) Hc Hscan) as (k & Hm & Hcase).
      exists (S k). split; [change (S b0 :: measuredIndices tr' = seq (S b0) (S k)); rewrite Hm; reflexivity|].
      destruct Hcase as [[-> Hk]|(Hb & -> & Hk & Hfit)]; [left | right];
        repeat split; try lia; assumption.
    + cbn [fst snd ret]. intros [= <- <- <- <-].
      exists 1. split; [reflexivity|]. right. repeat split; try lia; assumption.
  - apply Nat.ltb_ge in Hc. intros [= <- <- <- <-].
    exists 0. split; [reflexivity|]. left. lia.
Qed.

(** The piece loops of two runs that differ in the root finder only: the
    scans agree, so do the requests to the solver and the fault. *)
Lemma pieces_loop_any_finder (RF1 RF2 : RootFinder T)
    (spline : Spline V T) table lpp n : forall i p1 p2 c1 c2,
  ArcLength.aIndex c1 = ArcLength.aIndex c2 ->
  ArcLength.segmentRemainder c1 = ArcLength.segmentRemainder c2 ->
  length p1 = length p2 ->
  let r1 := for_loop n i (ArcLength.solvePiece (H1 := RF1) spline table lpp) (p1, c1) in
  let r2 := for_loop n i (ArcLength.solvePiece (H1 := RF2) spline table lpp) (p2, c2) in
  solveRequests (trace r1) = solveRequests (trace r2) /\
  (forall st1, value r1 = Done st1 ->
     exists st2, value r2 = Done st2 /\ length st2.1 = length st1.1) /\
  (value r1 = OutOfRange -> value r2 = OutOfRange).
Proof.
  induction n as [|n IH]; intros i p1 p2 c1 c2 Ha Hr Hl r1 r2; subst r1 r2.
  - cbn. split; [reflexivity|]. split; [|discriminate].
    intros st1 [= <-]. exists (p2, c2). split; [reflexivity | symmetry; exact Hl].
  - cbn [for_loop]. rewrite !trace_bind, !value_bind.
    rewrite (solvePiece_run (H1 := RF1)), (solvePiece_run (H1 := RF2)).
    rewrite <- Ha, <- Hr.
    destruct (ArcLength.scanTable _ _ _ _ _) as [[[b r] d]| |] eqn:Hs;
      cbn zeta; cbn [trace value fst snd].
    + match goal with
      | |- context [for_loop n (S i) (ArcLength.solvePiece (H1 := RF1) _ _ _) (?q1, ?k1)] =>
        match goal with
        | |- context [for_loop n (S i) (ArcLength.solvePiece (H1 := RF2) _ _ _) (?q2, ?k2)] =>
          specialize (IH (S i) q1 q2 k1 k2 eq_refl eq_refl
                        ltac:(rewrite !length_insert; exact Hl))
        end
      end.
      cbn zeta in IH. destruct IH as (IH1 & IH2 & IH3).
      split; [|split; assumption].
      unfold solveRequests in *. rewrite !omap_app, IH1. reflexivity.
    + split; [reflexivity|]. split; [discriminate | reflexivity].
    + split; [reflexivity|]. split; discriminate.
Qed.

(** The boundaries two piece loops write from the same state agree, as
    far as both loops go: what the loop writes does not depend on the
    vector it writes to. *)
Lemma pieces_loop_agree (spline : Spline V T) table lpp n1 : forall n2 i p1 p2 c st1 st2,
  value (for_loop n1 i (ArcLength.solvePiece spline table lpp) (p1, c)) = Done st1 ->
  value (for_loop n2 i (ArcLength.solvePiece spline table lpp) (p2, c)) = Done st2 ->
  forall j, i <= j -> j < i + n1 -> j < i + n2 ->
    j < length p1 -> j < length p2 -> st1.1 !! j = st2.1 !! j.
Proof.
  induction n1 as [|n1 IH]; intros n2 i p1 p2 c st1 st2 H1' H2' j Hij Hj1 Hj2 Hl1 Hl2.
  - lia.
  - destruct n2 as [|n2]; [lia|].
    cbn [for_loop] in H1', H2'. rewrite value_bind, solvePiece_run in H1', H2'.
    destruct (ArcLength.scanTable _ _ _ _ _) as [[[b r] d]| |]; try discriminate.
    cbn zeta in H1', H2'. cbn [value snd] in H1', H2'.
    destruct (decide (j = i)) as [->|Hne].
    + destruct (pieces_loop_frame _ _ _ _ _ _ _ _ H1') as [_ Hs1].
      destruct (pieces_loop_frame _ _ _ _ _ _ _ _ H2') as [_ Hs2].
      rewrite Hs1, Hs2 by lia.
      rewrite !list_lookup_insert_eq by assumption. reflexivity.
    + apply (IH _ _ _ _ _ _ _ H1' H2'); rewrite ?length_insert; lia.
Qed.

End Scans.

(** X1.  A point query from a parameter that [segmentForT] places in a
    segment of the curve asks for the arc lengths of consecutive
    segments, starting with the one of [a], each once, and of no more
    segments than the curve has from there on.  If it calls the solver,
    it calls it on the last segment it measured, a segment of the curve,
    with a desired length that is not above the maximal length it
    passes.  If it does not, it has measured every segment from the one
    of [a] on and answers [getMaxT].  This holds for every arithmetic
    and every root finder. *)
Theorem solveLength_visits_consecutive_segments
    {V T : Type} `{Floating T} `{Interpolation V T} `{RootFinder T}
    (spline : Spline V T) (a desiredLength : T) :
  segmentForT spline a < segmentCount spline ->
  let r := ArcLength.solveLength spline a desiredLength in
  let aIndex := segmentForT spline a in
  exists k,
    1 <= k <= segmentCount spline - aIndex /\
    measuredIndices (trace r) = seq aIndex k /\
    Forall (solveWithin (segmentCount spline)) (trace r) /\
    (solveIndices (trace r) = [aIndex + k - 1] \/
     (solveIndices (trace r) = [] /\ k = segmentCount spline - aIndex /\
      value r = Done (getMaxT spline))).
Proof.
  intros Ha r aIndex. subst r.
  destruct (solveLength_run spline a desiredLength)
    as (tr & aP & b & bl & dl & Hscan & Htr & ->).
  fold aIndex in Hscan |- *.
  set (aPercent := fdiv _ _) in *. set (aLength := segmentArcLength _ _ _ _) in *.
  assert (Hk : exists k,
            measuredIndices tr = seq (S aIndex) k /\
            Forall (solveWithin (segmentCount spline)) tr /\
            ((b = segmentCount spline /\ S aIndex + k = segmentCount spline) \/
             (b < segmentCount spline /\ b = aIndex + k /\ flt bl dl = false))).
  { assert (Hw : Forall (solveWithin (segmentCount spline)) tr).
    { clear - Htr. induction tr as [|[i x y|i x y z] tr IH]; [constructor| |discriminate].
      constructor; [exact I | apply IH, Htr]. }
    destruct (flt aLength desiredLength) eqn:Hlt.
    - destruct Hscan as [Hscan _].
      destruct (scanSegments_visits spline (segmentCount spline) aIndex _ _ _ _ _ _ ltac:(lia) Ha Hscan)
        as (k & Hm & Hcase).
      exists k. split; [exact Hm|]. split; [exact Hw|].
      destruct Hcase as [?|(? & ? & ? & ?)]; [left | right]; auto.
    - destruct Hscan as (-> & _ & -> & -> & ->).
      exists 0. split; [reflexivity|]. split; [constructor|].
      right. split; [exact Ha|]. split; [lia | exact Hlt]. }
  destruct Hk as (k & Hm & Hw & Hcase).
  exists (S k).
  destruct Hcase as [[Hb Hk]|(Hb & Hbk & Hfit)].
  - apply Nat.eqb_eq in Hb as Hb'. rewrite Hb'. cbn [trace value fst snd].
    split; [lia|]. split; [change (aIndex :: measuredIndices tr = seq aIndex (S k));
                           rewrite Hm; reflexivity|].
    split; [constructor; [exact I | exact Hw]|].
    right. split; [exact Htr|]. split; [lia | reflexivity].
  - assert (Hne : (b =? segmentCount spline)%nat = false) by (apply Nat.eqb_neq; lia).
    rewrite Hne. cbn [trace value fst snd].
    split; [lia|]. split.
    { change (aIndex :: measuredIndices (tr ++ [EvSolveSegment b dl bl aP])
              = seq aIndex (S k)).
      rewrite measuredIndices_app, Hm. cbn. rewrite app_nil_r. reflexivity. }
    split.
    { constructor; [exact I|]. apply Forall_app. split; [exact Hw|].
      constructor; [split; assumption | constructor]. }
    left. change (solveIndices (tr ++ [EvSolveSegment b dl bl aP]) = [aIndex + S k - 1]).
    rewrite solveIndices_app, Htr. cbn. f_equal. lia.
Qed.

(** X2.  In [partition] and in [partitionN], every call of the solver
    made before a read outside the table of segment lengths, if there
    is one, is on a segment of the curve, with a desired length that is
    not above the maximal length passed with it: the scan that precedes
    the call has stopped inside the table.  In particular this holds of
    all the solver calls of a run that never reads outside the table.
    After such a read the behaviour of the code is undefined; the run
    of the model ends there, and nothing is said of what the code does
    next.  This holds for every arithmetic, every root finder and every
    curve. *)
Theorem partition_solver_calls_within_curve
    {V T : Type} `{Floating T} `{Interpolation V T} `{RootFinder T}
    (spline : Spline V T) (lengthPerPiece : T) (n : nat) :
  Forall (solveWithin (segmentCount spline))
    (trace (ArcLength.partition spline lengthPerPiece)) /\
  Forall (solveWithin (segmentCount spline))
    (trace (ArcLength.partitionN spline n)).
Proof.
  rewrite partition_run, partitionN_run. cbn zeta. cbn [trace fst].
  split; (apply Forall_app; split; [apply table_pass_within|]);
    unfold read; destruct (lengthTable spline !! 0) as [r0|] eqn:Hr; try constructor;
    rewrite <- (length_table spline); apply pieces_loop_within;
    apply lookup_lt_Some in Hr; exact Hr.
Qed.

(** X3.  When [partition] returns, for whatever arithmetic, it returns
    [size_t(totalArcLength / lengthPerPiece) + 1] boundaries, the first
    of them 0 as the vector was initialised, and it has called the solver
    once for each of the others. *)
Theorem partition_returns_counted
    {V T : Type} `{Floating T} `{Interpolation V T} `{RootFinder T}
    (spline : Spline V T) (lengthPerPiece : T) (pieces : list T) :
  value (ArcLength.partition spline lengthPerPiece) = Done pieces ->
  length pieces = (to_size_t (fdiv (lengthTotal spline) lengthPerPiece) + 1)%nat /\
  pieces !! 0%nat = Some fzero /\
  solveCalls (trace (ArcLength.partition spline lengthPerPiece)) = (length pieces - 1)%nat.
Proof.
  intros Hrun. destruct (partition_shape spline lengthPerPiece pieces Hrun) as [Hlen H0'].
  split; [exact Hlen|]. split; [exact H0'|].
  revert Hrun. rewrite partition_run. cbn zeta. cbn [trace value fst snd].
  destruct (read _ 0) as [r| |]; try discriminate.
  destruct (value _) as [st| |] eqn:Hst; try discriminate. intros _.
  rewrite solveCalls_app. unfold solveCalls at 1.
  destruct (measured_table (T := T) (segmentCount spline)) as (_ & -> & _).
  match type of Hst with value (for_loop ?k 1 _ (?p, ?c)) = _ =>
    pose proof (pieces_loop_trace spline (lengthTable spline) lengthPerPiece k 1 p c)
      as (_ & _ & _ & _ & Hn & _) end.
  cbn zeta in Hn. destruct (Hn st Hst) as [-> _].
  rewrite length_replicate, Hlen. reflexivity.
Qed.

(** X4.  When [partitionN] returns for [n >= 1], for whatever
    arithmetic, it returns [n + 1] boundaries; the first is 0 and the
    last is [getMaxT] itself, both written before the piece loop and not
    computed by the solver; and the solver has been called [n - 1]
    times, once for each boundary between them. *)
Theorem partitionN_returns_counted
    {V T : Type} `{Floating T} `{Interpolation V T} `{RootFinder T}
    (spline : Spline V T) (n : nat) (pieces : list T) :
  (1 <= n)%nat ->
  value (ArcLength.partitionN spline n) = Done pieces ->
  length pieces = (n + 1)%nat /\
  pieces !! 0%nat = Some fzero /\
  pieces !! n = Some (getMaxT spline) /\
  solveCalls (trace (ArcLength.partitionN spline n)) = (n - 1)%nat.
Proof.
  intros Hn Hrun.
  destruct (partitionN_shape spline n pieces Hn Hrun) as (Hlen & H0' & Hlast).
  split; [exact Hlen|]. split; [exact H0'|]. split; [exact Hlast|].
  revert Hrun. rewrite partitionN_run. cbn zeta. cbn [trace value fst snd].
  destruct (read _ 0) as [r| |]; try discriminate.
  destruct (value _) as [st| |] eqn:Hst; try discriminate. intros _.
  rewrite solveCalls_app. unfold solveCalls at 1.
  destruct (measured_table (T := T) (segmentCount spline)) as (_ & -> & _).
  match type of Hst with value (for_loop ?k 1 _ (?p, ?c)) = _ =>
    pose proof (pieces_loop_trace spline (lengthTable spline)
                  (fdiv (lengthTotal spline) (of_size_t n)) k 1 p c)
      as (_ & _ & _ & _ & Hk & _) end.
  cbn zeta in Hk. destruct (Hk st Hst) as [-> _]. reflexivity.
Qed.

(** X5.  The two smallest piece counts, on a curve with at least one
    segment and for whatever arithmetic.  [partitionN(curve, 1)] returns
    [[0, getMaxT]] without a call of the solver.  [partitionN(curve, 0)]
    returns the one-element vector [[getMaxT]], again without a call of
    the solver: [pieces[0] = 0] and [pieces[n] = getMaxT] write the same
    slot, so the first element is not 0. *)
Theorem partitionN_no_interior_boundary
    {V T : Type} `{Floating T} `{Interpolation V T} `{RootFinder T}
    (spline : Spline V T) :
  (0 < segmentCount spline)%nat ->
  (value (ArcLength.partitionN spline 1) = Done [fzero; getMaxT spline] /\
   solveCalls (trace (ArcLength.partitionN spline 1)) = 0%nat) /\
  (value (ArcLength.partitionN spline 0) = Done [getMaxT spline] /\
   solveCalls (trace (ArcLength.partitionN spline 0)) = 0%nat).
Proof.
  intros Hc. rewrite !partitionN_run. cbn zeta. cbn [trace value fst snd].
  rewrite read_table. apply Nat.ltb_lt in Hc. rewrite Hc.
  cbn [Nat.sub for_loop ret trace value fst snd Nat.add replicate].
  rewrite app_nil_r. unfold solveCalls.
  destruct (measured_table (T := T) (segmentCount spline)) as (_ & -> & _).
  repeat split.
Qed.

(** X6.  On a curve without segments both partitions fault before
    anything else happens: the table of segment lengths is empty, and
    [segmentLengths[0]] reads outside it.  No arc length is asked for
    and no solver is called, whatever the piece length or count and
    whatever the arithmetic. *)
Theorem partition_of_empty_curve
    {V T : Type} `{Floating T} `{Interpolation V T} `{RootFinder T}
    (spline : Spline V T) (lengthPerPiece : T) (n : nat) :
  segmentCount spline = 0%nat ->
  ArcLength.partition spline lengthPerPiece = ([], OutOfRange) /\
  ArcLength.partitionN spline n = ([], OutOfRange).
Proof.
  intros Hc. rewrite partition_run, partitionN_run. cbn zeta.
  rewrite read_table, Hc. split; reflexivity.
Qed.

(** X7.  What the root finder answers has no influence on the scans of
    the partitions.  Two runs of [partition], or of [partitionN], that
    differ in the root finder only make the same requests to the solver
    (the same segments, desired lengths and maximal lengths, in the same
    order); when one returns, so does the other, with as many
    boundaries; and when one reads outside the table of segment lengths,
    so does the other. *)
Theorem partition_scan_independent_of_root_finder
    {V T : Type} `{Floating T} `{Interpolation V T} (RF1 RF2 : RootFinder T)
    (spline : Spline V T) (lengthPerPiece : T) (n : nat) :
  let p1 := ArcLength.partition (H1 := RF1) spline lengthPerPiece in
  let p2 := ArcLength.partition (H1 := RF2) spline lengthPerPiece in
  let q1 := ArcLength.partitionN (H1 := RF1) spline n in
  let q2 := ArcLength.partitionN (H1 := RF2) spline n in
  (solveRequests (trace p1) = solveRequests (trace p2) /\
   (forall x, value p1 = Done x -> exists y, value p2 = Done y /\ length y = length x) /\
   (value p1 = OutOfRange -> value p2 = OutOfRange)) /\
  (solveRequests (trace q1) = solveRequests (trace q2) /\
   (forall x, value q1 = Done x -> exists y, value q2 = Done y /\ length y = length x) /\
   (value q1 = OutOfRange -> value q2 = OutOfRange)).
Proof.
  intros p1 p2 q1 q2. subst p1 p2 q1 q2.
  rewrite (partition_run (H1 := RF1)), (partition_run (H1 := RF2)).
  rewrite (partitionN_run (H1 := RF1)), (partitionN_run (H1 := RF2)).
  cbn zeta. cbn [trace value fst snd].
  assert (Hgen : forall lpp k pieces,
    let tr0 := map (fun j => @EvSegmentArcLength T j fzero fone)
                 (seq 0 (segmentCount spline)) in
    let loop (RF : RootFinder T) r :=
      for_loop k 1 (ArcLength.solvePiece (H1 := RF) spline (lengthTable spline) lpp)
        (pieces, cursor0 r) in
    let tr RF := match read (lengthTable spline) 0 with
                 | Done r => trace (loop RF r) | _ => [] end in
    let v RF := match read (lengthTable spline) 0 with
                | Done r => match value (loop RF r) with
                            | Done st => Done st.1
                            | OutOfRange => OutOfRange
                            | OutOfFuel => OutOfFuel
                            end
                | OutOfRange => OutOfRange
                | OutOfFuel => OutOfFuel
                end in
    solveRequests (tr0 ++ tr RF1) = solveRequests (tr0 ++ tr RF2) /\
    (forall x, v RF1 = Done x -> exists y, v RF2 = Done y /\ length y = length x) /\
    (v RF1 = OutOfRange -> v RF2 = OutOfRange)).
  { intros lpp k pieces tr0 loop tr v. subst tr v loop. cbv beta.
    destruct (read (lengthTable spline) 0) as [r| |].
    - destruct (pieces_loop_any_finder RF1 RF2 spline (lengthTable spline) lpp k 1
                  pieces pieces (cursor0 r) (cursor0 r) eq_refl eq_refl eq_refl)
        as (Hreq & Hdone & Hfault).
      split; [unfold solveRequests in *; rewrite !omap_app, Hreq; reflexivity|].
      split.
      + intros x Hx. destruct (value _) as [st1| |] eqn:Hst1; try discriminate.
        injection Hx as <-. destruct (Hdone st1 eq_refl) as (st2 & -> & Hlen).
        exists st2.1. split; [reflexivity | exact Hlen].
      + intros Hx. destruct (value _) as [st1| |] eqn:Hst1; try discriminate.
        rewrite (Hfault eq_refl). reflexivity.
    - split; [reflexivity|]. split; [discriminate | reflexivity].
    - split; [reflexivity|]. split; discriminate. }
  split; apply Hgen.
Qed.

(** X8.  [partitionN] runs the piece loop of [partition]: when
    [partitionN(curve, n)] and [partition(curve, totalArcLength / n)]
    both return, for whatever arithmetic, the boundaries of the first
    before its last one are, value for value, the boundaries the second
    has at the same positions.  The two differ only in the number of
    boundaries and in the last entry of [partitionN], which is
    [getMaxT] and is not solved for. *)
Theorem partitionN_prefix_of_partition
    {V T : Type} `{Floating T} `{Interpolation V T} `{RootFinder T}
    (spline : Spline V T) (n : nat) (piecesN pieces : list T) :
  value (ArcLength.partitionN spline n) = Done piecesN ->
  value (ArcLength.partition spline (fdiv (lengthTotal spline) (of_size_t n))) = Done pieces ->
  forall k, (k < n)%nat -> (k < length pieces)%nat -> piecesN !! k = pieces !! k.
Proof.
  intros HN HP k Hkn Hkp.
  destruct (partitionN_shape spline n piecesN ltac:(lia) HN) as (HlenN & H0N & _).
  destruct (partition_shape spline _ pieces HP) as (HlenP & H0P).
  destruct k as [|k]; [congruence|].
  revert HN HP. rewrite partitionN_run, partition_run. cbn zeta. cbn [value snd].
  destruct (read _ 0) as [r| |]; try discriminate.
  destruct (value (for_loop (n - 1) _ _ _)) as [st1| |] eqn:Hst1; try discriminate.
  destruct (value (for_loop (length _ - 1) _ _ _)) as [st2| |] eqn:Hst2; try discriminate.
  intros [= <-] [= <-].
  apply (pieces_loop_agree _ _ _ _ _ _ _ _ _ _ _ Hst1 Hst2);
    rewrite ?length_insert, ?length_replicate; lia.
Qed.

Local Open Scope Q_scope.

(** ** In exact arithmetic *)

Section Composition.
Context {V : Type} {IV : Interpolation V Q} {RF : RootFinder Q}.
Variable s : Spline V Q.
Hypothesis wf : WellFormed s.

(** Every parameter of the curve is the point at its own arc length. *)
Lemma located_self a : 0 <= a -> a <= getMaxT s -> located s a (arcLengthTo s a).
Proof.
  intros Ha0 Ha1.
  destruct (locate s wf a Ha0 Ha1) as (Hi & Hl & Hu & _).
  pose proof (wf_knots s wf _ Hi) as Hk.
  pose proof (localPercent_bounds s _ a Hk Hl Hu) as [Hp0 Hp1].
  exists (segmentForT s a), (localPercent s (segmentForT s a) a).
  split; [exact Hi|]. split; [exact Hp0|]. split; [exact Hp1|].
  split; [|reflexivity].
  unfold globalT, localPercent. field. lra.
Qed.

Lemma arcLengthTo_range a : 0 <= a -> a <= getMaxT s ->
  0 <= arcLengthTo s a /\ arcLengthTo s a <= totalArcLength s.
Proof.
  intros Ha0 Ha1.
  destruct (located_bounds s wf _ _ (located_self a Ha0 Ha1)) as (_ & _ & Hl). exact Hl.
Qed.

Lemma arcLengthTo_mono a b : 0 <= a -> a <= b -> b <= getMaxT s ->
  arcLengthTo s a <= arcLengthTo s b.
Proof.
  intros Ha0 Hab Hb1.
  destruct (Qlt_le_dec (arcLengthTo s b) (arcLengthTo s a)) as [Hlt|Hle]; [|exact Hle].
  pose proof (located_lt s wf _ _ _ _ (located_self b ltac:(lra) Hb1)
                (located_self a Ha0 ltac:(lra)) Hlt). lra.
Qed.

Lemma arcLengthTo_start : arcLengthTo s 0 == 0.
Proof. apply (located_arcLengthTo s wf), (located_start s wf). Qed.

Lemma arcLengthTo_end : arcLengthTo s (getMaxT s) == totalArcLength s.
Proof. apply (located_arcLengthTo s wf), (located_end s wf). Qed.

Lemma located_proper t l l' : located s t l -> l == l' -> located s t l'.
Proof.
  intros (i & p & Hi & Hp0 & Hp1 & Ht & Hl) Heq.
  exists i, p. repeat split; try assumption. lra.
Qed.

Lemma times_mono k m l : (k <= m)%nat -> 0 <= l -> times k l <= times m l.
Proof.
  intros Hkm Hl. unfold times.
  assert (Hz : inject_Z (Z.of_nat k) <= inject_Z (Z.of_nat m)).
  { rewrite <- Zle_Qle. lia. }
  nra.
Qed.

(** A piece loop keeps going whatever the solver answers: the scan sees
    the remainders only, which come from the table of lengths. *)
Lemma solvePiece_returns lpp i pieces c l :
  (ArcLength.aIndex c < segmentCount s)%nat ->
  0 <= ArcLength.segmentRemainder c ->
  lengthBefore s (S (ArcLength.aIndex c)) - ArcLength.segmentRemainder c == l ->
  0 <= lpp -> l + lpp <= totalArcLength s ->
  exists pieces' c',
    value (ArcLength.solvePiece s (lengthTable s) lpp i (pieces, c)) = Done (pieces', c') /\
    (ArcLength.aIndex c' < segmentCount s)%nat /\
    0 <= ArcLength.segmentRemainder c' /\
    lengthBefore s (S (ArcLength.aIndex c')) - ArcLength.segmentRemainder c' == l + lpp.
Proof.
  intros Ha Hr0 Hl Hlpp Hroom.
  rewrite solvePiece_run, length_lengthTable.
  set (a := ArcLength.aIndex c) in *. set (r0 := ArcLength.segmentRemainder c) in *.
  unfold totalArcLength in Hroom.
  destruct (scanTable_exact s wf (segmentCount s) a r0 lpp ltac:(lia) Ha Hr0 Hlpp ltac:(lra))
    as (b & r & dl & -> & Hb & Hdl0 & Hdl1 & Hcase).
  cbn zeta. cbn [value snd]. eexists _, _. split; [reflexivity|].
  cbn [ArcLength.aIndex ArcLength.segmentRemainder]. unfloat.
  split; [exact Hb|]. split; [lra|].
  destruct Hcase as [(-> & -> & ->)|(Hlt & -> & Heq)]; [lra|].
  assert (HS : lengthBefore s (S b) == lengthBefore s b + segmentArcLength s b 0 1)
    by reflexivity.
  lra.
Qed.

Lemma pieces_loop_returns lpp n : forall i pieces c l,
  (ArcLength.aIndex c < segmentCount s)%nat ->
  0 <= ArcLength.segmentRemainder c ->
  lengthBefore s (S (ArcLength.aIndex c)) - ArcLength.segmentRemainder c == l ->
  0 <= lpp -> l + times n lpp <= totalArcLength s ->
  exists st,
    value (for_loop n i (ArcLength.solvePiece s (lengthTable s) lpp) (pieces, c)) = Done st.
Proof.
  induction n as [|n IH]; intros i pieces c l Ha Hr0 Hl Hlpp Hroom.
  - exists (pieces, c). reflexivity.
  - pose proof (times_S n lpp) as HtS.
    assert (Hn0 : 0 <= times n lpp).
    { pose proof (times_mono 0 n lpp ltac:(lia) Hlpp). pose proof (times_0 lpp). lra. }
    destruct (solvePiece_returns lpp i pieces c l Ha Hr0 Hl Hlpp ltac:(lra))
      as (pieces' & c' & Hrun & Ha' & Hr' & Hl').
    cbn [for_loop]. rewrite value_bind, Hrun.
    apply (IH (S i) pieces' c' (l + lpp) Ha' Hr' Hl' Hlpp). lra.
Qed.

Lemma first_piece_state :
  let c := cursor0 (segmentArcLength s 0 0 1) in
  (ArcLength.aIndex c < segmentCount s)%nat /\
  0 <= ArcLength.segmentRemainder c /\
  lengthBefore s (S (ArcLength.aIndex c)) - ArcLength.segmentRemainder c == 0.
Proof.
  pose proof (wf_segments s wf) as Hc.
  pose proof (wf_nonneg s wf 0%nat 0 1 Hc ltac:(lra) ltac:(lra) ltac:(lra)).
  cbn [cursor0 ArcLength.aIndex ArcLength.segmentRemainder lengthBefore].
  split; [exact Hc|]. split; [assumption | lra].
Qed.

Lemma pieceN_length (n : nat) : (1 <= n)%nat -> 0 <= totalArcLength s ->
  let lpp := totalArcLength s / inject_Z (Z.of_nat n) in
  0 <= lpp /\ times n lpp == totalArcLength s /\ times (n - 1) lpp <= totalArcLength s.
Proof.
  intros Hn Htot lpp.
  assert (Hnq : 0 < inject_Z (Z.of_nat n)).
  { change 0 with (inject_Z 0). rewrite <- Zlt_Qlt. lia. }
  assert (Hlpp : 0 <= lpp) by (apply Qle_shift_div_l; lra).
  assert (Hfull : times n lpp == totalArcLength s) by (unfold times, lpp; field; lra).
  pose proof (times_S (n - 1) lpp) as HS.
  replace (S (n - 1)) with n in HS by lia.
  split; [exact Hlpp|]. split; [exact Hfull | lra].
Qed.

Hypothesis nd : NonDegenerate s.

Lemma located_unique t1 l1 t2 l2 :
  located s t1 l1 -> located s t2 l2 -> l1 == l2 -> t1 == t2.
Proof.
  intros H1 H2 Heq. apply Qle_antisym.
  - apply (located_le s wf nd _ _ _ _ H1 H2). lra.
  - apply (located_le s wf nd _ _ _ _ H2 H1). lra.
Qed.

End Composition.

(** ** The contract of the root finder *)

Lemma halved_mono n : forall w w', w <= w' -> halved n w <= halved n w'.
Proof.
  induction n as [|n IH]; intros w w' Hw; cbn [halved]; [exact Hw|].
  apply IH. change (w / 2) with (w * (1 # 2)). change (w' / 2) with (w' * (1 # 2)). lra.
Qed.

Lemma halved_nonneg n : forall w, 0 <= w -> 0 <= halved n w.
Proof.
  induction n as [|n IH]; intros w Hw; cbn [halved]; [exact Hw|].
  apply IH. change (w / 2) with (w * (1 # 2)). lra.
Qed.

Lemma halved_S_le n w : 0 <= w -> halved (S n) w <= halved n w.
Proof.
  intros Hw. cbn [halved]. apply halved_mono. change (w / 2) with (w * (1 # 2)). lra.
Qed.

Lemma halved_anti n m w : (n <= m)%nat -> 0 <= w -> halved m w <= halved n w.
Proof.
  intros Hnm Hw. induction Hnm as [|m Hnm IH]; [lra|].
  pose proof (halved_S_le m w Hw). lra.
Qed.

(** What a bisection reaches: a point of the bracket where the value is
    not positive, and not further below [floor] than the slope allows
    over what is left of the bracket. *)
Lemma bisect_steps_spec (f : Q -> Q * Q * Q) (K floor : Q) n : forall lo hi w,
  0 <= K -> lo <= hi -> hi - lo <= w ->
  fst (fst (f lo)) <= 0 -> floor <= fst (fst (f hi)) -> floor <= 0 ->
  (forall x y, lo <= x -> x <= y -> y <= hi ->
     0 <= fst (fst (f y)) - fst (fst (f x)) /\
     fst (fst (f y)) - fst (fst (f x)) <= K * (y - x)) ->
  lo <= bisect_steps n f lo hi /\ bisect_steps n f lo hi <= hi /\
  fst (fst (f (bisect_steps n f lo hi))) <= 0 /\
  floor - K * halved n w <= fst (fst (f (bisect_steps n f lo hi))).
Proof.
  induction n as [|n IH]; intros lo hi w HK Hlh Hw Hlo Hhi Hfloor Hslope;
    cbn [bisect_steps halved].
  - destruct (Hslope lo hi ltac:(lra) Hlh ltac:(lra)) as [_ Hs].
    repeat split; try lra. nra.
  - set (mid := Qred ((lo + hi) / 2)).
    assert (Hmid : mid == (lo + hi) / 2) by apply Qred_correct.
    assert (Hm1 : lo <= mid) by (rewrite Hmid; apply Qle_shift_div_l; lra).
    assert (Hm2 : mid <= hi) by (rewrite Hmid; apply Qle_shift_div_r; lra).
    assert (Hw1 : mid - lo <= w / 2).
    { assert (E : mid - lo == (hi - lo) / 2) by (rewrite Hmid; field).
      rewrite E. change ((hi - lo) / 2) with ((hi - lo) * (1 # 2)).
      change (w / 2) with (w * (1 # 2)). lra. }
    assert (Hw2 : hi - mid <= w / 2).
    { assert (E : hi - mid == (hi - lo) / 2) by (rewrite Hmid; field).
      rewrite E. change ((hi - lo) / 2) with ((hi - lo) * (1 # 2)).
      change (w / 2) with (w * (1 # 2)). lra. }
    destruct (Qlt_bool 0 (fst (fst (f mid)))) eqn:Hsign.
    + apply Qlt_bool_true in Hsign.
      destruct (IH lo mid (w / 2) HK Hm1 Hw1 Hlo ltac:(lra) Hfloor) as (H1 & H2 & H3 & H4).
      { intros x y Hx Hxy Hy. apply Hslope; lra. }
      repeat split; try assumption; lra.
    + apply Qlt_bool_false in Hsign.
      destruct (IH mid hi (w / 2) HK Hm2 Hw2 Hsign Hhi Hfloor) as (H1 & H2 & H3 & H4).
      { intros x y Hx Hxy Hy. apply Hslope; lra. }
      repeat split; try assumption; lra.
Qed.

(** The bisection meets the contract of the root finder, with the
    tolerance its number of steps gives. *)
Lemma bisect_finder_convergent (K : Q) (digits : Z) :
  0 <= K ->
  @ConvergentFinder bisect_finder K (K * halved (Z.to_nat digits) 1) digits.
Proof.
  intros HK f guess lo hi n Hn Hg1 Hg2 Hw Hlo Hslope.
  unfold halley_iterate, bisect_finder.
  assert (Hsteps : K * halved (Z.to_nat n) 1 <= K * halved (Z.to_nat digits) 1).
  { pose proof (halved_anti (Z.to_nat digits) (Z.to_nat n) 1 ltac:(lia) ltac:(lra)). nra. }
  assert (Htol : 0 <= K * halved (Z.to_nat digits) 1).
  { pose proof (halved_nonneg (Z.to_nat digits) 1 ltac:(lra)). nra. }
  destruct (Qlt_le_dec (fst (fst (f hi))) 0) as [Hneg|Hpos].
  - destruct (bisect_steps_spec f K (fst (fst (f hi))) (Z.to_nat n) lo hi 1
                HK ltac:(lra) Hw Hlo ltac:(lra) ltac:(lra) Hslope) as (H1 & H2 & H3 & H4).
    repeat split; try assumption; try lra.
  - destruct (bisect_steps_spec f K 0 (Z.to_nat n) lo hi 1
                HK ltac:(lra) Hw Hlo Hpos ltac:(lra) Hslope) as (H1 & H2 & H3 & H4).
    repeat split; try assumption; try lra.
Qed.

Lemma ConvergentFinder_weaken `{RootFinder Q} (K tol tol' : Q) (digits : Z) :
  tol <= tol' -> ConvergentFinder K tol digits -> ConvergentFinder K tol' digits.
Proof.
  intros Htol Hf f guess lo hi n Hn Hg1 Hg2 Hw Hlo Hslope.
  destruct (Hf f guess lo hi n Hn Hg1 Hg2 Hw Hlo Hslope) as (H1 & H2 & H3 & H4 & H5).
  repeat split; try assumption; try lra.
Qed.

(** ** The bent curves satisfy the contracts *)

Lemma arcs_wf (lengths : list Q) :
  lengths <> [] -> Forall (fun l => 0 <= l) lengths -> WellFormed (arcs lengths).
Proof.
  intros Hne Hpos.
  assert (Hlen : (0 < length lengths)%nat) by (destruct lengths; [congruence | simpl; lia]).
  assert (Hnth : forall i, 0 <= nth i lengths 0).
  { intros i. destruct (le_lt_dec (length lengths) i) as [Hge|Hlt].
    - rewrite nth_overflow by exact Hge. lra.
    - rewrite Forall_forall in Hpos. apply Hpos. apply list_elem_of_In, nth_In, Hlt. }
  constructor; cbn [arcs segmentCount segmentT segmentForT segmentArcLength getMaxT].
  - exact Hlen.
  - reflexivity.
  - reflexivity.
  - intros i _. rewrite <- Zlt_Qlt. lia.
  - intros t i Hi Hl Hu. rewrite (Qfloor_between t i Hl Hu). lia.
  - intros t Ht.
    pose proof (Qlt_floor t) as Hc.
    assert (H1 : inject_Z (Z.of_nat (length lengths)) < inject_Z (Qfloor t + 1)) by lra.
    rewrite <- Zlt_Qlt in H1. lia.
  - intros i p p' q q' Hp Hq. rewrite Hp, Hq. reflexivity.
  - intros i p q r _ _ _ _ _. field.
  - intros i p q _ Hp Hpq _. specialize (Hnth i).
    assert (Hu : 0 <= ((q * q + q) - (p * p + p)) / 2).
    { apply Qle_shift_div_l; [lra | nra]. }
    nra.
Qed.

Lemma arcs_speed (lengths : list Q) (M : Q) :
  Forall (fun l => 0 <= l /\ l <= M) lengths -> SpeedBound (arcs lengths) ((3 # 2) * M).
Proof.
  intros Hb i p q Hi Hp Hpq Hq.
  cbn [arcs segmentCount segmentArcLength] in *.
  assert (Hnth : 0 <= nth i lengths 0 /\ nth i lengths 0 <= M).
  { rewrite Forall_forall in Hb. apply Hb. apply list_elem_of_In, nth_In, Hi. }
  set (u := ((q * q + q) - (p * p + p)) / 2).
  assert (Hu0 : 0 <= u) by (apply Qle_shift_div_l; [lra | nra]).
  assert (Hu1 : u <= (3 # 2) * (q - p)) by (apply Qle_shift_div_r; [lra | nra]).
  destruct Hnth as [Hn0 Hn1]. nra.
Qed.

Lemma two_arcs_wf : WellFormed two_arcs.
Proof.
  apply arcs_wf; [discriminate|].
  repeat constructor; unfold Qle; simpl; lia.
Qed.

Lemma two_arcs_speed : SpeedBound two_arcs (21 # 2).
Proof.
  assert (H : SpeedBound two_arcs ((3 # 2) * 7)).
  { apply arcs_speed. repeat constructor; unfold Qle; simpl; lia. }
  intros i p q Hi Hp Hpq Hq. specialize (H i p q Hi Hp Hpq Hq). lra.
Qed.

(** With its 26 steps the bisection is within a millionth on curves of
    speed at most 21/2. *)
Lemma bisect_finder_millionth :
  @ConvergentFinder bisect_finder (21 # 2) (1 # 1000000)
    (Z.quot (@digits Q Q_floating) 2).
Proof.
  apply (ConvergentFinder_weaken (21 # 2) ((21 # 2) * halved 26 1)).
  - vm_compute. discriminate.
  - apply (bisect_finder_convergent (21 # 2) 26). lra.
Qed.

(** ** The segment solver under the contract of the root finder *)

Section Accuracy.
Context {V : Type} {IV : Interpolation V Q} {RF : RootFinder Q}.
Variable s : Spline V Q.
Hypothesis wf : WellFormed s.

(** The first guess of [solveSegment] lies between the brackets it
    passes. *)
Lemma guess_in_bracket (d m aP : Q) :
  0 <= aP -> aP <= 1 -> 0 <= d -> d <= m -> 0 < m ->
  aP <= aP + d / m * (1 - aP) /\ aP + d / m * (1 - aP) <= 1.
Proof.
  intros Ha0 Ha1 Hd Hdm Hm.
  assert (Hq0 : 0 <= d / m) by (apply Qle_shift_div_l; lra).
  assert (Hq1 : d / m <= 1) by (apply Qle_shift_div_r; lra).
  split; nra.
Qed.

(** The value of the objective of [solveSegment] does not decrease over
    the bracket, and grows no faster than the curve is traversed. *)
Lemma objective_slope (K : Q) (i : nat) (d aP : Q) :
  SpeedBound s K -> (i < segmentCount s)%nat -> 0 <= aP ->
  forall x y, aP <= x -> x <= y -> y <= 1 ->
    0 <= (segmentArcLength s i aP y - d) - (segmentArcLength s i aP x - d) /\
    (segmentArcLength s i aP y - d) - (segmentArcLength s i aP x - d) <= K * (y - x).
Proof.
  intros Hspeed Hi Ha0 x y Hx Hxy Hy.
  pose proof (wf_additive s wf i aP x y Hi Ha0 Hx Hxy Hy) as Hadd.
  pose proof (wf_nonneg s wf i x y Hi ltac:(lra) Hxy Hy) as Hnn.
  pose proof (Hspeed i x y Hi ltac:(lra) Hxy Hy) as Hsp.
  split; lra.
Qed.

Variables K tol : Q.
Hypothesis speed : SpeedBound s K.
Hypothesis finder : ConvergentFinder K tol (Z.quot digits 2).

(** What [solveSegment] returns: a fraction of the bracket at which the
    arc length from [aPercent] is within the tolerance of the desired
    length, or of the length the segment has left when that is less.
    [maxLength] only shapes the first guess. *)
Lemma solveSegment_accurate (i : nat) (d m aP : Q) :
  (i < segmentCount s)%nat -> 0 <= aP -> aP <= 1 -> 0 <= d -> d <= m -> 0 < m ->
  let x := ArcLengthSolvePrivate.solveSegment s i d m aP in
  aP <= x /\ x <= 1 /\
  segmentArcLength s i aP x - d <= tol /\
  (d <= segmentArcLength s i aP 1 -> - tol <= segmentArcLength s i aP x - d) /\
  (segmentArcLength s i aP 1 <= d ->
     segmentArcLength s i aP 1 - d - tol <= segmentArcLength s i aP x - d).
Proof.
  intros Hi Ha0 Ha1 Hd Hdm Hm x. subst x.
  unfold ArcLengthSolvePrivate.solveSegment. cbn [fzero fone fadd fsub fmul fdiv Q_floating] in *.
  destruct (guess_in_bracket d m aP Ha0 Ha1 Hd Hdm Hm) as [Hg0 Hg1].
  pose proof (len_empty s wf i aP Hi Ha0 Ha1) as Hempty.
  destruct (finder
              (ArcLengthSolvePrivate.solveFunction s i d aP (segmentT s i) (segmentT s (i + 1)))
              (aP + d / m * (1 - aP)) aP 1 (Z.quot digits 2)
              (Z.le_refl _) Hg0 Hg1 ltac:(lra))
    as (H1 & H2 & H3 & H4 & H5).
  - cbn [ArcLengthSolvePrivate.solveFunction fst]. cbn [fzero fone fadd fsub fmul fdiv Q_floating] in *. lra.
  - intros x y Hx Hxy Hy. cbn [ArcLengthSolvePrivate.solveFunction fst]. cbn [fzero fone fadd fsub fmul fdiv Q_floating] in *.
    apply (objective_slope K i d aP speed Hi Ha0 x y Hx Hxy Hy).
  - cbn [ArcLengthSolvePrivate.solveFunction fst] in H3, H4, H5. cbn [fzero fone fadd fsub fmul fdiv Q_floating] in *.
    split; [exact H1|]. split; [exact H2|]. split; [exact H3|]. split.
    + intros Hfit. apply H4. lra.
    + intros Hshort. apply H5. lra.
Qed.

(** With such a root finder the answer of a point query is a point of
    the curve whose arc length is within the tolerance of the
    requested distance beyond [a]. *)
Lemma solveLength_near a d :
  0 <= a -> a <= getMaxT s -> 0 < d ->
  (remainingLength s a < d /\
   value (ArcLength.solveLength s a d) = Done (getMaxT s)) \/
  (d <= remainingLength s a /\
   exists t l, value (ArcLength.solveLength s a d) = Done t /\
               located s t l /\ a <= t /\
               arcLengthTo s a + d - tol <= l /\ l <= arcLengthTo s a + d + tol).
Proof.
  intros Ha0 Ha1 Hd.
  destruct (solveLength_cases s wf a d Ha0 Ha1)
    as (tr & aP & b & bl & dl & Htr & Hrun & [[Hb Hrem]|Hcase]).
  - left. split; [exact Hrem|]. rewrite Hrun.
    apply Nat.eqb_eq in Hb. rewrite Hb. reflexivity.
  - right.
    destruct Hcase as (Hb & Hrem & HaP0 & HaP1 & Hfit & Hbl & _ & Hat & Hpos & Hafter).
    specialize (Hpos Hd).
    split; [exact Hrem|]. rewrite Hrun.
    assert (Hne : (b =? segmentCount s)%nat = false) by (apply Nat.eqb_neq; lia).
    rewrite Hne. cbn [value snd].
    destruct (solveSegment_accurate b dl bl aP Hb HaP0 HaP1 ltac:(lra) Hfit ltac:(lra))
      as (Hs0 & Hs1 & Hup & Hlow & _).
    specialize (Hlow ltac:(lra)).
    set (x := ArcLengthSolvePrivate.solveSegment s b dl bl aP) in *.
    pose proof (wf_additive s wf b 0 aP x Hb ltac:(lra) HaP0 Hs0 Hs1) as Hadd.
    pose proof (wf_knots s wf b Hb) as Hk.
    exists (globalT s b x), (lengthAt s b x). split; [reflexivity|]. split.
    + exists b, x. repeat split; try assumption; try lra; reflexivity.
    + unfold lengthAt, globalT in *. repeat split; try lra. nra.
Qed.


End Accuracy.

(** C2.  On a well-formed curve of bounded speed, with a root finder
    that meets its contract with tolerance [tol], for every parameter
    [a] of the curve and every distance [0 < d] that does not exceed the
    arc length remaining beyond [a], [solveLength] returns a parameter
    [b], and the arc length of the curve between [a] and [b] is within
    [tol] of [d]. *)
Theorem solveLength_round_trip
    {V : Type} {IV : Interpolation V Q} {RF : RootFinder Q}
    (s : Spline V Q) (K tol a d : Q) :
  WellFormed s -> SpeedBound s K -> ConvergentFinder K tol (Z.quot digits 2) ->
  0 <= a -> a <= getMaxT s -> 0 < d -> d <= remainingLength s a ->
  exists b, value (ArcLength.solveLength s a d) = Done b /\
            Qabs (arcLength s a b - d) <= tol.
Proof.
  intros wf Hspeed Hfinder Ha0 Ha1 Hd Hrem.
  destruct (solveLength_near s wf K tol Hspeed Hfinder a d Ha0 Ha1 Hd)
    as [[Hlt _]|(_ & t & l & Hrun & Hloc & _ & Hl0 & Hl1)]; [lra|].
  exists t. split; [exact Hrun|].
  unfold arcLength. rewrite (located_arcLengthTo s wf _ _ Hloc).
  apply Qabs_Qle_condition. split; lra.
Qed.



(** X9.  On a well-formed curve, with a root finder that honours its
    brackets, a point query with a positive distance answers inside
    [[a, getMaxT]]: the parameter it returns is not before [a] and not
    after the end of the curve. *)
Theorem solveLength_advances
    {V : Type} {IV : Interpolation V Q} {RF : RootFinder Q}
    (s : Spline V Q) (a d : Q) :
  WellFormed s -> BracketedFinder ->
  0 <= a -> a <= getMaxT s -> 0 < d ->
  exists b, value (ArcLength.solveLength s a d) = Done b /\ a <= b /\ b <= getMaxT s.
Proof.
  intros wf Hbr Ha0 Ha1 Hd.
  destruct (solveLength_cases s wf a d Ha0 Ha1)
    as (tr & aP & b & bl & dl & Htr & Hrun & [[Hb Hrem]|Hcase]).
  - exists (getMaxT s). rewrite Hrun. apply Nat.eqb_eq in Hb. rewrite Hb.
    repeat split; auto; lra.
  - destruct Hcase as (Hb & Hrem & HaP0 & HaP1 & Hfit & Hbl & _ & Hat & Hpos & Hafter).
    specialize (Hpos Hd). rewrite Hrun.
    assert (Hne : (b =? segmentCount s)%nat = false) by (apply Nat.eqb_neq; lia).
    rewrite Hne. cbn [value snd].
    destruct (guess_in_bracket dl bl aP HaP0 HaP1 ltac:(lra) Hfit ltac:(lra)) as [Hg0 Hg1].
    assert (Hx : aP <= ArcLengthSolvePrivate.solveSegment s b dl bl aP /\
                 ArcLengthSolvePrivate.solveSegment s b dl bl aP <= 1).
    { unfold ArcLengthSolvePrivate.solveSegment. unfloat. apply Hbr; assumption. }
    destruct Hx as [Hx0 Hx1].
    set (x := ArcLengthSolvePrivate.solveSegment s b dl bl aP) in *.
    pose proof (wf_knots s wf b Hb) as Hk.
    pose proof (knots_mono s wf (b + 1) (segmentCount s) ltac:(lia) ltac:(lia)) as Hend.
    pose proof (wf_last s wf) as Hlast.
    eexists. split; [reflexivity|]. unfold globalT in *. split; nra.
Qed.

(** ** The partitions under the contract of the root finder *)

(** The scan of a partition leaves a positive distance when it is
    given one. *)
Lemma scanTable_positive fuel (table : list Q) : forall b0 r0 d0 b r dl,
  0 < d0 ->
  ArcLength.scanTable fuel table b0 r0 d0 = Done (b, r, dl) -> 0 < dl.
Proof.
  induction fuel as [|fuel IH]; intros b0 r0 d0 b r dl Hd; cbn [ArcLength.scanTable];
    unfloat; destruct (Qlt_bool r0 d0) eqn:Hlt;
    try (intros [= <- <- <-]; exact Hd);
    destruct (read table (S b0)) as [r1| |]; try discriminate.
  apply Qlt_bool_true in Hlt. intros Hs.
  apply (IH (S b0) r1 (d0 - r0) b r dl); [lra | exact Hs].
Qed.

Section PartitionAccuracy.
Context {V : Type} {IV : Interpolation V Q} {RF : RootFinder Q}.
Variable s : Spline V Q.
Hypothesis wf : WellFormed s.
Variables K tol : Q.
Hypothesis speed : SpeedBound s K.
Hypothesis finder : ConvergentFinder K tol (Z.quot digits 2).
Hypothesis tol_nonneg : 0 <= tol.

(** One piece: from a state within [e] of arc length [l], the body of
    the loop writes a point within [e + tol] of arc length
    [l + lengthPerPiece] and leaves the state there. *)
Lemma solvePiece_near lpp i pieces c l e :
  cursorNear s c l e -> 0 <= e -> 0 < lpp -> l + lpp <= totalArcLength s ->
  exists t c' l',
    value (ArcLength.solvePiece s (lengthTable s) lpp i (pieces, c)) =
      Done (<[i := t]> pieces, c') /\
    located s t l' /\
    l + lpp - (e + tol) <= l' /\ l' <= l + lpp + (e + tol) /\
    cursorNear s c' (l + lpp) (e + tol).
Proof.
  intros (Ha & Hp0 & Hp1 & Hr0 & Hrem & Hlo & Hhi) He Hlpp Hroom.
  rewrite solvePiece_run, length_lengthTable.
  set (a := ArcLength.aIndex c) in *. set (p := ArcLength.previousPercent c) in *.
  set (r0 := ArcLength.segmentRemainder c) in *.
  pose proof (len_split s wf a p Ha Hp0 Hp1) as Hsplit.
  assert (HSa : lengthBefore s (S a) == lengthBefore s a + segmentArcLength s a 0 1)
    by reflexivity.
  unfold lengthAt in Hlo, Hhi. unfold totalArcLength in Hroom.
  destruct (scanTable_exact s wf (segmentCount s) a r0 lpp ltac:(lia) Ha Hr0 ltac:(lra)
              ltac:(lra)) as (b & r & dl & Hscan & Hb & Hdl0 & Hdl1 & Hcase).
  pose proof (scanTable_positive _ _ _ _ _ _ _ _ Hlpp Hscan) as Hdl.
  rewrite Hscan. cbn zeta. cbn [value snd].
  set (aP := if (a =? b)%nat then p else fzero).
  assert (HaP : 0 <= aP /\ aP <= 1) by (subst aP; destruct (a =? b)%nat; unfloat; lra).
  destruct HaP as [HaP0 HaP1].
  destruct (solveSegment_accurate s wf K tol speed finder b dl r aP Hb HaP0 HaP1
              Hdl0 Hdl1 ltac:(lra)) as (Hs0 & Hs1 & Hup & Hfit & Hshort).
  set (x := ArcLengthSolvePrivate.solveSegment s b dl r aP) in *.
  pose proof (wf_additive s wf b 0 aP x Hb ltac:(lra) HaP0 Hs0 Hs1) as Hadd.
  assert (HSb : lengthBefore s (S b) == lengthBefore s b + segmentArcLength s b 0 1)
    by reflexivity.
  assert (Hnear : l + lpp - (e + tol) <= lengthAt s b x /\
                  lengthAt s b x <= l + lpp + (e + tol)).
  { unfold lengthAt. subst aP.
    destruct Hcase as [(-> & -> & ->)|(Hlt & -> & Heq)].
    - rewrite Nat.eqb_refl in *.
      destruct (Qlt_le_dec (segmentArcLength s a p 1) lpp) as [Hless|Hmore].
      + specialize (Hshort ltac:(lra)). split; lra.
      + specialize (Hfit Hmore). split; lra.
    - assert (Hab : (a =? b)%nat = false) by (apply Nat.eqb_neq; lia).
      rewrite Hab in *. unfloat.
      pose proof (len_empty s wf b 0 Hb ltac:(lra) ltac:(lra)) as Hempty.
      specialize (Hfit ltac:(lra)). split; lra. }
  destruct Hnear as [Hn0 Hn1].
  exists (globalT s b x), {| ArcLength.segmentRemainder := fsub r dl;
                             ArcLength.previousPercent := x;
                             ArcLength.aIndex := b |}, (lengthAt s b x).
  split; [reflexivity|]. split.
  { exists b, x. repeat split; try assumption; try lra; reflexivity. }
  split; [exact Hn0|]. split; [exact Hn1|].
  unfold cursorNear.
  cbn [ArcLength.aIndex ArcLength.previousPercent ArcLength.segmentRemainder]. unfloat.
  split; [exact Hb|]. split; [lra|]. split; [exact Hs1|]. split; [lra|].
  split; [|split; assumption].
  destruct Hcase as [(-> & -> & ->)|(Hlt & -> & Heq)]; lra.
Qed.

(** The piece loop: [n] pieces from a state within [e] of arc length
    [l]; the error grows by at most the tolerance with each piece. *)
Lemma pieces_loop_near lpp n : forall i pieces c l e,
  cursorNear s c l e -> 0 <= e -> 0 < lpp -> l + times n lpp <= totalArcLength s ->
  (i + n <= length pieces)%nat ->
  exists pieces' c',
    value (for_loop n i (ArcLength.solvePiece s (lengthTable s) lpp) (pieces, c)) =
      Done (pieces', c') /\
    length pieces' = length pieces /\
    (forall j, (j < i \/ i + n <= j)%nat -> pieces' !! j = pieces !! j) /\
    (forall k, (k < n)%nat ->
       exists t l', pieces' !! (i + k)%nat = Some t /\ located s t l' /\
         l + times (S k) lpp - (e + times (S k) tol) <= l' /\
         l' <= l + times (S k) lpp + (e + times (S k) tol)).
Proof.
  induction n as [|n IH]; intros i pieces c l e Hc He Hlpp Hroom Hlen.
  - exists pieces, c. cbn. repeat split; auto. intros k Hk. lia.
  - pose proof (times_S n lpp) as HtS.
    assert (Hn0 : 0 <= times n lpp).
    { pose proof (times_mono 0 n lpp ltac:(lia) ltac:(lra)). pose proof (times_0 lpp). lra. }
    destruct (solvePiece_near lpp i pieces c l e Hc He Hlpp ltac:(lra))
      as (t & c1 & l1 & Hrun & Hloc & Hl0 & Hl1 & Hc1).
    cbn [for_loop]. rewrite value_bind, Hrun.
    destruct (IH (S i) (<[i := t]> pieces) c1 (l + lpp) (e + tol) Hc1 ltac:(lra) Hlpp
                ltac:(lra) ltac:(rewrite length_insert; lia))
      as (pieces' & c' & Hrun' & Hlen' & Hsame & Hnew).
    exists pieces', c'. split; [exact Hrun'|].
    split; [rewrite Hlen'; apply length_insert|]. split.
    + intros j Hj. rewrite Hsame by lia. apply list_lookup_insert_ne. lia.
    + intros [|k] Hk.
      * exists t, l1. rewrite Nat.add_0_r, Hsame by lia.
        split; [apply list_lookup_insert_eq; lia|]. split; [exact Hloc|].
        pose proof (times_S 0 lpp). pose proof (times_0 lpp).
        pose proof (times_S 0 tol). pose proof (times_0 tol). split; lra.
      * destruct (Hnew k ltac:(lia)) as (t' & l' & Ht' & Hloc' & Hl0' & Hl1').
        exists t', l'. replace (i + S k)%nat with (S i + k)%nat by lia.
        split; [exact Ht'|]. split; [exact Hloc'|].
        pose proof (times_S (S k) lpp). pose proof (times_S (S k) tol). split; lra.
Qed.

Lemma cursor0_near : cursorNear s (cursor0 (segmentArcLength s 0 0 1)) 0 0.
Proof.
  pose proof (wf_segments s wf) as Hc.
  pose proof (len_empty s wf 0%nat 0 Hc ltac:(lra) ltac:(lra)).
  pose proof (wf_nonneg s wf 0%nat 0 1 Hc ltac:(lra) ltac:(lra) ltac:(lra)).
  unfold cursorNear, cursor0, lengthAt.
  cbn [ArcLength.aIndex ArcLength.previousPercent ArcLength.segmentRemainder lengthBefore].
  unfloat. repeat split; try assumption; try lra.
Qed.

(** The boundaries of a partition: the first one stays as the vector was
    initialised, the [n] next ones lie near the multiples of the piece
    length, the others are untouched. *)
Lemma boundaries_near lpp n pieces :
  0 < lpp -> times n lpp <= totalArcLength s -> (1 + n <= length pieces)%nat ->
  exists pieces',
    match value (for_loop n 1 (ArcLength.solvePiece s (lengthTable s) lpp)
                   (pieces, cursor0 (segmentArcLength s 0 0 1))) with
    | Done st => Done st.1
    | OutOfRange => OutOfRange
    | OutOfFuel => OutOfFuel
    end = Done pieces' /\
    length pieces' = length pieces /\
    (forall j, (j < 1 \/ 1 + n <= j)%nat -> pieces' !! j = pieces !! j) /\
    (forall k, (1 <= k <= n)%nat ->
       exists t l, pieces' !! k = Some t /\ located s t l /\
         times k lpp - times k tol <= l /\ l <= times k lpp + times k tol).
Proof.
  intros Hlpp Hroom Hlen.
  destruct (pieces_loop_near lpp n 1 pieces _ 0 0 cursor0_near ltac:(lra) Hlpp
              ltac:(lra) Hlen) as (pieces' & c' & -> & Hlen' & Hsame & Hnew).
  exists pieces'. split; [reflexivity|]. split; [exact Hlen'|]. split; [exact Hsame|].
  intros k Hk. destruct (Hnew (k - 1)%nat ltac:(lia)) as (t & l & Ht & Hloc & Hl0 & Hl1).
  replace (1 + (k - 1))%nat with k in Ht by lia.
  replace (S (k - 1)) with k in Hl0, Hl1 by lia.
  exists t, l. split; [exact Ht|]. split; [exact Hloc|]. split; lra.
Qed.

(** The boundaries of [partition] lie near the multiples of the piece
    length. *)
Lemma partition_near lengthPerPiece : 0 < lengthPerPiece ->
  let m := Z.to_nat (Qfloor (totalArcLength s / lengthPerPiece)) in
  exists pieces,
    value (ArcLength.partition s lengthPerPiece) = Done pieces /\
    length pieces = (m + 1)%nat /\
    pieces !! 0%nat = Some 0 /\
    times m lengthPerPiece <= totalArcLength s /\
    totalArcLength s < times m lengthPerPiece + lengthPerPiece /\
    (forall k, (k <= m)%nat ->
       exists t l, pieces !! k = Some t /\ located s t l /\
         times k lengthPerPiece - times k tol <= l /\
         l <= times k lengthPerPiece + times k tol).
Proof.
  intros HL.
  pose proof (total_nonneg s wf) as Htot.
  set (q := totalArcLength s / lengthPerPiece).
  assert (Hq : 0 <= q) by (apply Qle_shift_div_l; lra).
  assert (Hql : q * lengthPerPiece == totalArcLength s) by (unfold q; field; lra).
  intros m. subst m.
  set (m := Z.to_nat (Qfloor q)).
  destruct (floor_times q lengthPerPiece Hq HL) as [Hm0 Hm1]. fold m in Hm0, Hm1.
  rewrite partition_run. cbn zeta. cbn [value snd].
  rewrite (read_first s wf), lengthTotal_exact. unfloat. fold q.
  rewrite (Qtrunc_nat_floor q Hq). fold m.
  rewrite length_replicate. replace (m + 1 - 1)%nat with m by lia.
  destruct (boundaries_near lengthPerPiece m (replicate (m + 1) 0)
              HL ltac:(lra) ltac:(rewrite length_replicate; lia))
    as (pieces & -> & Hlen & Hsame & Hnew).
  rewrite length_replicate in Hlen.
  exists pieces. split; [reflexivity|]. split; [exact Hlen|].
  split; [rewrite Hsame by lia; apply lookup_replicate_2; lia|].
  split; [lra|]. split; [lra|].
  intros [|k] Hk.
  - exists 0, 0. rewrite Hsame by lia. split; [apply lookup_replicate_2; lia|].
    split; [apply (located_start s wf)|].
    pose proof (times_0 lengthPerPiece). pose proof (times_0 tol). split; lra.
  - apply Hnew. lia.
Qed.

(** The boundaries of [partitionN] lie near the multiples of the [n]-th
    of the total length. *)
Lemma partitionN_near (n : nat) : (1 <= n)%nat -> 0 < totalArcLength s ->
  let lpp := totalArcLength s / inject_Z (Z.of_nat n) in
  exists pieces,
    value (ArcLength.partitionN s n) = Done pieces /\
    length pieces = (n + 1)%nat /\
    pieces !! 0%nat = Some 0 /\
    pieces !! n = Some (getMaxT s) /\
    (forall k, (k <= n)%nat ->
       exists t l, pieces !! k = Some t /\ located s t l /\
         times k lpp - times k tol <= l /\ l <= times k lpp + times k tol).
Proof.
  intros Hn Htot lpp.
  destruct (pieceN_length s n Hn ltac:(lra)) as (_ & Hfull & Hpart).
  fold lpp in Hfull, Hpart.
  assert (Hnq : 0 < inject_Z (Z.of_nat n)).
  { change 0 with (inject_Z 0). rewrite <- Zlt_Qlt. lia. }
  assert (Hlpp : 0 < lpp) by (apply Qlt_shift_div_l; lra).
  rewrite partitionN_run. cbn zeta. cbn [value snd].
  rewrite (read_first s wf), lengthTotal_exact. unfloat. fold lpp.
  set (pieces0 := <[n := getMaxT s]> (<[0%nat := 0]> (replicate (n + 1) 0))).
  assert (Hlen0 : length pieces0 = (n + 1)%nat).
  { unfold pieces0. rewrite !length_insert, length_replicate. reflexivity. }
  destruct (boundaries_near lpp (n - 1) pieces0 Hlpp Hpart ltac:(lia))
    as (pieces & -> & Hlen & Hsame & Hnew).
  rewrite Hlen0 in Hlen.
  assert (H0 : pieces !! 0%nat = Some 0).
  { rewrite Hsame by lia. unfold pieces0. rewrite list_lookup_insert_ne by lia.
    apply list_lookup_insert_eq. rewrite length_replicate. lia. }
  assert (Hlast : pieces !! n = Some (getMaxT s)).
  { rewrite Hsame by lia. unfold pieces0.
    apply list_lookup_insert_eq. rewrite length_insert, length_replicate. lia. }
  exists pieces. split; [reflexivity|]. split; [exact Hlen|].
  split; [exact H0|]. split; [exact Hlast|].
  intros k Hk.
  destruct (decide (k = 0%nat)) as [->|Hk0];
    [|destruct (decide (k = n)) as [->|Hkn]].
  - exists 0, 0. split; [exact H0|]. split; [apply (located_start s wf)|].
    pose proof (times_0 lpp). pose proof (times_0 tol). split; lra.
  - exists (getMaxT s), (totalArcLength s). split; [exact Hlast|].
    split; [apply (located_end s wf)|].
    pose proof (times_mono 0 n tol ltac:(lia) tol_nonneg). pose proof (times_0 tol).
    split; lra.
  - apply Hnew. lia.
Qed.

End PartitionAccuracy.

Lemma times_double n l : times (2 * n) l == 2 * times n l.
Proof.
  unfold times. rewrite Nat2Z.inj_mul, inject_Z_mult.
  change (inject_Z (Z.of_nat 2)) with 2. ring.
Qed.



(** X18.  The fixed-length partition in exact arithmetic.  On a
    well-formed curve of bounded speed, with a root finder that meets
    its contract with tolerance [tol], for every piece length [L > 0],
    [partition] returns [m + 1] boundaries, where
    [m = floor(totalArcLength / L)]; the first is 0; the arc length
    between any two consecutive ones is within [2 m] tolerances of [L];
    and what remains of the curve after the last one is shorter than
    [L] plus [m] tolerances and gets no boundary of its own. *)
Theorem partition_fixed_length
    {V : Type} {IV : Interpolation V Q} {RF : RootFinder Q}
    (s : Spline V Q) (K tol lengthPerPiece : Q) :
  WellFormed s -> SpeedBound s K -> ConvergentFinder K tol (Z.quot digits 2) ->
  0 <= tol -> 0 < lengthPerPiece ->
  let m := Z.to_nat (Qfloor (totalArcLength s / lengthPerPiece)) in
  exists pieces,
    value (ArcLength.partition s lengthPerPiece) = Done pieces /\
    length pieces = (m + 1)%nat /\
    pieces !! 0%nat = Some 0 /\
    (forall k x y, pieces !! k = Some x -> pieces !! (k + 1)%nat = Some y ->
       Qabs (arcLength s x y - lengthPerPiece) <= times (2 * m) tol) /\
    (forall x, last pieces = Some x ->
       0 <= remainingLength s x /\
       remainingLength s x < lengthPerPiece + times m tol).
Proof.
  intros wf Hspeed Hfinder Htol HL m.
  destruct (partition_near s wf K tol Hspeed Hfinder Htol lengthPerPiece HL)
    as (pieces & Hrun & Hlen & H0 & Hm0 & Hm1 & Hat).
  fold m in Hlen, Hm0, Hm1, Hat.
  pose proof (times_double m tol) as Hdouble.
  exists pieces. split; [exact Hrun|]. split; [exact Hlen|]. split; [exact H0|]. split.
  - intros k x y Hx Hy.
    assert (Hk : (k + 1 <= m)%nat).
    { apply lookup_lt_Some in Hy. lia. }
    destruct (Hat k ltac:(lia)) as (x' & lx & Hx' & Hlocx & Hx0 & Hx1).
    destruct (Hat (k + 1)%nat Hk) as (y' & ly & Hy' & Hlocy & Hy0 & Hy1).
    rewrite Hx in Hx'. rewrite Hy in Hy'. injection Hx' as <-. injection Hy' as <-.
    rewrite Nat.add_1_r in Hy0, Hy1.
    pose proof (times_S k lengthPerPiece) as HS.
    pose proof (times_S k tol) as HSt.
    pose proof (times_mono (S k) m tol ltac:(lia) Htol) as Hkm.
    pose proof (times_mono 0 k tol ltac:(lia) Htol) as Hk0. pose proof (times_0 tol).
    unfold arcLength.
    rewrite (located_arcLengthTo s wf _ _ Hlocx), (located_arcLengthTo s wf _ _ Hlocy).
    apply Qabs_Qle_condition. split; lra.
  - intros x Hx. rewrite last_lookup, Hlen in Hx.
    replace (Nat.pred (m + 1)) with m in Hx by lia.
    destruct (Hat m ltac:(lia)) as (x' & lx & Hx' & Hlocx & Hx0 & Hx1).
    rewrite Hx in Hx'. injection Hx' as <-.
    destruct (located_bounds s wf _ _ Hlocx) as (_ & _ & _ & Hle).
    unfold remainingLength. rewrite (located_arcLengthTo s wf _ _ Hlocx).
    split; lra.
Qed.

(** X13.  On a well-formed curve of bounded speed, with a root finder
    that meets its contract with tolerance [tol], for every piece
    length [L > 0]: the boundaries [partition] returns all lie in
    [[0, getMaxT]], and they are strictly increasing when [2 m]
    tolerances are less than [L], with
    [m = floor(totalArcLength / L)]. *)
Theorem partition_boundaries_increase
    {V : Type} {IV : Interpolation V Q} {RF : RootFinder Q}
    (s : Spline V Q) (K tol lengthPerPiece : Q) :
  WellFormed s -> SpeedBound s K -> ConvergentFinder K tol (Z.quot digits 2) ->
  0 <= tol -> 0 < lengthPerPiece ->
  let m := Z.to_nat (Qfloor (totalArcLength s / lengthPerPiece)) in
  exists pieces,
    value (ArcLength.partition s lengthPerPiece) = Done pieces /\
    (forall k x, pieces !! k = Some x -> 0 <= x /\ x <= getMaxT s) /\
    (times (2 * m) tol < lengthPerPiece ->
     forall k x y, pieces !! k = Some x -> pieces !! (k + 1)%nat = Some y -> x < y).
Proof.
  intros wf Hspeed Hfinder Htol HL m.
  destruct (partition_near s wf K tol Hspeed Hfinder Htol lengthPerPiece HL)
    as (pieces & Hrun & Hlen & H0 & Hm0 & Hm1 & Hat).
  fold m in Hlen, Hm0, Hm1, Hat.
  pose proof (times_double m tol) as Hdouble.
  exists pieces. split; [exact Hrun|]. split.
  - intros k x Hx.
    assert (Hk : (k <= m)%nat) by (apply lookup_lt_Some in Hx; lia).
    destruct (Hat k Hk) as (x' & lx & Hx' & Hlocx & _).
    rewrite Hx in Hx'. injection Hx' as <-.
    destruct (located_bounds s wf _ _ Hlocx) as (Hx0 & Hx1 & _). split; assumption.
  - intros Hsmall k x y Hx Hy.
    assert (Hk : (k + 1 <= m)%nat).
    { apply lookup_lt_Some in Hy. lia. }
    destruct (Hat k ltac:(lia)) as (x' & lx & Hx' & Hlocx & Hx0 & Hx1).
    destruct (Hat (k + 1)%nat Hk) as (y' & ly & Hy' & Hlocy & Hy0 & Hy1).
    rewrite Hx in Hx'. rewrite Hy in Hy'. injection Hx' as <-. injection Hy' as <-.
    rewrite Nat.add_1_r in Hy0, Hy1.
    pose proof (times_S k lengthPerPiece) as HS.
    pose proof (times_S k tol) as HSt.
    pose proof (times_mono (S k) m tol ltac:(lia) Htol) as Hkm.
    pose proof (times_mono 0 k tol ltac:(lia) Htol) as Hk0. pose proof (times_0 tol).
    apply (located_lt s wf _ _ _ _ Hlocx Hlocy). lra.
Qed.

(** X10.  On a well-formed curve without flat stretches, with a root
    finder that gives back a guess at which the objective vanishes, a
    point query with distance 0 from a parameter before the end of the
    curve answers that parameter. *)
Theorem solveLength_zero_distance
    {V : Type} {IV : Interpolation V Q} {RF : RootFinder Q}
    (s : Spline V Q) (a : Q) :
  WellFormed s -> NonDegenerate s -> StopsAtRoot ->
  0 <= a -> a < getMaxT s ->
  exists b, value (ArcLength.solveLength s a 0) = Done b /\ b == a.
Proof.
  intros wf nd Hstop Ha0 Ha1.
  destruct (locate s wf a Ha0 ltac:(lra)) as (Hi & Hl & Hu & Hin).
  pose proof (wf_knots s wf _ Hi) as Hk.
  pose proof (wf_last s wf) as Hlast.
  assert (Hlt : a < segmentT s (segmentForT s a + 1)).
  { destruct Hin as [Hlt|[Heq Hend]]; [exact Hlt|]. lra. }
  pose proof (localPercent_bounds s _ a Hk Hl Hu) as [Hp0 Hp1].
  set (i := segmentForT s a) in *. set (p := localPercent s i a) in *.
  assert (Hp : p < 1).
  { unfold p, localPercent. apply Qlt_shift_div_r; lra. }
  pose proof (nd i p 1 Hi Hp0 Hp ltac:(lra)) as Hm.
  pose proof (solveLength_target s a 0 Hi) as Ht. cbn zeta in Ht.
  unfold solveTarget in Ht. unfloat. fold i in Ht.
  change ((a - segmentT s i) / (segmentT s (i + 1) - segmentT s i)) with p in Ht.
  assert (Hno : Qlt_bool (segmentArcLength s i p 1) 0 = false)
    by (apply Qlt_bool_false; lra).
  rewrite Hno in Ht. destruct Ht as (_ & _ & _ & ->).
  eexists. split; [reflexivity|].
  set (m := segmentArcLength s i p 1) in *.
  assert (Hx : ArcLengthSolvePrivate.solveSegment s i 0 m p == p).
  { unfold ArcLengthSolvePrivate.solveSegment. unfloat.
    set (guess := p + 0 / m * (1 - p)).
    assert (Hg : guess == p) by (unfold guess; field; lra).
    rewrite Hstop; [exact Hg|].
    unfold ArcLengthSolvePrivate.solveFunction. cbn [fst]. unfloat.
    rewrite (wf_proper s wf i p p guess p ltac:(reflexivity) Hg).
    rewrite (len_empty s wf i p Hi Hp0 Hp1). ring. }
  rewrite Hx. unfold p, localPercent. field. lra.
Qed.

(** X11.  Point queries compose, up to the tolerance of the root
    finder.  On a well-formed curve of bounded speed, with a root finder
    that meets its contract with tolerance [tol], going [d1 > 0] along
    the curve from [a] and then [d2 > 0] from there ends within three
    tolerances, in arc length, of where going [d1 + d2] from [a] ends,
    also when one of the queries runs into the end of the curve. *)
Theorem solveLength_composes
    {V : Type} {IV : Interpolation V Q} {RF : RootFinder Q}
    (s : Spline V Q) (K tol a d1 d2 : Q) :
  WellFormed s -> SpeedBound s K -> ConvergentFinder K tol (Z.quot digits 2) ->
  0 <= tol -> 0 <= a -> a <= getMaxT s -> 0 < d1 -> 0 < d2 ->
  exists b c c',
    value (ArcLength.solveLength s a d1) = Done b /\
    value (ArcLength.solveLength s b d2) = Done c /\
    value (ArcLength.solveLength s a (d1 + d2)) = Done c' /\
    Qabs (arcLength s c c') <= 3 * tol.
Proof.
  intros wf Hspeed Hfinder Htol Ha0 Ha1 Hd1 Hd2.
  destruct (located_bounds s wf _ _ (located_end s wf)) as (Hmax0 & _).
  pose proof (arcLengthTo_end s wf) as Hend.
  destruct (arcLengthTo_range s wf a Ha0 Ha1) as [HA0 HA1].
  assert (Hsame : Qabs (arcLength s (getMaxT s) (getMaxT s)) <= 3 * tol).
  { unfold arcLength. apply Qabs_Qle_condition. split; lra. }
  destruct (solveLength_near s wf K tol Hspeed Hfinder a d1 Ha0 Ha1 Hd1)
    as [[Hlt1 Hrun1]|(Hle1 & b & l1 & Hrun1 & Hloc1 & _ & Hl1 & Hu1)].
  - exists (getMaxT s).
    destruct (solveLength_near s wf K tol Hspeed Hfinder (getMaxT s) d2 Hmax0 ltac:(lra) Hd2)
      as [[_ Hrun2]|(Hle2 & _)]; [|unfold remainingLength in *; lra].
    destruct (solveLength_near s wf K tol Hspeed Hfinder a (d1 + d2) Ha0 Ha1 ltac:(lra))
      as [[_ Hrun3]|(Hle3 & _)]; [|unfold remainingLength in *; lra].
    exists (getMaxT s), (getMaxT s). repeat split; assumption.
  - exists b.
    destruct (located_bounds s wf _ _ Hloc1) as (Hb0 & Hb1 & _ & Hl1max).
    pose proof (located_arcLengthTo s wf _ _ Hloc1) as Hb.
    destruct (solveLength_near s wf K tol Hspeed Hfinder b d2 Hb0 Hb1 Hd2)
      as [[Hlt2 Hrun2]|(Hle2 & c & l2 & Hrun2 & Hloc2 & _ & Hl2 & Hu2)];
    destruct (solveLength_near s wf K tol Hspeed Hfinder a (d1 + d2) Ha0 Ha1 ltac:(lra))
      as [[Hlt3 Hrun3]|(Hle3 & c' & l3 & Hrun3 & Hloc3 & _ & Hl3 & Hu3)].
    + exists (getMaxT s), (getMaxT s). repeat split; assumption.
    + exists (getMaxT s), c'. repeat split; try assumption.
      destruct (located_bounds s wf _ _ Hloc3) as (_ & _ & _ & Hl3max).
      unfold arcLength, remainingLength in *.
      rewrite (located_arcLengthTo s wf _ _ Hloc3), Hend.
      apply Qabs_Qle_condition. split; lra.
    + exists c, (getMaxT s). repeat split; try assumption.
      destruct (located_bounds s wf _ _ Hloc2) as (_ & _ & _ & Hl2max).
      unfold arcLength, remainingLength in *.
      rewrite (located_arcLengthTo s wf _ _ Hloc2), Hend.
      apply Qabs_Qle_condition. split; lra.
    + exists c, c'. repeat split; try assumption.
      unfold arcLength.
      rewrite (located_arcLengthTo s wf _ _ Hloc2), (located_arcLengthTo s wf _ _ Hloc3).
      apply Qabs_Qle_condition. split; lra.
Qed.

(** X14.  [partition] computes what point queries from the start of the
    curve compute, up to the tolerance of the root finder.  On a
    well-formed curve of bounded speed, with a root finder that meets
    its contract with tolerance [tol], for every piece length [L > 0],
    the boundary at position [k >= 1] of [partition] is within [k + 1]
    tolerances, in arc length, of the answer of
    [solveLength(curve, 0, k * L)]. *)
Theorem partition_agrees_with_solveLength
    {V : Type} {IV : Interpolation V Q} {RF : RootFinder Q}
    (s : Spline V Q) (K tol lengthPerPiece : Q) :
  WellFormed s -> SpeedBound s K -> ConvergentFinder K tol (Z.quot digits 2) ->
  0 <= tol -> 0 < lengthPerPiece ->
  exists pieces,
    value (ArcLength.partition s lengthPerPiece) = Done pieces /\
    forall k x, (1 <= k)%nat -> pieces !! k = Some x ->
      exists t,
        value (ArcLength.solveLength s 0 (inject_Z (Z.of_nat k) * lengthPerPiece)) = Done t /\
        Qabs (arcLength s t x) <= times (k + 1) tol.
Proof.
  intros wf Hspeed Hfinder Htol HL.
  destruct (partition_near s wf K tol Hspeed Hfinder Htol lengthPerPiece HL)
    as (pieces & Hrun & Hlen & _ & Hm0 & _ & Hat).
  exists pieces. split; [exact Hrun|].
  intros k x Hk1 Hx.
  set (m := Z.to_nat (Qfloor (totalArcLength s / lengthPerPiece))) in *.
  assert (Hk : (k <= m)%nat) by (apply lookup_lt_Some in Hx; lia).
  destruct (Hat k Hk) as (x' & lx & Hx' & Hlocx & Hx0 & Hx1).
  rewrite Hx in Hx'. injection Hx' as <-.
  change (inject_Z (Z.of_nat k) * lengthPerPiece) with (times k lengthPerPiece).
  pose proof (times_mono k m lengthPerPiece Hk ltac:(lra)) as Hkm.
  pose proof (times_mono 1 k lengthPerPiece Hk1 ltac:(lra)) as H1k.
  pose proof (times_S 0 lengthPerPiece) as H1. pose proof (times_0 lengthPerPiece) as H0.
  pose proof (arcLengthTo_start s wf) as Hstart.
  destruct (located_bounds s wf _ _ (located_end s wf)) as (Hmax & _).
  destruct (solveLength_near s wf K tol Hspeed Hfinder 0 (times k lengthPerPiece)
              ltac:(lra) Hmax ltac:(lra))
    as [[Hlt _]|(_ & t & l & Ht & Hloct & _ & Hl0 & Hl1)];
    [unfold remainingLength in Hlt; lra|].
  exists t. split; [exact Ht|].
  pose proof (times_S k tol) as HSt. rewrite Nat.add_1_r.
  unfold arcLength.
  rewrite (located_arcLengthTo s wf _ _ Hlocx), (located_arcLengthTo s wf _ _ Hloct).
  apply Qabs_Qle_condition. split; lra.
Qed.

(** X15.  [partitionN] computes what point queries from the start of
    the curve compute, up to the tolerance of the root finder.  On a
    well-formed curve of positive length and bounded speed, with a root
    finder that meets its contract with tolerance [tol], for every
    [n >= 1], the boundary at position [k >= 1] of [partitionN] is
    within [k + 1] tolerances, in arc length, of the answer of
    [solveLength(curve, 0, k * (totalArcLength / n))]; this includes
    the last one, [getMaxT], which [partitionN] does not solve for. *)
Theorem partitionN_agrees_with_solveLength
    {V : Type} {IV : Interpolation V Q} {RF : RootFinder Q}
    (s : Spline V Q) (K tol : Q) (n : nat) :
  WellFormed s -> SpeedBound s K -> ConvergentFinder K tol (Z.quot digits 2) ->
  0 <= tol -> 0 < totalArcLength s -> (1 <= n)%nat ->
  exists pieces,
    value (ArcLength.partitionN s n) = Done pieces /\
    forall k x, (1 <= k)%nat -> pieces !! k = Some x ->
      exists t,
        value (ArcLength.solveLength s 0
                 (inject_Z (Z.of_nat k) * (totalArcLength s / inject_Z (Z.of_nat n)))) = Done t /\
        Qabs (arcLength s t x) <= times (k + 1) tol.
Proof.
  intros wf Hspeed Hfinder Htol Htot Hn.
  destruct (partitionN_near s wf K tol Hspeed Hfinder Htol n Hn Htot)
    as (pieces & Hrun & Hlen & _ & _ & Hat).
  exists pieces. split; [exact Hrun|].
  intros k x Hk1 Hx.
  set (lpp := totalArcLength s / inject_Z (Z.of_nat n)) in *.
  assert (Hk : (k <= n)%nat) by (apply lookup_lt_Some in Hx; lia).
  destruct (Hat k Hk) as (x' & lx & Hx' & Hlocx & Hx0 & Hx1).
  rewrite Hx in Hx'. injection Hx' as <-.
  change (inject_Z (Z.of_nat k) * lpp) with (times k lpp).
  destruct (pieceN_length s n Hn ltac:(lra)) as (_ & Hfull & _). fold lpp in Hfull.
  assert (Hnq : 0 < inject_Z (Z.of_nat n)).
  { change 0 with (inject_Z 0). rewrite <- Zlt_Qlt. lia. }
  assert (Hlpp : 0 < lpp) by (apply Qlt_shift_div_l; lra).
  pose proof (times_mono k n lpp Hk ltac:(lra)) as Hkn.
  pose proof (times_mono 1 k lpp Hk1 ltac:(lra)) as H1k.
  pose proof (times_S 0 lpp) as H1. pose proof (times_0 lpp) as H0.
  pose proof (arcLengthTo_start s wf) as Hstart.
  destruct (located_bounds s wf _ _ (located_end s wf)) as (Hmax & _).
  destruct (solveLength_near s wf K tol Hspeed Hfinder 0 (times k lpp)
              ltac:(lra) Hmax ltac:(lra))
    as [[Hlt _]|(_ & t & l & Ht & Hloct & _ & Hl0 & Hl1)];
    [unfold remainingLength in Hlt; lra|].
  exists t. split; [exact Ht|].
  pose proof (times_S k tol) as HSt. rewrite Nat.add_1_r.
  unfold arcLength.
  rewrite (located_arcLengthTo s wf _ _ Hlocx), (located_arcLengthTo s wf _ _ Hloct).
  apply Qabs_Qle_condition. split; lra.
Qed.

(** X16.  In exact arithmetic the partitions return whatever the root
    finder answers.  On a well-formed curve, with no assumption on the
    solver, [partition] returns [floor(totalArcLength / L) + 1]
    boundaries for every piece length [L > 0], and [partitionN] returns
    [n + 1] boundaries for every [n >= 1]: the scans never leave the
    table of segment lengths, since they follow the remainders of the
    segment lengths and not the fractions the solver returns. *)
Theorem partition_returns_whatever_the_solver
    {V : Type} {IV : Interpolation V Q} {RF : RootFinder Q} (s : Spline V Q) :
  WellFormed s ->
  (forall lengthPerPiece, 0 < lengthPerPiece ->
     exists pieces,
       value (ArcLength.partition s lengthPerPiece) = Done pieces /\
       length pieces = (Z.to_nat (Qfloor (totalArcLength s / lengthPerPiece)) + 1)%nat) /\
  (forall n, (1 <= n)%nat ->
     exists pieces,
       value (ArcLength.partitionN s n) = Done pieces /\ length pieces = (n + 1)%nat).
Proof.
  intros wf. pose proof (total_nonneg s wf) as Htot.
  destruct (first_piece_state s wf) as (Hc0 & Hr0 & Hl0). split.
  - intros lengthPerPiece HL.
    set (q := totalArcLength s / lengthPerPiece).
    assert (Hq : 0 <= q) by (apply Qle_shift_div_l; lra).
    assert (Hql : q * lengthPerPiece == totalArcLength s) by (unfold q; field; lra).
    destruct (floor_times q lengthPerPiece Hq HL) as [Hm0 _].
    set (m := Z.to_nat (Qfloor q)) in *.
    destruct (pieces_loop_returns s wf lengthPerPiece m 1 (replicate (m + 1) 0) _ 0
                Hc0 Hr0 Hl0 ltac:(lra) ltac:(lra)) as (st & Hst).
    destruct (pieces_loop_frame _ _ _ _ _ _ _ _ Hst) as [Hlen _].
    exists st.1. rewrite partition_run. cbn zeta. cbn [value snd].
    rewrite (read_first s wf), lengthTotal_exact. unfloat. fold q.
    rewrite (Qtrunc_nat_floor q Hq). fold m.
    rewrite length_replicate. replace (m + 1 - 1)%nat with m by lia.
    rewrite Hst. split; [reflexivity|]. rewrite Hlen. apply length_replicate.
  - intros n Hn.
    destruct (pieceN_length s n Hn Htot) as (Hlpp & _ & Hpart).
    set (lpp := totalArcLength s / inject_Z (Z.of_nat n)) in *.
    set (pieces0 := <[n := getMaxT s]> (<[0%nat := 0]> (replicate (n + 1) 0))).
    destruct (pieces_loop_returns s wf lpp (n - 1) 1 pieces0 _ 0
                Hc0 Hr0 Hl0 Hlpp ltac:(lra)) as (st & Hst).
    destruct (pieces_loop_frame _ _ _ _ _ _ _ _ Hst) as [Hlen _].
    exists st.1. rewrite partitionN_run. cbn zeta. cbn [value snd].
    rewrite (read_first s wf), lengthTotal_exact. unfloat. fold lpp. fold pieces0.
    rewrite Hst. split; [reflexivity|]. rewrite Hlen.
    unfold pieces0. rewrite !length_insert, length_replicate. reflexivity.
Qed.

Lemma newton_finder_stops_at_root : @StopsAtRoot newton_finder.
Proof.
  intros f guess lo hi n Hroot. unfold halley_iterate, newton_finder.
  apply newton_steps_root, Hroot.
Qed.

(** X17.  The first guess of [solveSegment] is exact on a segment
    traversed at constant speed.  If the arc length of the segment
    between two fractions is proportional to their difference, and the
    root finder gives back a guess at which the objective vanishes, then
    for [0 <= desiredLength <= maxLength], with [maxLength > 0] the arc
    length from [aPercent] to 1, [solveSegment] returns the
    length-proportional fraction
    [aPercent + desiredLength / maxLength * (1 - aPercent)], which lies
    in [[aPercent, 1]] and at arc length [desiredLength] from
    [aPercent]. *)
Theorem solveSegment_exact_at_constant_speed
    {V : Type} {IV : Interpolation V Q} {RF : RootFinder Q}
    (s : Spline V Q) (segmentIndex : nat) (speed desiredLength maxLength aPercent : Q) :
  StopsAtRoot ->
  (forall p q, segmentArcLength s segmentIndex p q == speed * (q - p)) ->
  0 <= aPercent -> aPercent <= 1 ->
  0 <= desiredLength -> desiredLength <= maxLength -> 0 < maxLength ->
  maxLength == segmentArcLength s segmentIndex aPercent 1 ->
  let bPercent :=
    ArcLengthSolvePrivate.solveSegment s segmentIndex desiredLength maxLength aPercent in
  bPercent = aPercent + desiredLength / maxLength * (1 - aPercent) /\
  aPercent <= bPercent /\ bPercent <= 1 /\
  segmentArcLength s segmentIndex aPercent bPercent == desiredLength.
Proof.
  intros Hstop Hspeed Ha0 Ha1 Hd0 Hdm Hm0 Hm bPercent. subst bPercent.
  unfold ArcLengthSolvePrivate.solveSegment. unfloat.
  set (guess := aPercent + desiredLength / maxLength * (1 - aPercent)).
  assert (Hq0 : 0 <= desiredLength / maxLength) by (apply Qle_shift_div_l; lra).
  assert (Hq1 : desiredLength / maxLength <= 1) by (apply Qle_shift_div_r; lra).
  assert (Hq2 : desiredLength / maxLength * maxLength == desiredLength) by (field; lra).
  assert (Hlen : segmentArcLength s segmentIndex aPercent guess == desiredLength).
  { rewrite Hspeed. rewrite Hspeed in Hm.
    assert (E : speed * (guess - aPercent) ==
                desiredLength / maxLength * (speed * (1 - aPercent)))
      by (unfold guess; ring).
    rewrite E, <- Hm. exact Hq2. }
  rewrite Hstop.
  - split; [reflexivity|]. split; [unfold guess; nra|]. split; [unfold guess; nra | exact Hlen].
  - unfold ArcLengthSolvePrivate.solveFunction. cbn [fst]. unfloat. lra.
Qed.

(** X20.  At the two ends of its range the first guess of
    [solveSegment] is the answer.  On a well-formed curve, with a root
    finder that gives back a guess at which the objective vanishes, and
    with [maxLength > 0] the arc length from [aPercent] to 1:
    asked for the whole of [maxLength], [solveSegment] returns the
    fraction 1; asked for the length 0, it returns [aPercent]. *)
Theorem solveSegment_at_the_ends
    {V : Type} {IV : Interpolation V Q} {RF : RootFinder Q}
    (s : Spline V Q) (segmentIndex : nat) (maxLength aPercent : Q) :
  WellFormed s -> StopsAtRoot ->
  (segmentIndex < segmentCount s)%nat ->
  0 <= aPercent -> aPercent <= 1 ->
  0 < maxLength -> maxLength == segmentArcLength s segmentIndex aPercent 1 ->
  ArcLengthSolvePrivate.solveSegment s segmentIndex maxLength maxLength aPercent == 1 /\
  ArcLengthSolvePrivate.solveSegment s segmentIndex 0 maxLength aPercent == aPercent.
Proof.
  intros wf Hstop Hi Ha0 Ha1 Hm0 Hm.
  unfold ArcLengthSolvePrivate.solveSegment. unfloat. split.
  - set (guess := aPercent + maxLength / maxLength * (1 - aPercent)).
    assert (Hg : guess == 1) by (unfold guess; field; lra).
    rewrite Hstop; [exact Hg|].
    unfold ArcLengthSolvePrivate.solveFunction. cbn [fst]. unfloat.
    rewrite (wf_proper s wf segmentIndex aPercent aPercent guess 1 ltac:(reflexivity) Hg).
    lra.
  - set (guess := aPercent + 0 / maxLength * (1 - aPercent)).
    assert (Hg : guess == aPercent) by (unfold guess; field; lra).
    rewrite Hstop; [exact Hg|].
    unfold ArcLengthSolvePrivate.solveFunction. cbn [fst]. unfloat.
    rewrite (wf_proper s wf segmentIndex aPercent aPercent guess aPercent
               ltac:(reflexivity) Hg).
    rewrite (len_empty s wf segmentIndex aPercent Hi Ha0 Ha1). ring.
Qed.

(** ** The further properties on the two-segment curve *)

Lemma solveLength_visits_consecutive_segments_witness :
  let r := run_solveLength two_segments 0 5 in
  let aIndex := segmentForT two_segments 0 in
  exists k,
    (1 <= k <= segmentCount two_segments - aIndex)%nat /\
    measuredIndices (trace r) = seq aIndex k /\
    Forall (solveWithin (segmentCount two_segments)) (trace r) /\
    (solveIndices (trace r) = [(aIndex + k - 1)%nat] \/
     (solveIndices (trace r) = [] /\ k = (segmentCount two_segments - aIndex)%nat /\
      value r = Done (getMaxT two_segments))).
Proof.
  apply (@solveLength_visits_consecutive_segments Q Q Q_floating Q_interpolation
           newton_finder two_segments 0 5).
  vm_compute. lia.
Defined.

Lemma partition_returns_counted_witness :
  exists pieces,
    value (run_partition two_segments 4) = Done pieces /\
    length pieces = (to_size_t (fdiv (lengthTotal two_segments) 4%Q) + 1)%nat /\
    pieces !! 0%nat = Some 0 /\
    solveCalls (trace (run_partition two_segments 4)) = (length pieces - 1)%nat.
Proof.
  eexists. split; [vm_compute; reflexivity|].
  apply (@partition_returns_counted Q Q Q_floating Q_interpolation newton_finder
           two_segments 4).
  vm_compute. reflexivity.
Defined.

Lemma partitionN_returns_counted_witness :
  exists pieces,
    value (run_partitionN two_segments 4) = Done pieces /\
    length pieces = 5%nat /\
    pieces !! 0%nat = Some 0 /\
    pieces !! 4%nat = Some (getMaxT two_segments) /\
    solveCalls (trace (run_partitionN two_segments 4)) = 3%nat.
Proof.
  eexists. split; [vm_compute; reflexivity|].
  apply (@partitionN_returns_counted Q Q Q_floating Q_interpolation newton_finder
           two_segments 4); [lia|].
  vm_compute. reflexivity.
Defined.

Lemma partitionN_no_interior_boundary_witness :
  (value (run_partitionN two_segments 1) = Done [0; getMaxT two_segments] /\
   solveCalls (trace (run_partitionN two_segments 1)) = 0%nat) /\
  (value (run_partitionN two_segments 0) = Done [getMaxT two_segments] /\
   solveCalls (trace (run_partitionN two_segments 0)) = 0%nat).
Proof.
  apply (@partitionN_no_interior_boundary Q Q Q_floating Q_interpolation newton_finder
           two_segments).
  vm_compute. lia.
Defined.

Lemma partition_of_empty_curve_witness :
  run_partition (polyline []) 1 = ([], OutOfRange) /\
  run_partitionN (polyline []) 3 = ([], OutOfRange).
Proof.
  apply (@partition_of_empty_curve Q Q Q_floating Q_interpolation newton_finder
           (polyline []) 1 3).
  reflexivity.
Defined.

Lemma partitionN_prefix_of_partition_witness :
  exists piecesN pieces,
    value (run_partitionN two_segments 4) = Done piecesN /\
    value (run_partition two_segments (fdiv (lengthTotal two_segments) (of_size_t 4)))
      = Done pieces /\
    forall k, (k < 4)%nat -> (k < length pieces)%nat -> piecesN !! k = pieces !! k.
Proof.
  eexists _, _. split; [vm_compute; reflexivity|]. split; [vm_compute; reflexivity|].
  apply (@partitionN_prefix_of_partition Q Q Q_floating Q_interpolation newton_finder
           two_segments 4); vm_compute; reflexivity.
Defined.

Lemma partition_returns_whatever_the_solver_witness :
  (forall lengthPerPiece, 0 < lengthPerPiece ->
     exists pieces,
       value (run_partition two_segments lengthPerPiece) = Done pieces /\
       length pieces =
         (Z.to_nat (Qfloor (totalArcLength two_segments / lengthPerPiece)) + 1)%nat) /\
  (forall n, (1 <= n)%nat ->
     exists pieces,
       value (run_partitionN two_segments n) = Done pieces /\ length pieces = (n + 1)%nat).
Proof.
  apply (partition_returns_whatever_the_solver two_segments two_segments_wf).
Defined.

Lemma solveSegment_exact_at_constant_speed_witness :
  let bPercent :=
    @ArcLengthSolvePrivate.solveSegment Q Q Q_floating Q_interpolation newton_finder
      two_segments 1 4 6 (1 # 7) in
  bPercent = (1 # 7) + 4 / 6 * (1 - (1 # 7)) /\
  (1 # 7) <= bPercent /\ bPercent <= 1 /\
  segmentArcLength two_segments 1 (1 # 7) bPercent == 4.
Proof.
  apply (solveSegment_exact_at_constant_speed two_segments 1 7 4 6 (1 # 7)
           newton_finder_stops_at_root);
    try (intros p q; reflexivity); vm_compute; congruence.
Defined.

Lemma solveSegment_at_the_ends_witness :
  @ArcLengthSolvePrivate.solveSegment Q Q Q_floating Q_interpolation newton_finder
    two_segments 1 6 6 (1 # 7) == 1 /\
  @ArcLengthSolvePrivate.solveSegment Q Q Q_floating Q_interpolation newton_finder
    two_segments 1 0 6 (1 # 7) == 1 # 7.
Proof.
  apply (solveSegment_at_the_ends two_segments 1 6 (1 # 7)
           two_segments_wf newton_finder_stops_at_root);
    [vm_compute; lia | vm_compute; congruence ..].
Defined.

(** ** The theorems at work on concrete curves *)

Lemma solveLength_round_trip_witness :
  exists b, value (bisect_solveLength two_arcs 0 5) = Done b /\
            Qabs (arcLength two_arcs 0 b - 5) <= 1 # 1000000.
Proof.
  exact (solveLength_round_trip two_arcs (21 # 2) (1 # 1000000) 0 5
           two_arcs_wf two_arcs_speed bisect_finder_millionth
           ltac:(vm_compute; congruence) ltac:(vm_compute; congruence)
           ltac:(vm_compute; congruence) ltac:(vm_compute; congruence)).
Defined.



Lemma solveLength_saturates_witness :
  value (run_solveLength two_segments 0 11) = Done (getMaxT two_segments) /\
  solveCalls (trace (run_solveLength two_segments 0 11)) = 0%nat.
Proof.
  apply (proj2 (proj1 (proj2 solveLength_saturates Q Q_interpolation newton_finder
                         two_segments two_segments_wf) 0 11
                  ltac:(vm_compute; congruence) ltac:(vm_compute; congruence))).
  vm_compute. reflexivity.
Defined.

Lemma solveLength_advances_witness :
  exists b, value (run_solveLength two_segments 0 5) = Done b /\
            0 <= b /\ b <= getMaxT two_segments.
Proof.
  exact (solveLength_advances two_segments 0 5 two_segments_wf newton_finder_bracketed
           ltac:(vm_compute; congruence) ltac:(vm_compute; congruence)
           ltac:(vm_compute; congruence)).
Defined.

Lemma partition_fixed_length_witness :
  exists pieces,
    value (bisect_partition two_arcs 4) = Done pieces /\
    length pieces = 3%nat /\
    pieces !! 0%nat = Some 0 /\
    (forall k x y, pieces !! k = Some x -> pieces !! (k + 1)%nat = Some y ->
       Qabs (arcLength two_arcs x y - 4) <= times 4 (1 # 1000000)) /\
    (forall x, last pieces = Some x ->
       0 <= remainingLength two_arcs x /\
       remainingLength two_arcs x < 4 + times 2 (1 # 1000000)).
Proof.
  exact (partition_fixed_length two_arcs (21 # 2) (1 # 1000000) 4
           two_arcs_wf two_arcs_speed bisect_finder_millionth
           ltac:(vm_compute; congruence) ltac:(vm_compute; congruence)).
Defined.

Lemma partition_boundaries_increase_witness :
  exists pieces,
    value (bisect_partition two_arcs 4) = Done pieces /\
    (forall k x, pieces !! k = Some x -> 0 <= x /\ x <= getMaxT two_arcs) /\
    (times 4 (1 # 1000000) < 4 ->
     forall k x y, pieces !! k = Some x -> pieces !! (k + 1)%nat = Some y -> x < y).
Proof.
  exact (partition_boundaries_increase two_arcs (21 # 2) (1 # 1000000) 4
           two_arcs_wf two_arcs_speed bisect_finder_millionth
           ltac:(vm_compute; congruence) ltac:(vm_compute; congruence)).
Defined.

Lemma solveLength_composes_witness :
  exists b c c',
    value (bisect_solveLength two_arcs 0 2) = Done b /\
    value (bisect_solveLength two_arcs b 3) = Done c /\
    value (bisect_solveLength two_arcs 0 (2 + 3)) = Done c' /\
    Qabs (arcLength two_arcs c c') <= 3 * (1 # 1000000).
Proof.
  exact (solveLength_composes two_arcs (21 # 2) (1 # 1000000) 0 2 3
           two_arcs_wf two_arcs_speed bisect_finder_millionth
           ltac:(vm_compute; congruence) ltac:(vm_compute; congruence)
           ltac:(vm_compute; congruence) ltac:(vm_compute; congruence)
           ltac:(vm_compute; congruence)).
Defined.

Lemma partition_agrees_with_solveLength_witness :
  exists pieces,
    value (bisect_partition two_arcs 4) = Done pieces /\
    forall k x, (1 <= k)%nat -> pieces !! k = Some x ->
      exists t,
        value (bisect_solveLength two_arcs 0 (inject_Z (Z.of_nat k) * 4)) = Done t /\
        Qabs (arcLength two_arcs t x) <= times (k + 1) (1 # 1000000).
Proof.
  exact (partition_agrees_with_solveLength two_arcs (21 # 2) (1 # 1000000) 4
           two_arcs_wf two_arcs_speed bisect_finder_millionth
           ltac:(vm_compute; congruence) ltac:(vm_compute; congruence)).
Defined.

Lemma partitionN_agrees_with_solveLength_witness :
  exists pieces,
    value (bisect_partitionN two_arcs 4) = Done pieces /\
    forall k x, (1 <= k)%nat -> pieces !! k = Some x ->
      exists t,
        value (bisect_solveLength two_arcs 0
                 (inject_Z (Z.of_nat k) * (totalArcLength two_arcs / inject_Z 4))) = Done t /\
        Qabs (arcLength two_arcs t x) <= times (k + 1) (1 # 1000000).
Proof.
  exact (partitionN_agrees_with_solveLength two_arcs (21 # 2) (1 # 1000000) 4
           two_arcs_wf two_arcs_speed bisect_finder_millionth
           ltac:(vm_compute; congruence) ltac:(vm_compute; reflexivity) ltac:(lia)).
Defined.

Lemma solveLength_zero_distance_witness :
  exists b, value (run_solveLength two_segments (1 # 2) 0) = Done b /\ b == 1 # 2.
Proof.
  exact (solveLength_zero_distance two_segments (1 # 2)
           two_segments_wf two_segments_nd newton_finder_stops_at_root
           ltac:(vm_compute; congruence) ltac:(vm_compute; reflexivity)).
Defined.

Lemma solveLength_solver_calls_witness :
  solveCalls (trace (run_solveLength two_segments 0 5)) = 1%nat /\
  (exists tr0, trace (run_solveLength two_segments 0 5) =
                 tr0 ++ [EvSolveSegment 1 2 7 0] /\
               solveIndices tr0 = []) /\
  5 <= remainingLength two_segments 0.
Proof.
  pose proof (proj1 solveLength_solver_calls Q Q Q_floating Q_interpolation newton_finder
                two_segments 0 5 ltac:(vm_compute; lia)) as Hrun.
  pose proof (proj2 solveLength_solver_calls Q Q_interpolation newton_finder
                two_segments 0 5 two_segments_wf
                ltac:(vm_compute; congruence) ltac:(vm_compute; congruence)
                ltac:(vm_compute; congruence)) as Hexact.
  cbn zeta in Hrun.
  change (solveTarget two_segments 0 5) with (Some (1%nat, 2, 7, 0)) in Hrun, Hexact.
  destruct Hrun as (_ & _ & Hcalls & Htrace & _).
  destruct Hexact as (Hrem & _).
  split; [exact Hcalls|]. split; [exact Htrace|exact Hrem].
Defined.
